(** * ACM motherboard: quiz pages and board interaction

    A shallow embedding of the React components of the repository:
    the five quiz pages and the leftover second competitive-coding page
    (component-local state, event handlers, the [disabled] attributes of
    their controls) and the interaction layer of the 3D board
    ([ClickableComponent], [handleDomainClick], the per-frame update and
    the drag handlers of [RotatableMotherboard]).

    Conventions of the embedding.
    - A JavaScript string is the list of its UTF-16 code units.
    - A [useState] cell is a field of the component's state record; a
      handler is a function from the state of the current render to the
      state of the next one.
    - Question identifiers and array indices are [nat]; integer-valued
      JavaScript numbers (scores, percentages) are [Z], milliseconds are
      [N]; the real-valued numbers of the scene (angles, coordinates) are
      exact rationals [Q]: rounding of IEEE doubles is not modelled. *)

From Stdlib Require Import ZArith NArith List String Ascii.
From Stdlib Require Import QArith Qabs Qminmax Qround Sorted Lia Lqa.
From stdpp Require Import gmap.

Open Scope Z_scope.

(** ** JavaScript strings *)

Module Js.

Definition jsstring := list N.

(** An ASCII literal as code units. *)
Definition lit (s : string) : jsstring :=
  map N_of_ascii (list_ascii_of_string s).

(** ECMAScript WhiteSpace and LineTerminator code points, the ones
    [String.prototype.trim] strips. *)
Definition is_white_space (c : N) : bool :=
  ((c =? 9) || (c =? 10) || (c =? 11) || (c =? 12) || (c =? 13)
   || (c =? 32) || (c =? 160) || (c =? 5760)
   || ((8192 <=? c) && (c <=? 8202))
   || (c =? 8232) || (c =? 8233) || (c =? 8239) || (c =? 8287)
   || (c =? 12288) || (c =? 65279))%N.

Fixpoint trim_start (s : jsstring) : jsstring :=
  match s with
  | [] => []
  | c :: s' => if is_white_space c then trim_start s' else s
  end.

Definition trim_end (s : jsstring) : jsstring := rev (trim_start (rev s)).

Definition trim (s : jsstring) : jsstring := trim_end (trim_start s).

(** Truthiness of a string: the empty string is falsy. *)
Definition truthy (s : jsstring) : bool :=
  match s with [] => false | _ => true end.

(** [o?.trim()] used as a condition: [undefined] stays [undefined]. *)
Definition opt_trim_truthy (o : option jsstring) : bool :=
  match o with
  | None => false
  | Some s => truthy (trim s)
  end.

(** [o || ''] *)
Definition or_empty (o : option jsstring) : jsstring :=
  match o with
  | None => []
  | Some s => if truthy s then s else []
  end.

(** A text that is empty or made of white space only. *)
Definition blank (s : jsstring) : bool := forallb is_white_space s.

(** [s.replace(' ', '-')] with a one-character pattern: only the first
    occurrence is replaced. *)
Fixpoint replace_first (pat by_ : N) (s : jsstring) : jsstring :=
  match s with
  | [] => []
  | c :: s' => if (c =? pat)%N then by_ :: s' else c :: replace_first pat by_ s'
  end.

(** A JavaScript array: a slot is either a value or a hole, and reading
    a hole or past the end gives [undefined]. *)
Abbreviation array A := (list (option A)) (only parsing).

Definition array_get {A} (i : nat) (a : array A) : option A :=
  match a !! i with
  | Some (Some v) => Some v
  | _ => None
  end.

(** [a[i] = v] on a copy: writing past the end extends the array and
    leaves holes in between. *)
Definition array_set {A} (i : nat) (v : A) (a : array A) : array A :=
  if (i <? length a)%nat then <[i := Some v]> a
  else a ++ replicate (i - length a) None ++ [Some v].

(** [a.filter(f).length]: holes are skipped. *)
Definition array_count {A} (f : A -> bool) (a : array A) : nat :=
  length (List.filter (fun o => match o with Some v => f v | None => false end) a).

End Js.

Import Js.

(** ** Management page (management.tsx)

    Of a question only the fields the handlers read are kept. *)

Module ManagementPage.

Record Question := { id : nat; category : jsstring; points : Z }.

Definition managementQuestions : list Question :=
  [ {| id := 1; category := lit "CPU Fundamentals"; points := 10 |};
    {| id := 2; category := lit "Performance Management"; points := 15 |};
    {| id := 3; category := lit "Process Management"; points := 20 |};
    {| id := 4; category := lit "Architecture Design"; points := 25 |};
    {| id := 5; category := lit "Multi-Core Management"; points := 30 |};
    {| id := 6; category := lit "Performance Optimization"; points := 35 |} ].

Record state := {
  answers : gmap nat jsstring;
  currentQuestion : nat;
  totalScore : Z
}.

Definition init : state :=
  {| answers := ∅; currentQuestion := 0; totalScore := 0 |}.

Definition handleAnswerChange (questionId : nat) (answer : jsstring)
    (st : state) : state :=
  {| answers := <[questionId := answer]> (answers st);
     currentQuestion := currentQuestion st;
     totalScore := totalScore st |}.

(** [managementQuestions.find(q => q.id === questionId)] *)
Definition find_question (questionId : nat) : option Question :=
  find (fun q => Nat.eqb (id q) questionId) managementQuestions.

Definition submitAnswer (questionId : nat) (st : state) : state :=
  match answers st !! questionId with
  | Some answer =>
      if truthy answer && (10 <? length (trim answer))%nat then
        match find_question questionId with
        | Some question =>
            {| answers := answers st;
               currentQuestion := currentQuestion st;
               totalScore := totalScore st + points question |}
        | None => st
        end
      else st
  | None => st
  end.

Definition nextQuestion (st : state) : state :=
  if (currentQuestion st <? length managementQuestions - 1)%nat then
    {| answers := answers st;
       currentQuestion := currentQuestion st + 1;
       totalScore := totalScore st |}
  else st.

Definition prevQuestion (st : state) : state :=
  if (0 <? currentQuestion st)%nat then
    {| answers := answers st;
       currentQuestion := currentQuestion st - 1;
       totalScore := totalScore st |}
  else st.

Definition setCurrentQuestion (index : nat) (st : state) : state :=
  {| answers := answers st;
     currentQuestion := index;
     totalScore := totalScore st |}.

(** [managementQuestions[currentQuestion]?.id] *)
Definition current_id (st : state) : option nat :=
  id <$> managementQuestions !! currentQuestion st.

(** The [disabled] attribute of the PROCESS button, for the question it
    is wired to. *)
Definition submit_disabled (questionId : nat) (st : state) : bool :=
  negb (opt_trim_truthy (answers st !! questionId)).

(** What the user can do on the page.  The textarea and the PROCESS
    button act on the question at [currentQuestion]; a core dot exists
    for each index of the question list.  [currentQuestion] is always an
    index of the list ([management_current_in_range]); the controls of a
    page without a current question are left without effect. *)
Inductive event :=
| Type_ (value : jsstring)
| ClickProcess
| ClickNext
| ClickPrev
| ClickDot (index : nat).

Definition step (e : event) (st : state) : state :=
  match e with
  | Type_ value =>
      match current_id st with
      | Some q => handleAnswerChange q value st
      | None => st
      end
  | ClickProcess =>
      match current_id st with
      | Some q => if submit_disabled q st then st else submitAnswer q st
      | None => st
      end
  | ClickNext =>
      if (currentQuestion st =? length managementQuestions - 1)%nat
      then st else nextQuestion st
  | ClickPrev =>
      if (currentQuestion st =? 0)%nat then st else prevQuestion st
  | ClickDot index =>
      if (index <? length managementQuestions)%nat
      then setCurrentQuestion index st else st
  end.

(** A sequence of user events, oldest first. *)
Definition run (evs : list event) (st : state) : state :=
  fold_left (fun s e => step e s) evs st.

End ManagementPage.

(** ** Design page (design.tsx)

    The questions are kept by their [id]; the handlers read nothing else.

    [console.log] output is not part of the page state and is left out.
    The Return button calls [navigate('/')], which unmounts the component:
    it ends the life of the state and is not a transition on it. *)

Module DesignPage.

Definition designQuestions : list nat := [1; 2; 3; 4; 5]%nat.

Record state := {
  answers : gmap nat jsstring;
  submittedQuestions : gset nat;
  designProgress : Z
}.

Definition init : state :=
  {| answers := ∅; submittedQuestions := ∅; designProgress := 0 |}.

Definition handleAnswerChange (questionId : nat) (value : jsstring)
    (st : state) : state :=
  {| answers := <[questionId := value]> (answers st);
     submittedQuestions := submittedQuestions st;
     designProgress := designProgress st |}.

Definition handleSubmitAnswer (questionId : nat) (st : state) : state :=
  if opt_trim_truthy (answers st !! questionId) then
    {| answers := answers st;
       submittedQuestions := submittedQuestions st ∪ {[questionId]};
       designProgress := Z.min 100 (designProgress st + 20) |}
  else st.

(** [disabled] of the textarea and of the submit button of a card. *)
Definition textarea_disabled (questionId : nat) (st : state) : bool :=
  bool_decide (questionId ∈ submittedQuestions st).

Definition submit_disabled (questionId : nat) (st : state) : bool :=
  negb (opt_trim_truthy (answers st !! questionId))
  || bool_decide (questionId ∈ submittedQuestions st).

(** One card is rendered per entry of [designQuestions]. *)
Definition rendered (questionId : nat) : bool :=
  bool_decide (questionId ∈ designQuestions).

Inductive event :=
| Type_ (questionId : nat) (value : jsstring)
| ClickSubmit (questionId : nat).

Definition step (e : event) (st : state) : state :=
  match e with
  | Type_ q value =>
      if rendered q && negb (textarea_disabled q st)
      then handleAnswerChange q value st else st
  | ClickSubmit q =>
      if rendered q && negb (submit_disabled q st)
      then handleSubmitAnswer q st else st
  end.

(** A sequence of user events, oldest first. *)
Definition run (evs : list event) (st : state) : state :=
  fold_left (fun s e => step e s) evs st.

(** [Math.floor(i / 2.4)] for the connector pin [i]. *)
Definition pin_threshold (i : nat) : Z :=
  Qfloor (inject_Z (Z.of_nat i) / (24#10)).

(** The class of connector pin [i] (of twelve):
    [submittedQuestions.size > Math.floor(i / 2.4)]. *)
Definition connector_pin_active (i : nat) (st : state) : bool :=
  (pin_threshold i <? Z.of_nat (size (submittedQuestions st)))%Z.

(** The progress counts the submissions, and a submitted question is one
    of the list with an answer that is not blank. *)
Definition counts_submissions (st : state) : Prop :=
  designProgress st = 20 * Z.of_nat (size (submittedQuestions st))
  /\ (forall q, q ∈ submittedQuestions st ->
        q ∈ designQuestions /\ opt_trim_truthy (answers st !! q) = true).

End DesignPage.

(** ** Research page (research.tsx) *)

Module ResearchPage.

Definition researchQuestions : list nat := [1; 2; 3; 4; 5]%nat.

Record state := {
  answers : gmap nat jsstring;
  submittedQuestions : gset nat
}.

Definition init : state := {| answers := ∅; submittedQuestions := ∅ |}.

Definition handleAnswerChange (questionId : nat) (value : jsstring)
    (st : state) : state :=
  {| answers := <[questionId := value]> (answers st);
     submittedQuestions := submittedQuestions st |}.

Definition handleSubmitAnswer (questionId : nat) (st : state) : state :=
  if opt_trim_truthy (answers st !! questionId) then
    {| answers := answers st;
       submittedQuestions := submittedQuestions st ∪ {[questionId]} |}
  else st.

Definition textarea_disabled (questionId : nat) (st : state) : bool :=
  bool_decide (questionId ∈ submittedQuestions st).

Definition submit_disabled (questionId : nat) (st : state) : bool :=
  negb (opt_trim_truthy (answers st !! questionId))
  || bool_decide (questionId ∈ submittedQuestions st).

Definition rendered (questionId : nat) : bool :=
  bool_decide (questionId ∈ researchQuestions).

Inductive event :=
| Type_ (questionId : nat) (value : jsstring)
| ClickSubmit (questionId : nat).

Definition step (e : event) (st : state) : state :=
  match e with
  | Type_ q value =>
      if rendered q && negb (textarea_disabled q st)
      then handleAnswerChange q value st else st
  | ClickSubmit q =>
      if rendered q && negb (submit_disabled q st)
      then handleSubmitAnswer q st else st
  end.

(** A sequence of user events, oldest first. *)
Definition run (evs : list event) (st : state) : state :=
  fold_left (fun s e => step e s) evs st.

(** A submitted question is one of the list with an answer that is not
    blank. *)
Definition submitted_answered (st : state) : Prop :=
  forall q, q ∈ submittedQuestions st ->
    q ∈ researchQuestions /\ opt_trim_truthy (answers st !! q) = true.

End ResearchPage.

(** ** Tech page (tech.tsx) *)

Module TechPage.

Definition techQuestions : list nat := [1; 2; 3; 4; 5]%nat.

Record state := {
  answers : gmap nat jsstring;
  submittedQuestions : gset nat;
  fanSpeed : Z
}.

Definition init : state :=
  {| answers := ∅; submittedQuestions := ∅; fanSpeed := 60 |}.

Definition handleAnswerChange (questionId : nat) (value : jsstring)
    (st : state) : state :=
  {| answers := <[questionId := value]> (answers st);
     submittedQuestions := submittedQuestions st;
     fanSpeed := fanSpeed st |}.

Definition handleSubmitAnswer (questionId : nat) (st : state) : state :=
  if opt_trim_truthy (answers st !! questionId) then
    {| answers := answers st;
       submittedQuestions := submittedQuestions st ∪ {[questionId]};
       fanSpeed := Z.min 100 (fanSpeed st + 8) |}
  else st.

Definition textarea_disabled (questionId : nat) (st : state) : bool :=
  bool_decide (questionId ∈ submittedQuestions st).

Definition submit_disabled (questionId : nat) (st : state) : bool :=
  negb (opt_trim_truthy (answers st !! questionId))
  || bool_decide (questionId ∈ submittedQuestions st).

Definition rendered (questionId : nat) : bool :=
  bool_decide (questionId ∈ techQuestions).

Inductive event :=
| Type_ (questionId : nat) (value : jsstring)
| ClickSubmit (questionId : nat).

Definition step (e : event) (st : state) : state :=
  match e with
  | Type_ q value =>
      if rendered q && negb (textarea_disabled q st)
      then handleAnswerChange q value st else st
  | ClickSubmit q =>
      if rendered q && negb (submit_disabled q st)
      then handleSubmitAnswer q st else st
  end.

(** A sequence of user events, oldest first. *)
Definition run (evs : list event) (st : state) : state :=
  fold_left (fun s e => step e s) evs st.

(** The CPU temperature shown:
    [Math.max(85 - submittedQuestions.size * 8, 45)]. *)
Definition temperature (st : state) : Z :=
  Z.max (85 - Z.of_nat (size (submittedQuestions st)) * 8) 45.

(** The fan speed counts the submissions, and a submitted question is one
    of the list with an answer that is not blank. *)
Definition counts_submissions (st : state) : Prop :=
  fanSpeed st = 60 + 8 * Z.of_nat (size (submittedQuestions st))
  /\ (forall q, q ∈ submittedQuestions st ->
        q ∈ techQuestions /\ opt_trim_truthy (answers st !! q) = true).

End TechPage.

(** ** RAM competitive-coding page (component [CompetitiveCodingPage])

    [alert] is the only effect of the submit handler besides the state
    updates; the handler returns the message it shows. *)

Module CompetitiveCodingPage.

Inductive Difficulty := Easy | Medium | Hard.

Record Question := { id : nat; difficulty : Difficulty; points : Z }.

Definition questions : list Question :=
  [ {| id := 1; difficulty := Easy; points := 100 |};
    {| id := 2; difficulty := Medium; points := 200 |};
    {| id := 3; difficulty := Hard; points := 300 |};
    {| id := 4; difficulty := Medium; points := 250 |};
    {| id := 5; difficulty := Hard; points := 350 |} ].

Record Answer := {
  questionId : nat;
  code : jsstring;
  explanation : jsstring
}.

Record state := {
  answers : gmap nat Answer;
  activeQuestion : nat;
  totalScore : Z;
  submissions : gmap nat bool
}.

Definition init : state :=
  {| answers := ∅; activeQuestion := 1; totalScore := 0; submissions := ∅ |}.

Inductive field := Code | Explanation.

Definition updateAnswer (q : nat) (f : field) (value : jsstring)
    (st : state) : state :=
  let prev := answers st !! q in
  {| answers :=
       <[q := {| questionId := q;
                 code := match f with
                         | Code => value
                         | Explanation => or_empty (code <$> prev)
                         end;
                 explanation := match f with
                                | Explanation => value
                                | Code => or_empty (explanation <$> prev)
                                end |}]> (answers st);
     activeQuestion := activeQuestion st;
     totalScore := totalScore st;
     submissions := submissions st |}.

(** [questions.find(q => q.id === questionId)] *)
Definition find_question (q : nat) : option Question :=
  find (fun qn => Nat.eqb (id qn) q) questions.

Inductive alert :=
| SubmittedOk (pts : option Z)   (* "Solution submitted successfully! +.. points" *)
| Incomplete.                    (* "Please provide both code and explanation ..." *)

Definition submitAnswer (q : nat) (st : state) : state * alert :=
  match answers st !! q with
  | Some answer =>
      if truthy (trim (code answer)) && truthy (trim (explanation answer))
      then
        let question := find_question q in
        ({| answers := answers st;
            activeQuestion := activeQuestion st;
            totalScore := match question with
                          | Some qn => totalScore st + points qn
                          | None => totalScore st
                          end;
            submissions := <[q := true]> (submissions st) |},
         SubmittedOk (points <$> question))
      else (st, Incomplete)
  | None => (st, Incomplete)
  end.

Definition setActiveQuestion (q : nat) (st : state) : state :=
  {| answers := answers st;
     activeQuestion := q;
     totalScore := totalScore st;
     submissions := submissions st |}.

(** [submissions[q]] used as a condition. *)
Definition submitted (q : nat) (st : state) : bool :=
  match submissions st !! q with
  | Some b => b
  | None => false
  end.

(** [disabled={submissions[question.id]}] *)
Definition submit_disabled (q : nat) (st : state) : bool := submitted q st.

(** One container (two textareas, one submit button) and one navigation
    button are rendered per entry of [questions]. *)
Definition rendered (q : nat) : bool :=
  bool_decide (q ∈ map id questions).

Inductive event :=
| Type_ (q : nat) (f : field) (value : jsstring)
| ClickSubmit (q : nat)
| ClickNav (q : nat).

Definition step (e : event) (st : state) : state :=
  match e with
  | Type_ q f value => if rendered q then updateAnswer q f value st else st
  | ClickSubmit q =>
      if rendered q && negb (submit_disabled q st)
      then fst (submitAnswer q st) else st
  | ClickNav q => if rendered q then setActiveQuestion q st else st
  end.

(** The point values of the questions marked in the submissions record. *)
Definition submitted_points (subs : gmap nat bool) : Z :=
  fold_right
    (fun qn acc =>
       match subs !! id qn with
       | Some true => points qn + acc
       | _ => acc
       end) 0 questions.

(** A sequence of user events, oldest first. *)
Definition run (evs : list event) (st : state) : state :=
  fold_left (fun s e => step e s) evs st.

(** The score is the sum of the point values of the questions marked in
    the submissions record. *)
Definition score_invariant (st : state) : Prop :=
  totalScore st = submitted_points (submissions st).

(** [Object.keys(submissions).length], the numerator of the progress bar. *)
Definition progress_count (st : state) : nat := size (submissions st).

(** Memory block [i] (of sixteen) shows allocated:
    [submissions[Math.floor(i / 3) + 1]] used as a condition. *)
Definition memory_block (i : nat) (st : state) : bool :=
  submitted (i / 3 + 1) st.

(** The submissions record holds [true] only, under the [id] of a
    question. *)
Definition submissions_ok (st : state) : Prop :=
  forall q b, submissions st !! q = Some b -> b = true /\ rendered q = true.

End CompetitiveCodingPage.

(** ** Second competitive-coding page (component [CompetitiveCoding])

    [executionTime] has a [Math.random()] summand and is left out; like
    [memoryUsage] it is written only by the effect that runs when
    [solutions] changes. *)

Module CompetitiveCoding.

Definition problems : list nat := [1; 2; 3; 4; 5]%nat.

Record state := {
  currentProblem : nat;
  solutions : array jsstring;
  submittedProblems : array bool;
  memoryUsage : Q
}.

(** [useEffect(..., [solutions])] *)
Definition memory_effect (sols : array jsstring) : Q :=
  let totalSolutions :=
    array_count (fun sol => (0 <? length sol)%nat) sols in
  ((inject_Z (Z.of_nat totalSolutions) / 5) * 100)%Q.

Definition init : state :=
  let sols := replicate 5 (Some []) in
  {| currentProblem := 0;
     solutions := sols;
     submittedProblems := replicate 5 (Some false);
     memoryUsage := memory_effect sols |}.

Definition handleSolutionChange (value : jsstring) (st : state) : state :=
  let newSolutions := array_set (currentProblem st) value (solutions st) in
  {| currentProblem := currentProblem st;
     solutions := newSolutions;
     submittedProblems := submittedProblems st;
     memoryUsage := memory_effect newSolutions |}.

(** [None]: [solutions[currentProblem]] is [undefined] and [.trim()]
    throws a TypeError. *)
Definition handleSubmit (st : state) : option state :=
  match array_get (currentProblem st) (solutions st) with
  | None => None
  | Some sol =>
      Some (if truthy (trim sol) then
              {| currentProblem := currentProblem st;
                 solutions := solutions st;
                 submittedProblems :=
                   array_set (currentProblem st) true (submittedProblems st);
                 memoryUsage := memoryUsage st |}
            else st)
  end.

Definition setCurrentProblem (index : nat) (st : state) : state :=
  {| currentProblem := index;
     solutions := solutions st;
     submittedProblems := submittedProblems st;
     memoryUsage := memoryUsage st |}.

(** [submittedProblems[i]] used as a condition. *)
Definition submitted (i : nat) (st : state) : bool :=
  match array_get i (submittedProblems st) with
  | Some b => b
  | None => false
  end.

Inductive event :=
| Type_ (value : jsstring)
| ClickSubmit
| ClickChip (index : nat).

(** [None]: rendering or the handler throws. *)
Definition step (e : event) (st : state) : option state :=
  match array_get (currentProblem st) (solutions st) with
  | None => None
  | Some sol =>
      match e with
      | Type_ value =>
          Some (if submitted (currentProblem st) st then st
                else handleSolutionChange value st)
      | ClickSubmit =>
          if negb (truthy (trim sol)) || submitted (currentProblem st) st
          then Some st else handleSubmit st
      | ClickChip index =>
          Some (if (index <? length problems)%nat
                then setCurrentProblem index st else st)
      end
  end.

(** What holds of every state the page reaches: the current problem is one
    of the five, and the two arrays have their five slots filled. *)
Definition well_formed (st : state) : Prop :=
  (currentProblem st < length problems)%nat
  /\ length (solutions st) = length problems
  /\ Forall is_Some (solutions st)
  /\ length (submittedProblems st) = length problems
  /\ Forall is_Some (submittedProblems st).

(** A sequence of user events, oldest first; [None] as soon as one step
    throws. *)
Fixpoint run (evs : list event) (st : state) : option state :=
  match evs with
  | [] => Some st
  | e :: evs' =>
      match step e st with
      | Some st' => run evs' st'
      | None => None
      end
  end.

Inductive MemoryStatus := Low | Medium | High.

Definition getMemoryStatus (st : state) : MemoryStatus :=
  if negb (Qle_bool 30 (memoryUsage st)) then Low
  else if negb (Qle_bool 70 (memoryUsage st)) then Medium
  else High.

(** [submittedProblems.filter(Boolean).length] *)
Definition solvedProblems (st : state) : nat :=
  array_count (fun b : bool => b) (submittedProblems st).

Definition accuracy (st : state) : Q :=
  if (0 <? length (solutions st))%nat
  then ((inject_Z (Z.of_nat (solvedProblems st)) / 5) * 100)%Q
  else 0%Q.

(** How many solutions are not the empty string. *)
Definition nonempty_solutions (st : state) : nat :=
  array_count (fun sol : jsstring => (0 <? length sol)%nat) (solutions st).

End CompetitiveCoding.

(** ** The quiz pages seen through one interface *)

Inductive page := Management | Design | Research | Tech | RamCoding | Coding.

Definition page_state (p : page) : Type :=
  match p with
  | Management => ManagementPage.state
  | Design => DesignPage.state
  | Research => ResearchPage.state
  | Tech => TechPage.state
  | RamCoding => CompetitiveCodingPage.state
  | Coding => CompetitiveCoding.state
  end.

(** The submit handler of the page, called for question [q] ([Coding]:
    for the problem at [currentProblem], whatever [q] is).  [None]: the
    handler throws. *)
Definition submit (p : page) (q : nat) : page_state p -> option (page_state p) :=
  match p return page_state p -> option (page_state p) with
  | Management => fun st => Some (ManagementPage.submitAnswer q st)
  | Design => fun st => Some (DesignPage.handleSubmitAnswer q st)
  | Research => fun st => Some (ResearchPage.handleSubmitAnswer q st)
  | Tech => fun st => Some (TechPage.handleSubmitAnswer q st)
  | RamCoding => fun st => Some (fst (CompetitiveCodingPage.submitAnswer q st))
  | Coding => fun st => CompetitiveCoding.handleSubmit st
  end.

(** The page has a submit control wired to question [q]. *)
Definition wired (p : page) (q : nat) : page_state p -> bool :=
  match p return page_state p -> bool with
  | Management => fun st => bool_decide (ManagementPage.current_id st = Some q)
  | Design => fun _ => DesignPage.rendered q
  | Research => fun _ => ResearchPage.rendered q
  | Tech => fun _ => TechPage.rendered q
  | RamCoding => fun _ => CompetitiveCodingPage.rendered q
  | Coding => fun st =>
      (CompetitiveCoding.currentProblem st =? q)%nat
      && (q <? length CompetitiveCoding.problems)%nat
  end.

(** What the answer fields of question [q] show ([value=...] of its
    textareas); no entry where the value is [undefined]. *)
Definition answer_fields (p : page) (q : nat) : page_state p -> list jsstring :=
  match p return page_state p -> list jsstring with
  | Management => fun st => [or_empty (ManagementPage.answers st !! q)]
  | Design => fun st => [or_empty (DesignPage.answers st !! q)]
  | Research => fun st => [or_empty (ResearchPage.answers st !! q)]
  | Tech => fun st => [or_empty (TechPage.answers st !! q)]
  | RamCoding => fun st =>
      let a := CompetitiveCodingPage.answers st !! q in
      [or_empty (CompetitiveCodingPage.code <$> a);
       or_empty (CompetitiveCodingPage.explanation <$> a)]
  | Coding => fun st =>
      match array_get q (CompetitiveCoding.solutions st) with
      | Some sol => [sol]
      | None => []
      end
  end.

(** Some answer field of the question is empty or white space only. *)
Definition answer_blank (p : page) (q : nat) (st : page_state p) : bool :=
  existsb blank (answer_fields p q st).

(** Every answer field of the question has a character that is not
    white space. *)
Definition answer_filled (p : page) (q : nat) (st : page_state p) : bool :=
  match answer_fields p q st with
  | [] => false
  | fs => forallb (fun t => negb (blank t)) fs
  end.

(** The submission mark of question [q]; [None]: the page keeps no
    submission record. *)
Definition marked (p : page) (q : nat) : page_state p -> option bool :=
  match p return page_state p -> option bool with
  | Management => fun _ => None
  | Design => fun st => Some (bool_decide (q ∈ DesignPage.submittedQuestions st))
  | Research => fun st => Some (bool_decide (q ∈ ResearchPage.submittedQuestions st))
  | Tech => fun st => Some (bool_decide (q ∈ TechPage.submittedQuestions st))
  | RamCoding => fun st => Some (CompetitiveCodingPage.submitted q st)
  | Coding => fun st => Some (CompetitiveCoding.submitted q st)
  end.

(** The running score; [None]: the page keeps no score. *)
Definition score (p : page) : page_state p -> option Z :=
  match p return page_state p -> option Z with
  | Management => fun st => Some (ManagementPage.totalScore st)
  | RamCoding => fun st => Some (CompetitiveCodingPage.totalScore st)
  | _ => fun _ => None
  end.

(** The point value of question [q]; [None]: the questions of the page
    carry no points, or [q] is not one of them. *)
Definition points (p : page) (q : nat) : option Z :=
  match p with
  | Management => ManagementPage.points <$> ManagementPage.find_question q
  | RamCoding => CompetitiveCodingPage.points <$> CompetitiveCodingPage.find_question q
  | _ => None
  end.

(** ** Routes (App.tsx) *)

Module App.

Definition routes : list jsstring :=
  [ lit "/"; lit "/management"; lit "/competitive-coding";
    lit "/tech"; lit "/design"; lit "/research" ].

End App.

(** ** The board (MotherboardAccurate.tsx)

    [state] holds the [useState] cells of [RotatableMotherboard], [scene]
    the three.js objects its callbacks mutate, [browser] the part of the
    host the click handler acts on: the clock and the pending timers of
    [setTimeout], the router location set by [navigate] and the console. *)

Module Board.

Definition vec3 : Type := Q * Q * Q.

Record vec2 := { x : Q; y : Q }.

(** *** Clickable regions *)

Record props := { domain : jsstring; position : vec3 }.

(** The [ClickableComponent] elements of [MotherboardLayoutAccurate]. *)
Inductive region := PCISlots | HeatsinkBlock | CPUChip | RAMSlots | PCIESlots.

Definition wiring (r : region) : props :=
  match r with
  | PCISlots => {| domain := lit "design"; position := (-(45#10), 0, -1)%Q |}
  | HeatsinkBlock => {| domain := lit "tech"; position := (16#10, 28#100, -(6#10))%Q |}
  | CPUChip => {| domain := lit "management"; position := (36#10, 35#100, 1)%Q |}
  | RAMSlots =>
      {| domain := lit "competitive coding"; position := (-(15#10), 6#100, 5#10)%Q |}
  | PCIESlots => {| domain := lit "research"; position := (0, 6#100, 2)%Q |}
  end.

Record state := {
  isDragging : bool;
  dragStart : vec2;
  rotation : vec2;
  targetRotation : vec2;
  isZooming : bool;
  zoomTarget : option vec3;
  isMobile : bool
}.

Definition init : state :=
  {| isDragging := false;
     dragStart := {| x := 0; y := 0 |};
     rotation := {| x := 0; y := 0 |};
     targetRotation := {| x := 0; y := 0 |};
     isZooming := false;
     zoomTarget := None;
     isMobile := false |}.

(** [group_rotation]: [groupRef.current.rotation], [None] while the ref
    is not attached. *)
Record scene := {
  group_rotation : option vec3;
  camera_position : vec3;
  camera_lookAt : option vec3
}.

(** A pending [setTimeout]: when it is due and the [domain] its callback
    closes over. *)
Record timer := { due : N; timer_domain : jsstring }.

Record browser := {
  now : N;
  timers : list timer;
  location : jsstring;
  console : list (jsstring * vec3)
}.

(** Timers fire in the order of their due times, and in the order of
    their creation when these are equal: the queue is kept in that
    order. *)
Fixpoint insert_timer (t : timer) (l : list timer) : list timer :=
  match l with
  | [] => [t]
  | t' :: l' =>
      if (due t <? due t')%N then t :: l else t' :: insert_timer t l'
  end.

Definition setTimeout (dom : jsstring) (delay : N) (br : browser) : browser :=
  {| now := now br;
     timers := insert_timer {| due := now br + delay; timer_domain := dom |}
                            (timers br);
     location := location br;
     console := console br |}.

(** The route the timer callback computes: [`/${domain.replace(' ', '-')}`]. *)
Definition route (dom : jsstring) : jsstring :=
  lit "/" ++ replace_first 32 45 dom.

(** Runs the callbacks of the timers that are due at [t], in queue
    order; each one navigates. *)
Fixpoint run_due (t : N) (l : list timer) (loc : jsstring)
    : list timer * jsstring :=
  match l with
  | [] => ([], loc)
  | tm :: l' =>
      if (due tm <=? t)%N then run_due t l' (route (timer_domain tm))
      else (l, loc)
  end.

(** [dt] milliseconds pass. *)
Definition elapse (dt : N) (br : browser) : browser :=
  let t := (now br + dt)%N in
  let '(l, loc) := run_due t (timers br) (location br) in
  {| now := t; timers := l; location := loc; console := console br |}.

Definition checkMobile (innerWidth : Z) (st : state) : state :=
  {| isDragging := isDragging st;
     dragStart := dragStart st;
     rotation := rotation st;
     targetRotation := targetRotation st;
     isZooming := isZooming st;
     zoomTarget := zoomTarget st;
     isMobile := (innerWidth <? 768)%Z |}.

Definition duration (mobile : bool) : N := if mobile then 2000%N else 2500%N.

Definition handleMouseUp (st : state) : state :=
  {| isDragging := false;
     dragStart := dragStart st;
     rotation := rotation st;
     targetRotation := {| x := 0; y := 0 |};
     isZooming := isZooming st;
     zoomTarget := zoomTarget st;
     isMobile := isMobile st |}.

(** A pointer-down event: mouse coordinates, or the first touch point. *)
Record pointer_event := {
  clientX : option Q;
  clientY : option Q;
  touches : option (list (Q * Q))
}.

(** [a || b || 0] on numbers: [undefined] and [0] are falsy. *)
Definition first_truthy (a b : option Q) : Q :=
  match a with
  | Some v => if Qeq_bool v 0 then
                match b with
                | Some u => if Qeq_bool u 0 then 0 else u
                | None => 0
                end
              else v
  | None => match b with
            | Some u => if Qeq_bool u 0 then 0 else u
            | None => 0
            end
  end%Q.

Definition handlePointerDown (size : Q * Q) (e : pointer_event)
    (st : state) : state :=
  let touch0 := touches e ≫= head in
  let cx := first_truthy (clientX e) (fst <$> touch0) in
  let cy := first_truthy (clientY e) (snd <$> touch0) in
  {| isDragging := true;
     dragStart := {| x := (cx / fst size) * 2 - 1;
                     y := - (cy / snd size) * 2 + 1 |}%Q;
     rotation := rotation st;
     targetRotation := targetRotation st;
     isZooming := isZooming st;
     zoomTarget := zoomTarget st;
     isMobile := isMobile st |}.

Section Scene.

Local Open Scope Q_scope.

(** [Math.PI] *)
Variable PI : Q.

(** three.js [MathUtils]. *)
Definition DEG2RAD : Q := PI / 180.
Definition degToRad (degrees : Q) : Q := degrees * DEG2RAD.
Definition clamp (value lo hi : Q) : Q := Qmax lo (Qmin hi value).

Definition maxRotation : Q := degToRad 20.

Definition handleDomainClick (dom : jsstring) (pos : vec3)
    (w : state * browser) : state * browser :=
  let '(st, br) := w in
  let br1 :=
    {| now := now br; timers := timers br; location := location br;
       console := console br ++ [(dom, pos)] |} in
  let rotationMultiplier : Q := if isMobile st then 6#10 else 1 in
  let st' :=
    {| isDragging := isDragging st;
       dragStart := dragStart st;
       rotation := rotation st;
       targetRotation :=
         {| x := x (targetRotation st) + degToRad (8 * rotationMultiplier);
            y := y (targetRotation st) + degToRad (3 * rotationMultiplier) |};
       isZooming := true;
       zoomTarget := Some pos;
       isMobile := isMobile st |} in
  (st', setTimeout dom (duration (isMobile st)) br1).

(** [onClick] of a [ClickableComponent]; [hovered] is its own state. *)
Definition onClick (p : props) (hovered : bool)
    (onDomainClick : jsstring -> vec3 -> state * browser -> state * browser)
    : state * browser -> state * browser :=
  onDomainClick (domain p) (position p).

Definition click (r : region) (hovered : bool) (w : state * browser)
    : state * browser :=
  onClick (wiring r) hovered handleDomainClick w.

(** [camera.position.lerp(target, alpha)] *)
Definition lerp3 (p target : vec3) (alpha : Q) : vec3 :=
  let '(px, py, pz) := p in
  let '(tx, ty, tz) := target in
  (px + (tx - px) * alpha, py + (ty - py) * alpha, pz + (tz - pz) * alpha).

(** The [useFrame] callback. *)
Definition frame (w : state * scene) : state * scene :=
  let '(st, sc) := w in
  let '(st1, group1) :=
    match isDragging st, group_rotation sc with
    | false, Some _ =>
        let springStrength : Q := 1#10 in
        let damping : Q := 9#10 in
        ({| isDragging := isDragging st;
            dragStart := dragStart st;
            rotation :=
              {| x := x (rotation st)
                      + (x (targetRotation st) - x (rotation st)) * springStrength;
                 y := y (rotation st)
                      + (y (targetRotation st) - y (rotation st)) * springStrength |};
            targetRotation :=
              {| x := x (targetRotation st) * damping;
                 y := y (targetRotation st) * damping |};
            isZooming := isZooming st;
            zoomTarget := zoomTarget st;
            isMobile := isMobile st |},
         Some (PI / 2 + x (rotation st), y (rotation st), 0))
    | _, _ => (st, group_rotation sc)
    end in
  let '(cam, look) :=
    match isZooming st, zoomTarget st with
    | true, Some (zx, zy, zz) =>
        let mobileOffset : Q := if isMobile st then 1 else 0 in
        let targetPosition := (zx, zy + 3 + mobileOffset, zz + 2 + mobileOffset) in
        (lerp3 (camera_position sc) targetPosition (6#100), Some (zx, zy, zz))
    | _, _ => (camera_position sc, camera_lookAt sc)
    end in
  (st1, {| group_rotation := group1; camera_position := cam; camera_lookAt := look |}).

(** The window [mousemove] listener, with the event's [clientX] and
    [clientY]. *)
Definition handleMouseMove (size : Q * Q) (cX cY : Q) (w : state * scene)
    : state * scene :=
  let '(st, sc) := w in
  if negb (isDragging st) then w
  else
    let currentMouse :=
      {| x := (cX / fst size) * 2 - 1; y := - (cY / snd size) * 2 + 1 |} in
    let deltaX := x currentMouse - x (dragStart st) in
    let deltaY := y currentMouse - y (dragStart st) in
    let newRotationY := clamp (deltaX * 2) (- maxRotation) maxRotation in
    let newRotationX := clamp (deltaY * 2) (- maxRotation) maxRotation in
    ({| isDragging := isDragging st;
        dragStart := dragStart st;
        rotation := {| x := newRotationX; y := newRotationY |};
        targetRotation := {| x := newRotationX; y := newRotationY |};
        isZooming := isZooming st;
        zoomTarget := zoomTarget st;
        isMobile := isMobile st |},
     {| group_rotation :=
          match group_rotation sc with
          | Some _ => Some (PI / 2 + newRotationX, newRotationY, 0)
          | None => None
          end;
        camera_position := camera_position sc;
        camera_lookAt := camera_lookAt sc |}).

(** [n] frames in a row. *)
Fixpoint frames (n : nat) (w : state * scene) : state * scene :=
  match n with
  | O => w
  | S n' => frames n' (frame w)
  end.

(** The click handler and the passing of time: what acts on the timer
    queue.  Everything that reaches the board, presses, releases and
    resizes included, is [op] below. *)
Inductive input :=
| Click (r : region)
| Wait (dt : N).

Definition step (i : input) (w : state * browser) : state * browser :=
  match i with
  | Click r => click r false w
  | Wait dt => (fst w, elapse dt (snd w))
  end.

Definition run (ins : list input) (w : state * browser) : state * browser :=
  fold_left (fun w i => step i w) ins w.

End Scene.






(** How far the board is from rest: the rotation and twice the target
    rotation, on both axes. *)
Definition tilt (st : state) : Q :=
  Qabs (x (rotation st)) + 2 * Qabs (x (targetRotation st))
  + (Qabs (y (rotation st)) + 2 * Qabs (y (targetRotation st))).

(** *** Everything that acts on the board

    The handlers of [RotatableMotherboard] and the host events that
    reach them.  The window listeners for mouse moves and releases are
    attached only while [isDragging]. *)
Inductive op :=
| OpClick (r : region) (hovered : bool)
| OpFrame
| OpPointerDown (e : pointer_event)
| OpMouseMove (cX cY : Q)
| OpMouseUp
| OpResize (innerWidth : Z) (size : Q * Q)
| OpWait (dt : N).

Record world := {
  w_state : state;
  w_scene : scene;
  w_browser : browser;
  w_size : Q * Q
}.

Definition apply (PI : Q) (o : op) (w : world) : world :=
  match o with
  | OpClick r hovered =>
      let '(st, br) := click PI r hovered (w_state w, w_browser w) in
      {| w_state := st; w_scene := w_scene w; w_browser := br; w_size := w_size w |}
  | OpFrame =>
      let '(st, sc) := frame PI (w_state w, w_scene w) in
      {| w_state := st; w_scene := sc; w_browser := w_browser w; w_size := w_size w |}
  | OpPointerDown e =>
      {| w_state := handlePointerDown (w_size w) e (w_state w);
         w_scene := w_scene w; w_browser := w_browser w; w_size := w_size w |}
  | OpMouseMove cX cY =>
      let '(st, sc) := handleMouseMove PI (w_size w) cX cY (w_state w, w_scene w) in
      {| w_state := st; w_scene := sc; w_browser := w_browser w; w_size := w_size w |}
  | OpMouseUp =>
      {| w_state := if isDragging (w_state w) then handleMouseUp (w_state w)
                    else w_state w;
         w_scene := w_scene w; w_browser := w_browser w; w_size := w_size w |}
  | OpResize innerWidth size =>
      {| w_state := checkMobile innerWidth (w_state w);
         w_scene := w_scene w; w_browser := w_browser w; w_size := size |}
  | OpWait dt =>
      {| w_state := w_state w; w_scene := w_scene w;
         w_browser := elapse dt (w_browser w); w_size := w_size w |}
  end.

Definition apply_all (PI : Q) (ops : list op) (w : world) : world :=
  fold_left (fun w o => apply PI o w) ops w.

(** The clicks and the pauses of a sequence of actions: what acts on the
    timer queue. *)
Definition op_input (o : op) : option input :=
  match o with
  | OpClick r _ => Some (Click r)
  | OpWait dt => Some (Wait dt)
  | _ => None
  end.

Definition inputs (ops : list op) : list input := omap op_input ops.


(** A whole click with the mouse: the press reaches [handlePointerDown]
    on the root group, the moves and the release reach the window
    listeners, [n] frames may pass, and the click event reaches [onClick]
    of the region. *)
Definition click_gesture (e : pointer_event) (moves : list (Q * Q)) (n : nat)
    (r : region) (hovered : bool) : list op :=
  OpPointerDown e
  :: map (fun m => OpMouseMove (fst m) (snd m)) moves
  ++ OpMouseUp :: replicate n OpFrame ++ [OpClick r hovered].

(** How far the point [p] is from [t], coordinate by coordinate. *)
Definition camera_distance (p t : vec3) : Q :=
  let '(px, py, pz) := p in
  let '(tx, ty, tz) := t in
  (Qabs (px - tx) + Qabs (py - ty) + Qabs (pz - tz))%Q.

(** Where the zoom takes the camera: above and behind the anchor. *)
Definition zoom_position (mobile : bool) (target : vec3) : vec3 :=
  let '(zx, zy, zz) := target in
  let mobileOffset : Q := (if mobile then 1 else 0)%Q in
  (zx, zy + 3 + mobileOffset, zz + 2 + mobileOffset)%Q.

End Board.

(** ** Parts of the scene that are laid out by a loop

    Coordinates are exact rationals; where the source calls [Math.cos] or
    [Math.sin] the value of the call is a parameter. *)

Module Parts.

Local Open Scope Q_scope.

Definition of_nat (i : nat) : Q := inject_Z (Z.of_nat i).

(** [Heatsink]: the x coordinates of the fins,
    [-w / 2 + (i + 0.5) * (w / fins)] for [i < fins], and the width of
    the box of a fin, [w / fins * 0.85]. *)
Definition Heatsink_xs (w : Q) (fins : nat) : list Q :=
  map (fun i => - w / 2 + (of_nat i + (1#2)) * (w / of_nat fins)) (seq 0 fins).

Definition Heatsink_fin_width (w : Q) (fins : nat) : Q :=
  w / of_nat fins * (85#100).

(** [PCB]: the x coordinates of the twenty lines and the z coordinates of
    the sixteen lines of the surface grid. *)
Definition PCB_grid_x (width : Q) : list Q :=
  map (fun i => - width / 2 + of_nat i * (width / 19)) (seq 0 20).

Definition PCB_grid_z (depth : Q) : list Q :=
  map (fun i => - depth / 2 + of_nat i * (depth / 15)) (seq 0 16).

(** The 24 small resistors and the 50 SMD components of
    [MotherboardLayoutAccurate]: x and z of the item [i]. *)
Definition SmallRes_position (i : nat) : Q * Q :=
  (- (45#10) + of_nat (i mod 6) * (15#10), - (35#10) + of_nat (i / 6) * (18#10)).

Definition SMD_position (i : nat) : Q * Q :=
  (- (35#10) + of_nat (i mod 10) * (3#10), - (25#10) + of_nat (i / 10) * (3#10)).

(** The capacitors and SMD components on a ring around the CPU: x and z
    for the cosine [c] and the sine [s] of the angle. *)
Definition ring_position (c s radius : Q) : Q * Q :=
  (Qmax (- (65#10)) (Qmin (65#10) ((36#10) + c * radius)),
   Qmax (- (55#10)) (Qmin (55#10) (1 + s * radius))).

(** [ICChip]: x and z of the pin [i] of a chip of [pins] pins with a body
    [sx] wide and [sz] deep.  [pins / 4] pins go on a side; with [pins = 4]
    the code divides zero by zero and the coordinate along the side is
    NaN, which is [None] here. *)
Definition ICChip_pin (sx sz : Q) (pins i : nat) : option (Q * Q) :=
  let perSide := of_nat pins / 4 in
  let side := Z.to_nat (Qfloor (of_nat i / perSide)) in
  let pinOnSide := of_nat i - perSide * of_nat side in
  if Qeq_bool (perSide - 1) 0 then None
  else Some
    match side with
    | 0%nat => (- sx / 2 - (5#100), - sz / 2 + pinOnSide * sz / (perSide - 1))
    | 1%nat => (- sx / 2 + pinOnSide * sx / (perSide - 1), sz / 2 + (5#100))
    | 2%nat => (sx / 2 + (5#100), sz / 2 - pinOnSide * sz / (perSide - 1))
    | 3%nat => (sx / 2 - pinOnSide * sx / (perSide - 1), - sz / 2 - (5#100))
    | _ => (0, 0)
    end.

End Parts.

(** ** Facts about [trim] *)

Lemma trim_start_blank s : blank s = true -> trim_start s = [].
Proof.
  induction s as [|c s IH]; simpl; intros H; [done|].
  apply andb_prop in H as [Hc Hs]. rewrite Hc. auto.
Qed.

Lemma trim_blank s : blank s = true -> trim s = [].
Proof.
  intros H. unfold trim, trim_end.
  rewrite (trim_start_blank s H). reflexivity.
Qed.

Lemma trim_start_nil s : trim_start s = [] -> blank s = true.
Proof.
  induction s as [|c s IH]; simpl; [reflexivity|].
  destruct (is_white_space c); [exact IH | discriminate].
Qed.

Lemma blank_app s t : blank (s ++ t) = blank s && blank t.
Proof. apply forallb_app. Qed.

Lemma blank_rev s : blank (rev s) = blank s.
Proof.
  induction s as [|c s IH]; simpl; [reflexivity|].
  rewrite blank_app, IH. simpl. rewrite andb_true_r. apply andb_comm.
Qed.

Lemma trim_start_keeps_ink s : blank s = false -> blank (trim_start s) = false.
Proof.
  induction s as [|c s IH]; simpl; [discriminate|].
  destruct (is_white_space c) eqn:Hc; simpl; [exact IH|].
  intros _. rewrite Hc. reflexivity.
Qed.

Lemma truthy_nil_iff s : truthy s = false <-> s = [].
Proof. destruct s; simpl; split; congruence. Qed.

Lemma truthy_trim s : truthy (trim s) = negb (blank s).
Proof.
  destruct (blank s) eqn:Hb; simpl.
  - rewrite (trim_blank s Hb). reflexivity.
  - destruct (truthy (trim s)) eqn:Ht; [reflexivity|].
    apply truthy_nil_iff in Ht. unfold trim, trim_end in Ht.
    apply (f_equal (@rev N)) in Ht. rewrite rev_involutive in Ht. simpl in Ht.
    apply trim_start_nil in Ht. rewrite blank_rev in Ht.
    rewrite (trim_start_keeps_ink s Hb) in Ht. discriminate.
Qed.

Lemma blank_or_empty o : blank (or_empty o) = true -> opt_trim_truthy o = false.
Proof.
  destruct o as [s|]; simpl; [|reflexivity].
  rewrite truthy_trim. destruct s as [|c s]; [reflexivity|].
  simpl. intros ->. reflexivity.
Qed.

Lemma filled_or_empty o :
  blank (or_empty o) = false ->
  exists s, o = Some s /\ or_empty o = s /\ truthy (trim s) = true.
Proof.
  destruct o as [s|]; simpl; [|discriminate].
  destruct s as [|c s]; simpl; [discriminate|].
  intros H. exists (c :: s). rewrite truthy_trim. simpl. rewrite H. auto.
Qed.

(** ** Submitting on the quiz pages *)

(** C2. On every quiz page, for every question the page has a submit
    control for and every state of the page, the submit handler returns
    the state it was given when an answer field of the question is empty
    or holds white space only: the submission record, the score and every
    value derived from them stay as they were. *)
Theorem blank_submit_changes_nothing (p : page) (q : nat) (st : page_state p) :
  wired p q st = true ->
  answer_blank p q st = true ->
  submit p q st = Some st.
Proof.
  unfold answer_blank.
  destruct p; simpl in *; intros Hw Hb; rewrite ?orb_false_r in Hb.
  - f_equal. unfold ManagementPage.submitAnswer.
    destruct (ManagementPage.answers st !! q) as [a|]; [|reflexivity].
    simpl in Hb. destruct (truthy a) eqn:Ht; [|reflexivity].
    rewrite (trim_blank a Hb). reflexivity.
  - f_equal. unfold DesignPage.handleSubmitAnswer.
    rewrite (blank_or_empty _ Hb). reflexivity.
  - f_equal. unfold ResearchPage.handleSubmitAnswer.
    rewrite (blank_or_empty _ Hb). reflexivity.
  - f_equal. unfold TechPage.handleSubmitAnswer.
    rewrite (blank_or_empty _ Hb). reflexivity.
  - f_equal. unfold CompetitiveCodingPage.submitAnswer.
    destruct (CompetitiveCodingPage.answers st !! q) as [a|]; [|reflexivity].
    apply orb_prop in Hb as [Hb|Hb]; apply blank_or_empty in Hb;
      simpl in Hb; rewrite Hb; rewrite ?andb_false_r; reflexivity.
  - apply andb_prop in Hw as [Hq _]. apply Nat.eqb_eq in Hq. subst q.
    unfold CompetitiveCoding.handleSubmit.
    destruct (array_get _ _) as [sol|]; [|discriminate].
    simpl in Hb. rewrite orb_false_r in Hb.
    rewrite truthy_trim, Hb. reflexivity.
Qed.

Lemma blank_submit_changes_nothing_witness :
  let st := CompetitiveCodingPage.updateAnswer 2 CompetitiveCodingPage.Code
              (lit "return 0;") CompetitiveCodingPage.init in
  submit RamCoding 2 st = Some st.
Proof.
  intros st. apply (blank_submit_changes_nothing RamCoding 2 st); vm_compute; reflexivity.
Defined.

(** C9. On the management page, when the answer of a question has between
    1 and 10 characters after trimming, its PROCESS button is enabled and
    both the handler and the click leave the state, and so the total
    score, as they were; the handler changes the score only when the
    trimmed answer has more than 10 characters. *)
Theorem management_process_needs_long_answer
    (q : nat) (st : ManagementPage.state) (a : jsstring) :
  ManagementPage.answers st !! q = Some a ->
  (1 <= length (trim a))%nat ->
  ManagementPage.submit_disabled q st = false
  /\ ((length (trim a) <= 10)%nat ->
      ManagementPage.submitAnswer q st = st
      /\ (ManagementPage.current_id st = Some q ->
          ManagementPage.step ManagementPage.ClickProcess st = st))
  /\ (ManagementPage.totalScore (ManagementPage.submitAnswer q st)
        <> ManagementPage.totalScore st ->
      (10 < length (trim a))%nat).
Proof.
  intros Ha Hlen.
  assert (Hshort : (length (trim a) <= 10)%nat -> ManagementPage.submitAnswer q st = st).
  { intros Hle. unfold ManagementPage.submitAnswer. rewrite Ha.
    destruct (10 <? length (trim a))%nat eqn:Hlt.
    - apply Nat.ltb_lt in Hlt. lia.
    - rewrite andb_false_r. reflexivity. }
  split; [|split].
  - unfold ManagementPage.submit_disabled. rewrite Ha. simpl.
    destruct (trim a); simpl in *; [lia | reflexivity].
  - intros Hle. split; [auto|].
    intros Hcur. simpl. rewrite Hcur.
    destruct (ManagementPage.submit_disabled q st); auto.
  - intros Hne. destruct (Nat.le_gt_cases (length (trim a)) 10) as [Hle|Hgt]; [|lia].
    rewrite (Hshort Hle) in Hne. congruence.
Qed.

Lemma management_process_needs_long_answer_witness :
  let st := ManagementPage.handleAnswerChange 1 (lit " fetch it ")
              ManagementPage.init in
  ManagementPage.submit_disabled 1 st = false
  /\ ManagementPage.totalScore (ManagementPage.submitAnswer 1 st) = 0.
Proof.
  intros st.
  destruct (management_process_needs_long_answer 1 st (lit " fetch it "))
    as (Hen & Hshort & _).
  - vm_compute; reflexivity.
  - vm_compute. lia.
  - split; [exact Hen|].
    destruct Hshort as [-> _]; [vm_compute; lia | reflexivity].
Defined.

(** ** Arrays *)

Lemma array_get_set_eq {A} (i : nat) (v : A) (a : array A) :
  array_get i (array_set i v a) = Some v.
Proof.
  unfold array_get, array_set.
  destruct (i <? length a)%nat eqn:Hi.
  - apply Nat.ltb_lt in Hi. rewrite list_lookup_insert_eq; [reflexivity | exact Hi].
  - apply Nat.ltb_ge in Hi.
    rewrite lookup_app_r by exact Hi.
    rewrite lookup_app_r by (rewrite length_replicate; lia).
    rewrite length_replicate, Nat.sub_diag. reflexivity.
Qed.

Lemma array_get_set_ne {A} (i j : nat) (v : A) (a : array A) :
  i <> j -> array_get j (array_set i v a) = array_get j a.
Proof.
  intros Hne. unfold array_get, array_set.
  destruct (i <? length a)%nat eqn:Hi.
  - rewrite list_lookup_insert_ne by exact Hne. reflexivity.
  - apply Nat.ltb_ge in Hi.
    destruct (decide (j < length a)%nat) as [Hj|Hj].
    + rewrite lookup_app_l by exact Hj. reflexivity.
    + rewrite (lookup_ge_None_2 a j) by lia.
      rewrite lookup_app_r by lia.
      destruct (decide (j - length a < i - length a)%nat) as [Hk|Hk].
      * rewrite lookup_app_l by (rewrite length_replicate; lia).
        rewrite lookup_replicate_2 by lia. reflexivity.
      * rewrite lookup_app_r by (rewrite length_replicate; lia).
        rewrite length_replicate.
        destruct (j - length a - (i - length a))%nat as [|k] eqn:Hk'; [lia|].
        reflexivity.
Qed.

(** ** Questions and their points *)

Lemma management_current_has_points (st : ManagementPage.state) (q : nat) :
  ManagementPage.current_id st = Some q ->
  exists qn, ManagementPage.find_question q = Some qn.
Proof.
  unfold ManagementPage.current_id.
  destruct (ManagementPage.currentQuestion st) as [|[|[|[|[|[|n]]]]]];
    cbn; intros [= <-]; eexists; reflexivity.
Qed.

Lemma ram_rendered_cases (q : nat) :
  CompetitiveCodingPage.rendered q = true ->
  q = 1%nat \/ q = 2%nat \/ q = 3%nat \/ q = 4%nat \/ q = 5%nat.
Proof.
  unfold CompetitiveCodingPage.rendered. intros H.
  apply bool_decide_eq_true in H. cbn in H.
  repeat (apply elem_of_cons in H as [H|H]; [auto 6|]).
  by apply elem_of_nil in H.
Qed.

Lemma ram_rendered_has_points (q : nat) :
  CompetitiveCodingPage.rendered q = true ->
  exists qn, CompetitiveCodingPage.find_question q = Some qn.
Proof.
  intros H. apply ram_rendered_cases in H.
  destruct H as [->|[->|[->|[->| ->]]]]; eexists; reflexivity.
Qed.

Lemma bool_decide_union_same (q : nat) (S : gset nat) :
  bool_decide (q ∈ S ∪ {[q]}) = true.
Proof. apply bool_decide_eq_true. set_solver. Qed.

Lemma bool_decide_union_other (q q' : nat) (S : gset nat) :
  q' <> q -> bool_decide (q' ∈ S ∪ {[q]}) = bool_decide (q' ∈ S).
Proof.
  intros Hne. apply bool_decide_ext.
  rewrite elem_of_union, elem_of_singleton. intuition congruence.
Qed.

Lemma ram_submitted_insert_same (q : nat) (st : CompetitiveCodingPage.state) a t l :
  CompetitiveCodingPage.submitted q
    {| CompetitiveCodingPage.answers := a;
       CompetitiveCodingPage.activeQuestion := l;
       CompetitiveCodingPage.totalScore := t;
       CompetitiveCodingPage.submissions :=
         <[q := true]> (CompetitiveCodingPage.submissions st) |} = true.
Proof. unfold CompetitiveCodingPage.submitted. simpl. by rewrite lookup_insert_eq. Qed.

Lemma ram_submitted_insert_other (q q' : nat) (st : CompetitiveCodingPage.state) a t l :
  q' <> q ->
  CompetitiveCodingPage.submitted q'
    {| CompetitiveCodingPage.answers := a;
       CompetitiveCodingPage.activeQuestion := l;
       CompetitiveCodingPage.totalScore := t;
       CompetitiveCodingPage.submissions :=
         <[q := true]> (CompetitiveCodingPage.submissions st) |}
  = CompetitiveCodingPage.submitted q' st.
Proof.
  intros Hne. unfold CompetitiveCodingPage.submitted. simpl.
  by rewrite lookup_insert_ne.
Qed.

(** C1, as the claim states it, fails on the management page: question 1
    holds the non-blank answer "cache", its PROCESS button is wired and
    enabled, the question is worth 10 points, and the submit handler
    returns the state unchanged, the score still 0. *)
Lemma short_management_answer_scores_nothing :
  let st := ManagementPage.handleAnswerChange 1 (lit "cache") ManagementPage.init in
  wired Management 1 st = true
  /\ answer_filled Management 1 st = true
  /\ ManagementPage.submit_disabled 1 st = false
  /\ points Management 1 = Some 10
  /\ submit Management 1 st = Some st
  /\ ManagementPage.totalScore st = 0
  /\ ManagementPage.totalScore (ManagementPage.submitAnswer 1 st)
     <> ManagementPage.totalScore st + 10.
Proof. vm_compute. repeat split; congruence. Qed.

(** C1, amended. On every quiz page, for every question the page has a
    submit control for, when every answer field of the question has a
    character that is not white space (on the management page: when the
    trimmed answer has more than 10 characters), the submit handler
    returns a state in which, on the pages that keep a submission record,
    the question is marked and the marks of the other questions are as
    before, and from which a second submit leaves every mark as it is;
    on the pages that keep a score, the score has grown by the point
    value of the question.  Question 1 of the management list is worth 10
    points. *)
Theorem filled_submit_marks_once_and_scores
    (p : page) (q : nat) (st : page_state p) :
  wired p q st = true ->
  answer_filled p q st = true ->
  (p = Management ->
   Forall (fun t => (10 < length (trim t))%nat) (answer_fields p q st)) ->
  exists st',
    submit p q st = Some st'
    /\ marked p q st' = (fun _ => true) <$> marked p q st
    /\ (forall q', q' <> q -> marked p q' st' = marked p q' st)
    /\ (exists st'', submit p q st' = Some st''
                     /\ forall q', marked p q' st'' = marked p q' st')
    /\ (forall s, score p st = Some s ->
        exists pts, points p q = Some pts /\ score p st' = Some (s + pts))
    /\ points Management 1 = Some 10.
Proof.
  unfold answer_filled.
  destruct p; simpl in *; intros Hw Hf Hlong; rewrite ?andb_true_r in Hf.
  - (* management *)
    apply bool_decide_eq_true in Hw.
    destruct (management_current_has_points st q Hw) as [qn Hqn].
    apply negb_true_iff, filled_or_empty in Hf as (a & Ha & Hoe & Ht).
    specialize (Hlong eq_refl). apply Forall_cons in Hlong as [Hlen _].
    rewrite Hoe in Hlen. apply Nat.ltb_lt in Hlen.
    assert (Hta : truthy a = true) by (destruct a; [discriminate Ht | reflexivity]).
    unfold ManagementPage.submitAnswer. simpl. rewrite Ha, Hta, Hlen, Hqn. simpl.
    eexists. split; [reflexivity|].
    refine (conj _ (conj _ (conj _ (conj _ _)))); try reflexivity.
    + eexists. split; reflexivity.
    + intros s [= <-]. exists (ManagementPage.points qn). auto.
  - (* design *)
    apply negb_true_iff, filled_or_empty in Hf as (a & Ha & _ & Ht).
    unfold DesignPage.handleSubmitAnswer. simpl. rewrite Ha. simpl. rewrite Ht.
    eexists. split; [reflexivity|]. simpl.
    refine (conj _ (conj _ (conj _ (conj _ _)))); try reflexivity; try discriminate.
    + f_equal. apply bool_decide_union_same.
    + intros q' Hne. f_equal. by apply bool_decide_union_other.
    + unfold DesignPage.handleSubmitAnswer. simpl. rewrite Ha. simpl. rewrite Ht.
      eexists. split; [reflexivity|].
      intros q'. simpl. f_equal. apply bool_decide_ext.
      rewrite !elem_of_union, elem_of_singleton. tauto.
  - (* research *)
    apply negb_true_iff, filled_or_empty in Hf as (a & Ha & _ & Ht).
    unfold ResearchPage.handleSubmitAnswer. simpl. rewrite Ha. simpl. rewrite Ht.
    eexists. split; [reflexivity|]. simpl.
    refine (conj _ (conj _ (conj _ (conj _ _)))); try reflexivity; try discriminate.
    + f_equal. apply bool_decide_union_same.
    + intros q' Hne. f_equal. by apply bool_decide_union_other.
    + unfold ResearchPage.handleSubmitAnswer. simpl. rewrite Ha. simpl. rewrite Ht.
      eexists. split; [reflexivity|].
      intros q'. simpl. f_equal. apply bool_decide_ext.
      rewrite !elem_of_union, elem_of_singleton. tauto.
  - (* tech *)
    apply negb_true_iff, filled_or_empty in Hf as (a & Ha & _ & Ht).
    unfold TechPage.handleSubmitAnswer. simpl. rewrite Ha. simpl. rewrite Ht.
    eexists. split; [reflexivity|]. simpl.
    refine (conj _ (conj _ (conj _ (conj _ _)))); try reflexivity; try discriminate.
    + f_equal. apply bool_decide_union_same.
    + intros q' Hne. f_equal. by apply bool_decide_union_other.
    + unfold TechPage.handleSubmitAnswer. simpl. rewrite Ha. simpl. rewrite Ht.
      eexists. split; [reflexivity|].
      intros q'. simpl. f_equal. apply bool_decide_ext.
      rewrite !elem_of_union, elem_of_singleton. tauto.
  - (* RAM competitive coding *)
    destruct (ram_rendered_has_points q Hw) as [qn Hqn].
    apply andb_prop in Hf as [Hc He].
    apply negb_true_iff, filled_or_empty in Hc as (c & Hc & _ & Htc).
    apply negb_true_iff, filled_or_empty in He as (e & He & _ & Hte).
    destruct (CompetitiveCodingPage.answers st !! q) as [a|] eqn:Ha;
      [|discriminate Hc].
    simpl in Hc, He. injection Hc as <-. injection He as <-.
    unfold CompetitiveCodingPage.submitAnswer. simpl.
    rewrite Ha. simpl. rewrite Htc, Hte, Hqn. simpl.
    eexists. split; [reflexivity|].
    refine (conj _ (conj _ (conj _ (conj _ _)))); try reflexivity.
    + f_equal. apply ram_submitted_insert_same.
    + intros q' Hne. f_equal. by apply ram_submitted_insert_other.
    + unfold CompetitiveCodingPage.submitAnswer. simpl.
      rewrite Ha. simpl. rewrite Htc, Hte. simpl.
      eexists. split; [reflexivity|].
      intros q'. f_equal. unfold CompetitiveCodingPage.submitted. simpl.
      by rewrite insert_insert_eq.
    + intros s [= <-]. exists (CompetitiveCodingPage.points qn). auto.
  - (* second competitive coding page *)
    apply andb_prop in Hw as [Hq _]. apply Nat.eqb_eq in Hq.
    destruct (array_get q (CompetitiveCoding.solutions st)) as [sol|] eqn:Hsol;
      [|discriminate Hf].
    simpl in Hf. rewrite andb_true_r in Hf. apply negb_true_iff in Hf.
    unfold CompetitiveCoding.handleSubmit. simpl.
    rewrite Hq, Hsol, truthy_trim, Hf. simpl.
    eexists. split; [reflexivity|].
    refine (conj _ (conj _ (conj _ (conj _ _)))); try reflexivity; try discriminate.
    + f_equal. unfold CompetitiveCoding.submitted. simpl.
      by rewrite array_get_set_eq.
    + intros q' Hne. f_equal. unfold CompetitiveCoding.submitted. simpl.
      by rewrite array_get_set_ne.
    + unfold CompetitiveCoding.handleSubmit. simpl.
      rewrite Hsol, truthy_trim, Hf. simpl.
      eexists. split; [reflexivity|].
      intros q'. f_equal. unfold CompetitiveCoding.submitted. simpl.
      destruct (decide (q = q')) as [<-|Hne].
      * by rewrite !array_get_set_eq.
      * by rewrite !array_get_set_ne.
Qed.

Lemma filled_submit_marks_once_and_scores_witness :
  let st := ManagementPage.handleAnswerChange 1 (lit "fetch, decode, execute")
              ManagementPage.init in
  exists st', submit Management 1 st = Some st' /\ score Management st' = Some 10.
Proof.
  intros st.
  destruct (filled_submit_marks_once_and_scores Management 1 st)
    as (st' & Hs & _ & _ & _ & Hscore & _).
  - vm_compute; reflexivity.
  - vm_compute; reflexivity.
  - intros _. constructor; [vm_compute; lia | constructor].
  - exists st'. split; [exact Hs|].
    destruct (Hscore 0 eq_refl) as (pts & Hp & Hsc).
    vm_compute in Hp. injection Hp as <-. exact Hsc.
Defined.

(** ** Submission is final on the design, research and tech pages *)

Ltac frozen_step :=
  match goal with
  | |- context [if ?b then _ else _] => destruct b eqn:?
  end.

Lemma design_step_frozen (e : DesignPage.event) (st : DesignPage.state) :
  DesignPage.submittedQuestions st ⊆ DesignPage.submittedQuestions (DesignPage.step e st)
  /\ forall q, q ∈ DesignPage.submittedQuestions st ->
       DesignPage.answers (DesignPage.step e st) !! q = DesignPage.answers st !! q.
Proof.
  destruct e as [q0 v|q0]; simpl.
  - frozen_step; [|split; [reflexivity | auto]].
    apply andb_prop in Heqb as [_ Hen]. apply negb_true_iff in Hen.
    apply bool_decide_eq_false in Hen.
    split; [reflexivity|]. intros q Hq. simpl.
    apply lookup_insert_ne. congruence.
  - frozen_step; [|split; [reflexivity | auto]].
    unfold DesignPage.handleSubmitAnswer. frozen_step; simpl.
    + split; [apply union_subseteq_l | auto].
    + split; [reflexivity | auto].
Qed.

Lemma research_step_frozen (e : ResearchPage.event) (st : ResearchPage.state) :
  ResearchPage.submittedQuestions st
    ⊆ ResearchPage.submittedQuestions (ResearchPage.step e st)
  /\ forall q, q ∈ ResearchPage.submittedQuestions st ->
       ResearchPage.answers (ResearchPage.step e st) !! q = ResearchPage.answers st !! q.
Proof.
  destruct e as [q0 v|q0]; simpl.
  - frozen_step; [|split; [reflexivity | auto]].
    apply andb_prop in Heqb as [_ Hen]. apply negb_true_iff in Hen.
    apply bool_decide_eq_false in Hen.
    split; [reflexivity|]. intros q Hq. simpl.
    apply lookup_insert_ne. congruence.
  - frozen_step; [|split; [reflexivity | auto]].
    unfold ResearchPage.handleSubmitAnswer. frozen_step; simpl.
    + split; [apply union_subseteq_l | auto].
    + split; [reflexivity | auto].
Qed.

Lemma tech_step_frozen (e : TechPage.event) (st : TechPage.state) :
  TechPage.submittedQuestions st ⊆ TechPage.submittedQuestions (TechPage.step e st)
  /\ forall q, q ∈ TechPage.submittedQuestions st ->
       TechPage.answers (TechPage.step e st) !! q = TechPage.answers st !! q.
Proof.
  destruct e as [q0 v|q0]; simpl.
  - frozen_step; [|split; [reflexivity | auto]].
    apply andb_prop in Heqb as [_ Hen]. apply negb_true_iff in Hen.
    apply bool_decide_eq_false in Hen.
    split; [reflexivity|]. intros q Hq. simpl.
    apply lookup_insert_ne. congruence.
  - frozen_step; [|split; [reflexivity | auto]].
    unfold TechPage.handleSubmitAnswer. frozen_step; simpl.
    + split; [apply union_subseteq_l | auto].
    + split; [reflexivity | auto].
Qed.

Lemma design_run_frozen (evs : list DesignPage.event) (st : DesignPage.state) :
  DesignPage.submittedQuestions st ⊆ DesignPage.submittedQuestions (DesignPage.run evs st)
  /\ forall q, q ∈ DesignPage.submittedQuestions st ->
       DesignPage.answers (DesignPage.run evs st) !! q = DesignPage.answers st !! q.
Proof.
  revert st. induction evs as [|e evs IH]; intros st; simpl.
  - split; [reflexivity | auto].
  - destruct (design_step_frozen e st) as [Hs Ha].
    destruct (IH (DesignPage.step e st)) as [Hs' Ha'].
    split; [etrans; eassumption|].
    intros q Hq. rewrite Ha' by (apply Hs, Hq). auto.
Qed.

Lemma research_run_frozen (evs : list ResearchPage.event) (st : ResearchPage.state) :
  ResearchPage.submittedQuestions st
    ⊆ ResearchPage.submittedQuestions (ResearchPage.run evs st)
  /\ forall q, q ∈ ResearchPage.submittedQuestions st ->
       ResearchPage.answers (ResearchPage.run evs st) !! q = ResearchPage.answers st !! q.
Proof.
  revert st. induction evs as [|e evs IH]; intros st; simpl.
  - split; [reflexivity | auto].
  - destruct (research_step_frozen e st) as [Hs Ha].
    destruct (IH (ResearchPage.step e st)) as [Hs' Ha'].
    split; [etrans; eassumption|].
    intros q Hq. rewrite Ha' by (apply Hs, Hq). auto.
Qed.

Lemma tech_run_frozen (evs : list TechPage.event) (st : TechPage.state) :
  TechPage.submittedQuestions st ⊆ TechPage.submittedQuestions (TechPage.run evs st)
  /\ forall q, q ∈ TechPage.submittedQuestions st ->
       TechPage.answers (TechPage.run evs st) !! q = TechPage.answers st !! q.
Proof.
  revert st. induction evs as [|e evs IH]; intros st; simpl.
  - split; [reflexivity | auto].
  - destruct (tech_step_frozen e st) as [Hs Ha].
    destruct (IH (TechPage.step e st)) as [Hs' Ha'].
    split; [etrans; eassumption|].
    intros q Hq. rewrite Ha' by (apply Hs, Hq). auto.
Qed.

(** C8. On the design, research and tech pages, whatever the user does
    next (typing into any textarea, clicking any submit button), the set
    of submitted questions only grows, and for a question that is in it
    the textarea and the submit button are disabled and the stored answer
    text stays what it was. *)
Theorem submission_is_final :
  (forall (evs : list DesignPage.event) (st : DesignPage.state) (q : nat),
      q ∈ DesignPage.submittedQuestions st ->
      let st' := DesignPage.run evs st in
      DesignPage.submittedQuestions st ⊆ DesignPage.submittedQuestions st'
      /\ q ∈ DesignPage.submittedQuestions st'
      /\ DesignPage.textarea_disabled q st' = true
      /\ DesignPage.submit_disabled q st' = true
      /\ DesignPage.answers st' !! q = DesignPage.answers st !! q)
  /\ (forall (evs : list ResearchPage.event) (st : ResearchPage.state) (q : nat),
      q ∈ ResearchPage.submittedQuestions st ->
      let st' := ResearchPage.run evs st in
      ResearchPage.submittedQuestions st ⊆ ResearchPage.submittedQuestions st'
      /\ q ∈ ResearchPage.submittedQuestions st'
      /\ ResearchPage.textarea_disabled q st' = true
      /\ ResearchPage.submit_disabled q st' = true
      /\ ResearchPage.answers st' !! q = ResearchPage.answers st !! q)
  /\ (forall (evs : list TechPage.event) (st : TechPage.state) (q : nat),
      q ∈ TechPage.submittedQuestions st ->
      let st' := TechPage.run evs st in
      TechPage.submittedQuestions st ⊆ TechPage.submittedQuestions st'
      /\ q ∈ TechPage.submittedQuestions st'
      /\ TechPage.textarea_disabled q st' = true
      /\ TechPage.submit_disabled q st' = true
      /\ TechPage.answers st' !! q = TechPage.answers st !! q).
Proof.
  split; [|split]; intros evs st q Hq st'; subst st'.
  - destruct (design_run_frozen evs st) as [Hs Ha].
    assert (Hq' := Hs q Hq).
    unfold DesignPage.textarea_disabled, DesignPage.submit_disabled.
    rewrite (bool_decide_eq_true_2 _ Hq'), orb_true_r.
    refine (conj Hs (conj Hq' (conj eq_refl (conj eq_refl (Ha q Hq))))).
  - destruct (research_run_frozen evs st) as [Hs Ha].
    assert (Hq' := Hs q Hq).
    unfold ResearchPage.textarea_disabled, ResearchPage.submit_disabled.
    rewrite (bool_decide_eq_true_2 _ Hq'), orb_true_r.
    refine (conj Hs (conj Hq' (conj eq_refl (conj eq_refl (Ha q Hq))))).
  - destruct (tech_run_frozen evs st) as [Hs Ha].
    assert (Hq' := Hs q Hq).
    unfold TechPage.textarea_disabled, TechPage.submit_disabled.
    rewrite (bool_decide_eq_true_2 _ Hq'), orb_true_r.
    refine (conj Hs (conj Hq' (conj eq_refl (conj eq_refl (Ha q Hq))))).
Qed.

Lemma submission_is_final_witness :
  let st := DesignPage.run
              [DesignPage.Type_ 2 (lit "mobile first"); DesignPage.ClickSubmit 2]
              DesignPage.init in
  let st' := DesignPage.run
               [DesignPage.Type_ 2 (lit "rewritten"); DesignPage.ClickSubmit 2;
                DesignPage.Type_ 3 (lit "contrast")] st in
  DesignPage.answers st' !! 2%nat = Some (lit "mobile first")
  /\ DesignPage.submit_disabled 2 st' = true.
Proof.
  intros st st'.
  destruct (proj1 submission_is_final
              [DesignPage.Type_ 2 (lit "rewritten"); DesignPage.ClickSubmit 2;
               DesignPage.Type_ 3 (lit "contrast")] st 2%nat)
    as (_ & _ & _ & Hd & Ha).
  - apply (bool_decide_unpack _). vm_compute. exact I.
  - split; [|exact Hd]. fold st' in Ha. rewrite Ha. vm_compute. reflexivity.
Defined.

(** ** Score and submissions on the RAM competitive-coding page *)

Lemma ram_points_insert (q : nat) (qn : CompetitiveCodingPage.Question)
    (subs : gmap nat bool) :
  CompetitiveCodingPage.find_question q = Some qn ->
  subs !! q <> Some true ->
  CompetitiveCodingPage.submitted_points (<[q := true]> subs)
  = CompetitiveCodingPage.submitted_points subs + CompetitiveCodingPage.points qn.
Proof.
  intros Hfind Hfresh.
  destruct q as [|[|[|[|[|[|n]]]]]]; cbn in Hfind; try discriminate;
    injection Hfind as <-;
    unfold CompetitiveCodingPage.submitted_points; cbn;
    rewrite lookup_insert_eq, !lookup_insert_ne by lia;
    repeat match goal with
           | |- context [subs !! ?k] => destruct (subs !! k) as [[|]|]
           end;
    try congruence; lia.
Qed.

Lemma ram_step_invariant (e : CompetitiveCodingPage.event)
    (st : CompetitiveCodingPage.state) :
  CompetitiveCodingPage.score_invariant st -> CompetitiveCodingPage.score_invariant (CompetitiveCodingPage.step e st).
Proof.
  unfold CompetitiveCodingPage.score_invariant. intros Hinv.
  destruct e as [q f v|q|q]; simpl.
  - destruct (CompetitiveCodingPage.rendered q); exact Hinv.
  - destruct (CompetitiveCodingPage.rendered q) eqn:Hr; simpl; [|exact Hinv].
    destruct (CompetitiveCodingPage.submit_disabled q st) eqn:Hd; simpl; [exact Hinv|].
    unfold CompetitiveCodingPage.submitAnswer.
    destruct (CompetitiveCodingPage.answers st !! q) as [a|]; [|exact Hinv].
    destruct (truthy _ && truthy _); [|exact Hinv].
    destruct (ram_rendered_has_points q Hr) as [qn Hqn].
    simpl. rewrite Hqn, Hinv. symmetry. apply ram_points_insert; [exact Hqn|].
    unfold CompetitiveCodingPage.submit_disabled, CompetitiveCodingPage.submitted in Hd.
    intros Hs. rewrite Hs in Hd. discriminate.
  - destruct (CompetitiveCodingPage.rendered q); exact Hinv.
Qed.

Lemma ram_run_invariant (evs : list CompetitiveCodingPage.event)
    (st : CompetitiveCodingPage.state) :
  CompetitiveCodingPage.score_invariant st -> CompetitiveCodingPage.score_invariant (CompetitiveCodingPage.run evs st).
Proof.
  revert st. induction evs as [|e evs IH]; intros st Hinv; simpl; [exact Hinv|].
  apply IH, ram_step_invariant, Hinv.
Qed.

(** C10. On the RAM competitive-coding page the total score equals the sum
    of the point values of the questions marked in the submissions record
    after every sequence of user events from the initial state, and every
    single event keeps this invariant; an event changes the record or the
    score only if it is a click on the submit button of a question not
    yet submitted whose code and explanation both have a character that
    is not white space; once a question is submitted its submit button is
    disabled and clicking it changes nothing. *)
Theorem ram_score_is_sum_of_submitted_points :
  (forall evs : list CompetitiveCodingPage.event,
      CompetitiveCodingPage.score_invariant
        (CompetitiveCodingPage.run evs CompetitiveCodingPage.init))
  /\ (forall e st,
      CompetitiveCodingPage.score_invariant st ->
      CompetitiveCodingPage.score_invariant (CompetitiveCodingPage.step e st))
  /\ (forall e st,
      CompetitiveCodingPage.submissions (CompetitiveCodingPage.step e st)
        <> CompetitiveCodingPage.submissions st
      \/ CompetitiveCodingPage.totalScore (CompetitiveCodingPage.step e st)
           <> CompetitiveCodingPage.totalScore st ->
      exists q a,
        e = CompetitiveCodingPage.ClickSubmit q
        /\ CompetitiveCodingPage.submitted q st = false
        /\ CompetitiveCodingPage.answers st !! q = Some a
        /\ blank (CompetitiveCodingPage.code a) = false
        /\ blank (CompetitiveCodingPage.explanation a) = false)
  /\ (forall q st,
      CompetitiveCodingPage.submitted q st = true ->
      CompetitiveCodingPage.submit_disabled q st = true
      /\ CompetitiveCodingPage.step (CompetitiveCodingPage.ClickSubmit q) st = st).
Proof.
  refine (conj _ (conj ram_step_invariant (conj _ _))).
  - intros evs. apply ram_run_invariant. reflexivity.
  - intros e st Hchg.
    assert (Hsame : forall st0 : CompetitiveCodingPage.state,
               ~ (CompetitiveCodingPage.submissions st0
                    <> CompetitiveCodingPage.submissions st0
                  \/ CompetitiveCodingPage.totalScore st0
                       <> CompetitiveCodingPage.totalScore st0))
      by (intros st0 [H|H]; apply H; reflexivity).
    destruct e as [q f v|q|q]; simpl in Hchg.
    + destruct (CompetitiveCodingPage.rendered q); destruct (Hsame _ Hchg).
    + destruct (CompetitiveCodingPage.rendered q); simpl in Hchg;
        [|destruct (Hsame _ Hchg)].
      unfold CompetitiveCodingPage.submit_disabled in Hchg.
      destruct (CompetitiveCodingPage.submitted q st) eqn:Hsub; simpl in Hchg;
        [destruct (Hsame _ Hchg)|].
      unfold CompetitiveCodingPage.submitAnswer in Hchg.
      destruct (CompetitiveCodingPage.answers st !! q) as [a|] eqn:Ha;
        [|destruct (Hsame _ Hchg)].
      rewrite !truthy_trim in Hchg.
      destruct (blank (CompetitiveCodingPage.code a)) eqn:Hc;
        [destruct (Hsame _ Hchg)|].
      destruct (blank (CompetitiveCodingPage.explanation a)) eqn:He;
        [destruct (Hsame _ Hchg)|].
      exists q, a. auto.
    + destruct (CompetitiveCodingPage.rendered q); destruct (Hsame _ Hchg).
  - intros q st Hsub. split; [exact Hsub|].
    simpl. unfold CompetitiveCodingPage.submit_disabled. rewrite Hsub.
    rewrite andb_false_r. reflexivity.
Qed.

Lemma ram_score_is_sum_of_submitted_points_witness :
  let st := CompetitiveCodingPage.run
      [CompetitiveCodingPage.Type_ 3 CompetitiveCodingPage.Code (lit "x % 4");
       CompetitiveCodingPage.ClickSubmit 3;
       CompetitiveCodingPage.Type_ 3 CompetitiveCodingPage.Explanation (lit "banks");
       CompetitiveCodingPage.ClickSubmit 3;
       CompetitiveCodingPage.ClickSubmit 3]
      CompetitiveCodingPage.init in
  CompetitiveCodingPage.totalScore st = 300
  /\ CompetitiveCodingPage.submitted_points (CompetitiveCodingPage.submissions st) = 300.
Proof.
  intros st.
  assert (H := proj1 ram_score_is_sum_of_submitted_points
      [CompetitiveCodingPage.Type_ 3 CompetitiveCodingPage.Code (lit "x % 4");
       CompetitiveCodingPage.ClickSubmit 3;
       CompetitiveCodingPage.Type_ 3 CompetitiveCodingPage.Explanation (lit "banks");
       CompetitiveCodingPage.ClickSubmit 3;
       CompetitiveCodingPage.ClickSubmit 3]).
  fold st in H. unfold CompetitiveCodingPage.score_invariant in H.
  split; [|rewrite <- H]; vm_compute; reflexivity.
Defined.

(** ** Clicks on the board *)

(** C7. A click on a region calls the click handler it was given with the
    domain tag and the anchor position wired to that region, whatever the
    hover state of the region and whatever the state of the board: the
    handler logs these two arguments, aims the zoom at the position and
    arms the timer with the domain, the same for any two clicks. *)
Theorem click_resolves_fixed_wiring
    (PI : Q) (r : Board.region) (h1 h2 : bool)
    (w1 w2 : Board.state * Board.browser) :
  let p := Board.wiring r in
  let c1 := Board.click PI r h1 w1 in
  let c2 := Board.click PI r h2 w2 in
  (forall handler w,
      Board.onClick p h1 handler w = handler (Board.domain p) (Board.position p) w
      /\ Board.onClick p h2 handler w = Board.onClick p h1 handler w)
  /\ last (Board.console (snd c1)) = Some (Board.domain p, Board.position p)
  /\ last (Board.console (snd c2)) = last (Board.console (snd c1))
  /\ Board.zoomTarget (fst c1) = Some (Board.position p)
  /\ Board.zoomTarget (fst c2) = Board.zoomTarget (fst c1)
  /\ p = match r with
         | Board.PCISlots =>
             {| Board.domain := lit "design";
                Board.position := (-(45#10), 0, -1)%Q |}
         | Board.HeatsinkBlock =>
             {| Board.domain := lit "tech";
                Board.position := (16#10, 28#100, -(6#10))%Q |}
         | Board.CPUChip =>
             {| Board.domain := lit "management";
                Board.position := (36#10, 35#100, 1)%Q |}
         | Board.RAMSlots =>
             {| Board.domain := lit "competitive coding";
                Board.position := (-(15#10), 6#100, 5#10)%Q |}
         | Board.PCIESlots =>
             {| Board.domain := lit "research";
                Board.position := (0, 6#100, 2)%Q |}
         end.
Proof.
  intros p c1 c2. subst p c1 c2.
  destruct w1 as [st1 br1], w2 as [st2 br2].
  unfold Board.click, Board.onClick, Board.handleDomainClick. simpl.
  rewrite !last_snoc.
  refine (conj _ (conj eq_refl (conj eq_refl (conj eq_refl (conj eq_refl _))))).
  - intros handler w. split; reflexivity.
  - destruct r; reflexivity.
Qed.

(** ** The timer queue *)

Lemma insert_timer_length (t : Board.timer) (l : list Board.timer) :
  length (Board.insert_timer t l) = S (length l).
Proof.
  induction l as [|a l IH]; simpl; [reflexivity|].
  destruct (Board.due t <? Board.due a)%N; simpl; congruence.
Qed.

Lemma insert_timer_In (t t' : Board.timer) (l : list Board.timer) :
  In t' (Board.insert_timer t l) <-> t' = t \/ In t' l.
Proof.
  induction l as [|a l IH]; simpl; [intuition congruence|].
  destruct (Board.due t <? Board.due a)%N; simpl; [intuition congruence|].
  rewrite IH. intuition congruence.
Qed.




Lemma run_due_sorted (t : N) (l : list Board.timer) (loc : jsstring) :
  StronglySorted (fun a b => (Board.due a <= Board.due b)%N) l ->
  let l' := fst (Board.run_due t l loc) in
  StronglySorted (fun a b => (Board.due a <= Board.due b)%N) l'
  /\ Forall (fun tm => (t < Board.due tm)%N) l'
  /\ (forall tm, In tm l' -> In tm l).
Proof.
  intros Hs. revert loc.
  induction Hs as [|a l Hs IH Ha]; intros loc; simpl.
  - repeat split; [constructor | constructor | auto].
  - destruct (N.leb_spec (Board.due a) t) as [Hdue|Hdue].
    + destruct (IH (Board.route (Board.timer_domain a))) as (H1 & H2 & H3).
      repeat split; auto.
    + simpl. repeat split; [constructor; auto | | auto].
      constructor; [exact Hdue|].
      eapply Forall_impl; [exact Ha|]. simpl. intros; lia.
Qed.


Lemma elapse_timers (dt : N) (br : Board.browser) :
  Board.timers (Board.elapse dt br)
  = fst (Board.run_due (Board.now br + dt) (Board.timers br) (Board.location br)).
Proof. unfold Board.elapse. destruct (Board.run_due _ _ _). reflexivity. Qed.

Lemma elapse_location (dt : N) (br : Board.browser) :
  Board.location (Board.elapse dt br)
  = snd (Board.run_due (Board.now br + dt) (Board.timers br) (Board.location br)).
Proof. unfold Board.elapse. destruct (Board.run_due _ _ _). reflexivity. Qed.

Lemma elapse_now (dt : N) (br : Board.browser) :
  Board.now (Board.elapse dt br) = (Board.now br + dt)%N.
Proof. unfold Board.elapse. destruct (Board.run_due _ _ _). reflexivity. Qed.





Section Timers.

Variable PI : Q.



Lemma click_timers r h st br :
  Board.timers (snd (Board.click PI r h (st, br)))
  = Board.insert_timer
      {| Board.due := Board.now br + Board.duration (Board.isMobile st);
         Board.timer_domain := Board.domain (Board.wiring r) |}
      (Board.timers br).
Proof. reflexivity. Qed.


Lemma click_now r h st br :
  Board.now (snd (Board.click PI r h (st, br))) = Board.now br.
Proof. reflexivity. Qed.





End Timers.


(** ** A click and its timer *)

Lemma click_location (PI : Q) r h st br :
  Board.location (snd (Board.click PI r h (st, br))) = Board.location br.
Proof. reflexivity. Qed.

Lemma run_due_keeps_late (t : N) (tm : Board.timer) (l : list Board.timer)
    (loc : jsstring) :
  (t < Board.due tm)%N -> In tm l -> In tm (fst (Board.run_due t l loc)).
Proof.
  intros Hlate. revert loc. induction l as [|a l IH]; intros loc Hin; [destruct Hin|].
  simpl. destruct (N.leb_spec (Board.due a) t) as [Hdue|Hdue]; [|exact Hin].
  destruct Hin as [->|Hin]; [lia|]. apply IH, Hin.
Qed.

Lemma insert_timer_sorted (t : Board.timer) (l : list Board.timer) :
  StronglySorted (fun a b => (Board.due a <= Board.due b)%N) l ->
  StronglySorted (fun a b => (Board.due a <= Board.due b)%N) (Board.insert_timer t l).
Proof.
  induction 1 as [|a l Hs IH Ha]; simpl; [repeat constructor|].
  destruct (N.ltb_spec (Board.due t) (Board.due a)) as [Hlt|Hge].
  - constructor; [constructor; assumption|].
    constructor; [lia|]. eapply Forall_impl; [exact Ha|]. simpl. intros; lia.
  - constructor; [exact IH|].
    apply Forall_forall. intros b Hb.
    apply list_elem_of_In, insert_timer_In in Hb as [->|Hb]; [exact Hge|].
    rewrite Forall_forall in Ha. apply Ha, list_elem_of_In, Hb.
Qed.

(** C3. A click on a clickable region schedules one navigation: it puts
    one timer in the queue, due 2000 ms from now when the viewport is
    narrower than 768 pixels and 2500 ms otherwise, and leaves the
    location and the clock as they are.  The timer is pending for as long
    as less than the delay has passed, and in a queue that is in firing
    order it has fired once the delay has passed.  With no other timer
    pending the location stays what it was until the delay has passed and
    is from then on the route of the click: a slash and the domain tag
    with its space replaced by a hyphen, for each of the five regions a
    route of the application. *)
Theorem click_schedules_navigation
    (PI : Q) (r : Board.region) (hovered : bool)
    (st : Board.state) (br : Board.browser) :
  let dom := Board.domain (Board.wiring r) in
  let d := Board.duration (Board.isMobile st) in
  let tm := {| Board.due := Board.now br + d; Board.timer_domain := dom |} in
  let br' := snd (Board.click PI r hovered (st, br)) in
  (Board.timers br' = Board.insert_timer tm (Board.timers br)
   /\ In tm (Board.timers br')
   /\ length (Board.timers br') = S (length (Board.timers br))
   /\ Board.now br' = Board.now br
   /\ Board.location br' = Board.location br)
  /\ (forall dt, (dt < d)%N -> In tm (Board.timers (Board.elapse dt br')))
  /\ (StronglySorted (fun a b => (Board.due a <= Board.due b)%N) (Board.timers br) ->
      forall dt, (d <= dt)%N -> ~ In tm (Board.timers (Board.elapse dt br')))
  /\ (Board.timers br = [] ->
      forall dt,
        ((dt < d)%N ->
         Board.timers (Board.elapse dt br') = [tm]
         /\ Board.location (Board.elapse dt br') = Board.location br)
        /\ ((d <= dt)%N ->
            Board.timers (Board.elapse dt br') = []
            /\ Board.location (Board.elapse dt br') = Board.route dom))
  /\ (d = if Board.isMobile st then 2000%N else 2500%N)
  /\ (forall innerWidth : Z,
        Board.duration (Board.isMobile (Board.checkMobile innerWidth st))
        = if (innerWidth <? 768)%Z then 2000%N else 2500%N)
  /\ (Board.duration true < Board.duration false)%N
  /\ Board.route dom = lit "/" ++ replace_first 32 45 dom
  /\ Board.route dom
     = match r with
       | Board.PCISlots => lit "/design"
       | Board.HeatsinkBlock => lit "/tech"
       | Board.CPUChip => lit "/management"
       | Board.RAMSlots => lit "/competitive-coding"
       | Board.PCIESlots => lit "/research"
       end
  /\ In (Board.route dom) App.routes.
Proof.
  intros dom d tm br'.
  assert (Ht : Board.timers br' = Board.insert_timer tm (Board.timers br))
    by apply click_timers.
  assert (Hn : Board.now br' = Board.now br) by apply click_now.
  assert (Hl : Board.location br' = Board.location br) by apply click_location.
  assert (Hin : In tm (Board.timers br')) by (rewrite Ht; apply insert_timer_In; auto).
  clearbody br'.
  split; [|split; [|split; [|split]]].
  - refine (conj Ht (conj Hin (conj _ (conj Hn Hl)))).
    rewrite Ht. apply insert_timer_length.
  - intros dt Hdt. rewrite elapse_timers.
    apply run_due_keeps_late; [rewrite Hn; simpl; lia | exact Hin].
  - intros Hsorted dt Hdt Hpending. rewrite elapse_timers, Ht in Hpending.
    destruct (run_due_sorted (Board.now br' + dt) (Board.insert_timer tm (Board.timers br))
                (Board.location br') (insert_timer_sorted tm _ Hsorted))
      as (_ & Hlate & _).
    rewrite Forall_forall in Hlate.
    apply list_elem_of_In, Hlate in Hpending. rewrite Hn in Hpending.
    simpl in Hpending. lia.
  - intros Hnil dt. rewrite elapse_timers, elapse_location, Ht, Hn, Hl, Hnil.
    simpl. split; intros Hdt.
    + destruct (N.leb_spec (Board.now br + d) (Board.now br + dt)); [lia|].
      split; reflexivity.
    + destruct (N.leb_spec (Board.now br + d) (Board.now br + dt)); [|lia].
      split; reflexivity.
  - refine (conj _ (conj _ (conj _ (conj eq_refl (conj _ _))))).
    + reflexivity.
    + intros w. simpl. destruct (w <? 768)%Z; reflexivity.
    + reflexivity.
    + destruct r; reflexivity.
    + destruct r; vm_compute; tauto.
Qed.

Lemma click_schedules_navigation_witness :
  let br := {| Board.now := 100; Board.timers := [];
               Board.location := lit "/"; Board.console := [] |} in
  let br' := snd (Board.click (355#113) Board.RAMSlots true (Board.init, br)) in
  Board.location (Board.elapse 2499 br') = lit "/"
  /\ Board.location (Board.elapse 2500 br') = lit "/competitive-coding".
Proof.
  intros br br'.
  destruct (click_schedules_navigation (355#113) Board.RAMSlots true Board.init br)
    as (_ & _ & _ & Halone & _).
  split.
  - apply (Halone eq_refl 2499%N). reflexivity.
  - apply (Halone eq_refl 2500%N). discriminate.
Defined.

(** ** Every action on the board and the timer queue *)




Lemma apply_isMobile (PI : Q) (o : Board.op) (w : Board.world) :
  Board.isMobile (Board.w_state (Board.apply PI o w))
  = match o with
    | Board.OpResize innerWidth _ => (innerWidth <? 768)%Z
    | _ => Board.isMobile (Board.w_state w)
    end.
Proof.
  destruct w as [st sc br sz].
  destruct o as [r h| |e|cX cY| |iw sz'|dt]; cbn [Board.apply Board.w_state
    Board.w_scene Board.w_browser Board.w_size]; try reflexivity.
  - unfold Board.frame.
    destruct (Board.isDragging st); destruct (Board.group_rotation sc);
      destruct (Board.isZooming st);
      destruct (Board.zoomTarget st) as [[[zx zy] zz]|]; reflexivity.
  - unfold Board.handleMouseMove. destruct (Board.isDragging st); reflexivity.
  - destruct (Board.isDragging st); reflexivity.
Qed.

Lemma apply_all_cons (PI : Q) o ops (w : Board.world) :
  Board.apply_all PI (o :: ops) w = Board.apply_all PI ops (Board.apply PI o w).
Proof. reflexivity. Qed.

Lemma apply_all_app (PI : Q) ops ops' (w : Board.world) :
  Board.apply_all PI (ops ++ ops') w
  = Board.apply_all PI ops' (Board.apply_all PI ops w).
Proof. apply fold_left_app. Qed.




Lemma inputs_app (ops ops' : list Board.op) :
  Board.inputs (ops ++ ops') = Board.inputs ops ++ Board.inputs ops'.
Proof. apply omap_app. Qed.



(** ** The board at rest: frames without drag *)

Lemma decay_scalar (r t : Q) :
  (Qabs (r + (t - r) * (1#10)) + 2 * Qabs (t * (9#10))
   <= (19#20) * (Qabs r + 2 * Qabs t))%Q.
Proof.
  assert (Hr := proj1 (Qabs_Qle_condition r (Qabs r)) (Qle_refl _)).
  assert (Ht := proj1 (Qabs_Qle_condition t (Qabs t)) (Qle_refl _)).
  assert (H1 : (Qabs (r + (t - r) * (1#10)) <= (9#10) * Qabs r + (1#10) * Qabs t)%Q).
  { apply Qabs_Qle_condition. lra. }
  assert (H2 : (Qabs (t * (9#10)) <= (9#10) * Qabs t)%Q).
  { apply Qabs_Qle_condition. lra. }
  lra.
Qed.

Lemma damped_magnitude (t : Q) : (Qabs (t * (9#10)) <= Qabs t)%Q.
Proof.
  assert (Ht := proj1 (Qabs_Qle_condition t (Qabs t)) (Qle_refl _)).
  apply Qabs_Qle_condition. lra.
Qed.

Lemma tilt_nonneg (st : Board.state) : (0 <= Board.tilt st)%Q.
Proof.
  unfold Board.tilt.
  pose proof (Qabs_nonneg (Board.x (Board.rotation st))).
  pose proof (Qabs_nonneg (Board.y (Board.rotation st))).
  pose proof (Qabs_nonneg (Board.x (Board.targetRotation st))).
  pose proof (Qabs_nonneg (Board.y (Board.targetRotation st))).
  lra.
Qed.

Section Rest.

Variable PI : Q.

Local Open Scope Q_scope.

Lemma frame_rest st sc g :
  Board.isDragging st = false ->
  Board.group_rotation sc = Some g ->
  fst (Board.frame PI (st, sc))
  = {| Board.isDragging := Board.isDragging st;
       Board.dragStart := Board.dragStart st;
       Board.rotation :=
         {| Board.x := Board.x (Board.rotation st)
              + (Board.x (Board.targetRotation st) - Board.x (Board.rotation st))
                * (1#10);
            Board.y := Board.y (Board.rotation st)
              + (Board.y (Board.targetRotation st) - Board.y (Board.rotation st))
                * (1#10) |};
       Board.targetRotation :=
         {| Board.x := Board.x (Board.targetRotation st) * (9#10);
            Board.y := Board.y (Board.targetRotation st) * (9#10) |};
       Board.isZooming := Board.isZooming st;
       Board.zoomTarget := Board.zoomTarget st;
       Board.isMobile := Board.isMobile st |}
  /\ Board.group_rotation (snd (Board.frame PI (st, sc)))
     = Some (PI / 2 + Board.x (Board.rotation st), Board.y (Board.rotation st), 0).
Proof.
  intros Hd Hg. unfold Board.frame. rewrite Hd, Hg.
  destruct (Board.isZooming st); destruct (Board.zoomTarget st) as [[[zx zy] zz]|];
    split; reflexivity.
Qed.

Lemma frames_S n w : Board.frames PI (S n) w = Board.frame PI (Board.frames PI n w).
Proof.
  revert w. induction n as [|n IH]; intros w; [reflexivity|].
  change (Board.frames PI (S (S n)) w) with (Board.frames PI (S n) (Board.frame PI w)).
  rewrite IH. reflexivity.
Qed.

Lemma frames_rest n st sc g :
  Board.isDragging st = false ->
  Board.group_rotation sc = Some g ->
  Board.isDragging (fst (Board.frames PI n (st, sc))) = false
  /\ exists g', Board.group_rotation (snd (Board.frames PI n (st, sc))) = Some g'.
Proof.
  intros Hd Hg. induction n as [|n [IHd [g' IHg]]].
  - split; [exact Hd | exists g; exact Hg].
  - rewrite frames_S.
    destruct (Board.frames PI n (st, sc)) as [stn scn]. simpl in IHd, IHg.
    destruct (frame_rest stn scn g' IHd IHg) as [Hst Hgr].
    rewrite Hst, Hgr. simpl. split; [exact IHd | eexists; reflexivity].
Qed.

Lemma frame_contracts st sc g :
  Board.isDragging st = false ->
  Board.group_rotation sc = Some g ->
  Board.tilt (fst (Board.frame PI (st, sc))) <= (19#20) * Board.tilt st.
Proof.
  intros Hd Hg. destruct (frame_rest st sc g Hd Hg) as [-> _].
  unfold Board.tilt. cbn [Board.rotation Board.targetRotation Board.x Board.y].
  pose proof (decay_scalar (Board.x (Board.rotation st))
                (Board.x (Board.targetRotation st))).
  pose proof (decay_scalar (Board.y (Board.rotation st))
                (Board.y (Board.targetRotation st))).
  lra.
Qed.

Lemma frames_tilt_bound n st sc g :
  Board.isDragging st = false ->
  Board.group_rotation sc = Some g ->
  (19 + inject_Z (Z.of_nat n)) * Board.tilt (fst (Board.frames PI n (st, sc)))
  <= 19 * Board.tilt st.
Proof.
  intros Hd Hg. induction n as [|n IH].
  - change (inject_Z (Z.of_nat 0)) with 0. cbn [Board.frames fst]. lra.
  - rewrite frames_S.
    destruct (frames_rest n st sc g Hd Hg) as [Hdn [g' Hgn]].
    destruct (Board.frames PI n (st, sc)) as [stn scn]. cbn [fst snd] in *.
    pose proof (frame_contracts stn scn g' Hdn Hgn) as Hc.
    pose proof (tilt_nonneg stn) as H0.
    pose proof (tilt_nonneg (fst (Board.frame PI (stn, scn)))) as H1.
    assert (Hk : 0 <= inject_Z (Z.of_nat n)).
    { change 0 with (inject_Z 0). rewrite <- Zle_Qle. lia. }
    assert (HS : inject_Z (Z.of_nat (S n)) == inject_Z (Z.of_nat n) + 1).
    { rewrite Nat2Z.inj_succ. unfold Z.succ. rewrite inject_Z_plus. reflexivity. }
    rewrite HS.
    set (k := inject_Z (Z.of_nat n)) in *.
    set (T := Board.tilt stn) in *.
    set (T' := Board.tilt (fst (Board.frame PI (stn, scn)))) in *.
    assert (Hkt : 0 <= k * T) by (apply Qmult_le_0_compat; assumption).
    assert (Hstep : (19 + (k + 1)) * T' <= (19 + (k + 1)) * ((19#20) * T)).
    { apply Qmult_le_l; [lra | exact Hc]. }
    lra.
Qed.

Lemma frames_converge st sc g (eps : Q) :
  Board.isDragging st = false ->
  Board.group_rotation sc = Some g ->
  0 < eps ->
  exists N : nat, forall n, (N <= n)%nat ->
    Board.tilt (fst (Board.frames PI n (st, sc))) < eps.
Proof.
  intros Hd Hg Heps.
  destruct (Qarchimedean (19 * Board.tilt st / eps)) as [p Hp].
  exists (Pos.to_nat p). intros n Hn.
  pose proof (frames_tilt_bound n st sc g Hd Hg) as Hb.
  pose proof (tilt_nonneg (fst (Board.frames PI n (st, sc)))) as H0.
  set (T := Board.tilt (fst (Board.frames PI n (st, sc)))) in *.
  assert (Hk : inject_Z (Z.pos p) <= inject_Z (Z.of_nat n)).
  { rewrite <- Zle_Qle. lia. }
  assert (Hc : 19 * Board.tilt st < inject_Z (Z.pos p) * eps).
  { apply (Qmult_lt_r _ _ eps Heps) in Hp.
    assert (He : 19 * Board.tilt st / eps * eps == 19 * Board.tilt st)
      by (field; lra).
    rewrite He in Hp. exact Hp. }
  set (k := inject_Z (Z.of_nat n)) in *.
  assert (Hke : inject_Z (Z.pos p) * eps <= k * eps).
  { apply Qmult_le_compat_r; lra. }
  assert (Hp0 : 0 <= inject_Z (Z.pos p)).
  { change 0 with (inject_Z 0). rewrite <- Zle_Qle. lia. }
  apply (Qmult_lt_l _ _ (19 + k)); lra.
Qed.

End Rest.

(** C4. While no drag is in progress (and the group is mounted), one frame
    multiplies each component of the target rotation by 9/10, a factor
    below one, so that its magnitude does not grow, and moves each
    component of the rotation a tenth of the way to the target; the group
    is given the rotation of the frame before.  The distance from rest
    (rotation plus twice the target, both axes) shrinks by 19/20 or more
    per frame, and over frames every component of the rotation and of the
    target comes and stays as close to zero as one asks. *)
Theorem rest_frames_decay
    (PI : Q) (st : Board.state) (sc : Board.scene) (g : Board.vec3) :
  Board.isDragging st = false ->
  Board.group_rotation sc = Some g ->
  let st' := fst (Board.frame PI (st, sc)) in
  (Board.x (Board.targetRotation st') = Board.x (Board.targetRotation st) * (9#10)
   /\ Board.y (Board.targetRotation st') = Board.y (Board.targetRotation st) * (9#10)
   /\ (9#10) < 1)%Q
  /\ (Qabs (Board.x (Board.targetRotation st')) <= Qabs (Board.x (Board.targetRotation st))
      /\ Qabs (Board.y (Board.targetRotation st'))
         <= Qabs (Board.y (Board.targetRotation st)))%Q
  /\ (Board.x (Board.rotation st') - Board.x (Board.rotation st)
      == (Board.x (Board.targetRotation st) - Board.x (Board.rotation st)) * (1#10)
      /\ Board.y (Board.rotation st') - Board.y (Board.rotation st)
         == (Board.y (Board.targetRotation st) - Board.y (Board.rotation st)) * (1#10))%Q
  /\ Board.group_rotation (snd (Board.frame PI (st, sc)))
     = Some (PI / 2 + Board.x (Board.rotation st), Board.y (Board.rotation st), 0)%Q
  /\ (Board.tilt st' <= (19#20) * Board.tilt st)%Q
  /\ (forall eps : Q, (0 < eps)%Q ->
      exists N : nat, forall n, (N <= n)%nat ->
        let stn := fst (Board.frames PI n (st, sc)) in
        (Qabs (Board.x (Board.rotation stn)) < eps
         /\ Qabs (Board.y (Board.rotation stn)) < eps
         /\ Qabs (Board.x (Board.targetRotation stn)) < eps
         /\ Qabs (Board.y (Board.targetRotation stn)) < eps)%Q).
Proof.
  intros Hd Hg st'.
  pose proof (frame_contracts PI st sc g Hd Hg) as Hc.
  destruct (frame_rest PI st sc g Hd Hg) as [Hst Hgr].
  subst st'. rewrite Hst in *. cbn [Board.rotation Board.targetRotation Board.x Board.y].
  refine (conj (conj eq_refl (conj eq_refl eq_refl))
            (conj (conj (damped_magnitude _) (damped_magnitude _))
               (conj (conj _ _) (conj Hgr (conj Hc _))))).
  - ring.
  - ring.
  - intros eps Heps.
    destruct (frames_converge PI st sc g eps Hd Hg Heps) as [N HN].
    exists N. intros n Hn. specialize (HN n Hn).
    set (stn := fst (Board.frames PI n (st, sc))) in *.
    unfold Board.tilt in HN.
    pose proof (Qabs_nonneg (Board.x (Board.rotation stn))).
    pose proof (Qabs_nonneg (Board.y (Board.rotation stn))).
    pose proof (Qabs_nonneg (Board.x (Board.targetRotation stn))).
    pose proof (Qabs_nonneg (Board.y (Board.targetRotation stn))).
    repeat split; lra.
Qed.

Lemma rest_frames_decay_witness :
  let st := {| Board.isDragging := false;
               Board.dragStart := {| Board.x := 0; Board.y := 0 |};
               Board.rotation := {| Board.x := 0; Board.y := 0 |};
               Board.targetRotation := {| Board.x := 14#100; Board.y := 5#100 |};
               Board.isZooming := false;
               Board.zoomTarget := None;
               Board.isMobile := false |} in
  let sc := {| Board.group_rotation := Some (355#226, 0, 0)%Q;
               Board.camera_position := (0, 0, 20)%Q;
               Board.camera_lookAt := None |} in
  (Board.tilt (fst (Board.frame (355#113) (st, sc))) <= (19#20) * Board.tilt st)%Q.
Proof.
  intros st sc.
  destruct (rest_frames_decay (355#113) st sc (355#226, 0, 0)%Q eq_refl eq_refl)
    as (_ & _ & _ & _ & Hc & _).
  exact Hc.
Defined.

(** ** Dragging the board *)

Lemma clamp_range (v lo hi : Q) :
  (lo <= hi -> lo <= Board.clamp v lo hi <= hi)%Q.
Proof.
  intros Hle. unfold Board.clamp.
  destruct (Q.min_spec hi v) as [[Hc' Hmin]|[Hc' Hmin]];
    destruct (Q.max_spec lo (Qmin hi v)) as [[Hc Hmax]|[Hc Hmax]];
    rewrite Hmax; rewrite ?Hmin in *; lra.
Qed.

Lemma clamp_inside (v lo hi : Q) :
  (lo <= v <= hi -> Board.clamp v lo hi == v)%Q.
Proof.
  intros Hin. unfold Board.clamp.
  destruct (Q.min_spec hi v) as [[Hc' Hmin]|[Hc' Hmin]];
    destruct (Q.max_spec lo (Qmin hi v)) as [[Hc Hmax]|[Hc Hmax]];
    rewrite Hmax; rewrite ?Hmin in *; lra.
Qed.

Lemma maxRotation_degrees (PI : Q) : (Board.maxRotation PI == 20 * (PI / 180))%Q.
Proof. reflexivity. Qed.

Lemma maxRotation_pos (PI : Q) : (0 < PI -> 0 < Board.maxRotation PI)%Q.
Proof.
  intros Hpi. unfold Board.maxRotation, Board.degToRad, Board.DEG2RAD.
  change (PI / 180)%Q with (PI * (1#180))%Q. lra.
Qed.

(** C5. During a drag (the canvas having a positive size), a mouse move
    sets the rotation about the Y axis to twice the horizontal
    displacement of the pointer, and the rotation about the X axis to
    twice the vertical one, each clamped to plus or minus 20 degrees: the
    components stay in that range and equal twice the displacement when
    that is in the range; the target rotation and the group follow.  On
    release the drag ends and the target rotation is zero, and the next
    frame takes the rotation a tenth of the way back to rest. *)
Theorem drag_rotation_is_clamped
    (PI : Q) (size : Q * Q) (cX cY : Q)
    (st : Board.state) (sc : Board.scene) (g : Board.vec3) :
  (0 < PI)%Q -> (0 < fst size)%Q -> (0 < snd size)%Q ->
  Board.isDragging st = true ->
  Board.group_rotation sc = Some g ->
  let w' := Board.handleMouseMove PI size cX cY (st, sc) in
  let st' := fst w' in
  let deltaX := ((cX / fst size) * 2 - 1 - Board.x (Board.dragStart st))%Q in
  let deltaY := (- (cY / snd size) * 2 + 1 - Board.y (Board.dragStart st))%Q in
  let m := Board.maxRotation PI in
  (m == 20 * (PI / 180))%Q
  /\ Board.y (Board.rotation st') = Board.clamp (deltaX * 2) (- m) m
  /\ Board.x (Board.rotation st') = Board.clamp (deltaY * 2) (- m) m
  /\ (- m <= Board.x (Board.rotation st') <= m
      /\ - m <= Board.y (Board.rotation st') <= m)%Q
  /\ ((- m <= deltaX * 2 <= m)%Q -> (Board.y (Board.rotation st') == deltaX * 2)%Q)
  /\ ((- m <= deltaY * 2 <= m)%Q -> (Board.x (Board.rotation st') == deltaY * 2)%Q)
  /\ Board.targetRotation st' = Board.rotation st'
  /\ Board.group_rotation (snd w')
     = Some (PI / 2 + Board.x (Board.rotation st'), Board.y (Board.rotation st'), 0)%Q
  /\ (let up := Board.handleMouseUp st' in
      Board.isDragging up = false
      /\ Board.targetRotation up = {| Board.x := 0; Board.y := 0 |}
      /\ Board.rotation up = Board.rotation st'
      /\ let rest := fst (Board.frame PI (up, snd w')) in
         (Board.x (Board.rotation rest) == Board.x (Board.rotation st') * (9#10)
          /\ Board.y (Board.rotation rest) == Board.y (Board.rotation st') * (9#10)
          /\ Board.x (Board.targetRotation rest) == 0
          /\ Board.y (Board.targetRotation rest) == 0)%Q).
Proof.
  intros Hpi Hw Hh Hd Hg w' st' deltaX deltaY m.
  pose proof (maxRotation_pos PI Hpi) as Hm. fold m in Hm.
  assert (Hlohi : (- m <= m)%Q) by lra.
  subst w' st'. unfold Board.handleMouseMove. rewrite Hd, Hg.
  cbn [negb fst snd Board.rotation Board.targetRotation Board.x Board.y
       Board.dragStart Board.group_rotation].
  fold m. fold deltaX. fold deltaY.
  refine (conj (maxRotation_degrees PI) (conj eq_refl (conj eq_refl
            (conj (conj (clamp_range _ _ _ Hlohi) (clamp_range _ _ _ Hlohi))
               (conj (clamp_inside _ _ _) (conj (clamp_inside _ _ _)
                  (conj eq_refl (conj eq_refl _)))))))).
  cbn zeta.
  refine (conj eq_refl (conj eq_refl (conj eq_refl _))).
  match goal with
  | |- context [Board.frame PI (?u, ?s)] =>
      destruct (frame_rest PI u s (PI / 2 + Board.clamp (deltaY * 2) (- m) m,
                                    Board.clamp (deltaX * 2) (- m) m, 0)%Q
                  eq_refl eq_refl) as [-> _]
  end.
  cbn [Board.rotation Board.targetRotation Board.x Board.y Board.handleMouseUp].
  repeat split; ring.
Qed.

Lemma drag_rotation_is_clamped_witness :
  let size := (800, 600)%Q in
  let down := {| Board.clientX := Some 400%Q; Board.clientY := Some 300%Q;
                 Board.touches := None |} in
  let st := Board.handlePointerDown size down Board.init in
  let sc := {| Board.group_rotation := Some (355#226, 0, 0)%Q;
               Board.camera_position := (0, 0, 20)%Q;
               Board.camera_lookAt := None |} in
  let st' := fst (Board.handleMouseMove (355#113) size 500 310 (st, sc)) in
  (Board.y (Board.rotation st') <= Board.maxRotation (355#113)
   /\ Board.x (Board.rotation st') == -(1#15))%Q.
Proof.
  intros size down st sc st'.
  destruct (drag_rotation_is_clamped (355#113) size 500 310 st sc (355#226, 0, 0)%Q)
    as (_ & _ & _ & [_ [_ Hy]] & _ & Hx & _); try reflexivity.
  split; [exact Hy|].
  fold st' in Hx. rewrite Hx; [vm_compute; reflexivity|].
  vm_compute. split; discriminate.
Defined.


(** ** Reachable states *)

Lemma management_current_in_range (e : ManagementPage.event)
    (st : ManagementPage.state) :
  (ManagementPage.currentQuestion st < length ManagementPage.managementQuestions)%nat ->
  (ManagementPage.currentQuestion (ManagementPage.step e st)
   < length ManagementPage.managementQuestions)%nat.
Proof.
  intros Hlt. destruct e as [v| | | |index]; simpl in *.
  - destruct (ManagementPage.current_id st); exact Hlt.
  - destruct (ManagementPage.current_id st) as [q|]; [|exact Hlt].
    destruct (ManagementPage.submit_disabled q st); [exact Hlt|].
    unfold ManagementPage.submitAnswer.
    destruct (ManagementPage.answers st !! q); [|exact Hlt].
    destruct (_ && _); [|exact Hlt].
    destruct (ManagementPage.find_question q); exact Hlt.
  - destruct (ManagementPage.currentQuestion st =? 5)%nat eqn:He; [exact Hlt|].
    apply Nat.eqb_neq in He. unfold ManagementPage.nextQuestion. simpl.
    destruct (ManagementPage.currentQuestion st <? 5)%nat; simpl; lia.
  - destruct (ManagementPage.currentQuestion st =? 0)%nat; [exact Hlt|].
    unfold ManagementPage.prevQuestion.
    destruct (0 <? ManagementPage.currentQuestion st)%nat; simpl; lia.
  - destruct (Nat.ltb_spec index 6); simpl; lia.
Qed.

Lemma array_get_filled {A} (i : nat) (a : list (option A)) :
  (i < length a)%nat -> Forall is_Some a -> is_Some (array_get i a).
Proof.
  intros Hi Ha. unfold array_get.
  destruct (lookup_lt_is_Some_2 a i Hi) as [o Ho]. rewrite Ho.
  rewrite Forall_lookup in Ha. destruct (Ha i o Ho) as [v ->]. eexists; reflexivity.
Qed.

Lemma array_set_filled {A} (i : nat) (v : A) (a : list (option A)) :
  (i < length a)%nat -> Forall is_Some a ->
  length (array_set i v a) = length a /\ Forall is_Some (array_set i v a).
Proof.
  intros Hi Ha. unfold array_set.
  destruct (Nat.ltb_spec i (length a)); [|lia].
  split; [apply length_insert|].
  apply Forall_insert; [exact Ha | eexists; reflexivity].
Qed.

(** On the second competitive-coding page neither rendering nor a handler
    throws in a state the page can reach. *)
Lemma coding_step_defined (e : CompetitiveCoding.event)
    (st : CompetitiveCoding.state) :
  CompetitiveCoding.well_formed st ->
  exists st', CompetitiveCoding.step e st = Some st'
              /\ CompetitiveCoding.well_formed st'.
Proof.
  intros (Hc & Hl & Hs & Hl' & Hs').
  assert (Hget : is_Some (array_get (CompetitiveCoding.currentProblem st)
                            (CompetitiveCoding.solutions st)))
    by (apply array_get_filled; [rewrite Hl; exact Hc | exact Hs]).
  destruct Hget as [sol Hsol].
  unfold CompetitiveCoding.step. rewrite Hsol.
  assert (Hwf : CompetitiveCoding.well_formed st) by (repeat split; assumption).
  destruct e as [v| |index].
  - destruct (CompetitiveCoding.submitted _ st); [eauto|].
    eexists. split; [reflexivity|].
    destruct (array_set_filled (CompetitiveCoding.currentProblem st) v
                (CompetitiveCoding.solutions st)) as [Hlen Hall];
      [rewrite Hl; exact Hc | exact Hs |].
    unfold CompetitiveCoding.well_formed. simpl. rewrite Hlen. auto.
  - destruct (negb (truthy (trim sol)) || CompetitiveCoding.submitted _ st) eqn:Hg;
      [eauto|].
    unfold CompetitiveCoding.handleSubmit. rewrite Hsol.
    apply orb_false_elim in Hg as [Ht _]. apply negb_false_iff in Ht. rewrite Ht.
    eexists. split; [reflexivity|].
    destruct (array_set_filled (CompetitiveCoding.currentProblem st) true
                (CompetitiveCoding.submittedProblems st)) as [Hlen Hall];
      [rewrite Hl'; exact Hc | exact Hs' |].
    unfold CompetitiveCoding.well_formed. simpl. rewrite Hlen. auto.
  - eexists. split; [reflexivity|].
    destruct (Nat.ltb_spec index (length CompetitiveCoding.problems)); [|exact Hwf].
    unfold CompetitiveCoding.well_formed. simpl. auto.
Qed.

Lemma coding_init_well_formed : CompetitiveCoding.well_formed CompetitiveCoding.init.
Proof.
  unfold CompetitiveCoding.well_formed. simpl.
  repeat split; try lia; repeat constructor; eexists; reflexivity.
Qed.

(** * Further properties of the code *)

(** ** Management page: score and navigation *)

Lemma management_process_step (st : ManagementPage.state) (q : nat)
    (a : jsstring) (qn : ManagementPage.Question) :
  ManagementPage.current_id st = Some q ->
  ManagementPage.answers st !! q = Some a ->
  (10 < length (trim a))%nat ->
  ManagementPage.find_question q = Some qn ->
  ManagementPage.step ManagementPage.ClickProcess st
  = {| ManagementPage.answers := ManagementPage.answers st;
       ManagementPage.currentQuestion := ManagementPage.currentQuestion st;
       ManagementPage.totalScore :=
         ManagementPage.totalScore st + ManagementPage.points qn |}.
Proof.
  intros Hcur Ha Hlen Hqn. simpl. rewrite Hcur.
  assert (Ht : truthy (trim a) = true)
    by (destruct (trim a); [simpl in Hlen; lia | reflexivity]).
  assert (Hta : truthy a = true).
  { destruct a; [|reflexivity]. discriminate Ht. }
  unfold ManagementPage.submit_disabled, ManagementPage.submitAnswer.
  rewrite Ha. simpl. rewrite Ht, Hta. simpl.
  apply Nat.ltb_lt in Hlen. rewrite Hlen, Hqn. reflexivity.
Qed.

(** X1. The management page has no record of what was processed: with
    the current question holding an answer of more than 10 characters
    after trimming, [n] clicks on PROCESS add the points of the question
    [n] times, and change nothing else. *)
Theorem management_process_adds_every_time
    (n : nat) (st : ManagementPage.state) (q : nat) (a : jsstring) :
  ManagementPage.current_id st = Some q ->
  ManagementPage.answers st !! q = Some a ->
  (10 < length (trim a))%nat ->
  let st' := ManagementPage.run (repeat ManagementPage.ClickProcess n) st in
  exists pts,
    points Management q = Some pts
    /\ ManagementPage.totalScore st'
       = ManagementPage.totalScore st + Z.of_nat n * pts
    /\ ManagementPage.answers st' = ManagementPage.answers st
    /\ ManagementPage.currentQuestion st' = ManagementPage.currentQuestion st.
Proof.
  intros Hcur Ha Hlen.
  destruct (management_current_has_points st q Hcur) as [qn Hqn].
  exists (ManagementPage.points qn). split; [simpl; rewrite Hqn; reflexivity|].
  revert st Hcur Ha. induction n as [|n IH]; intros st Hcur Ha.
  - simpl. repeat split; lia.
  - cbn [repeat ManagementPage.run fold_left].
    fold (ManagementPage.run (repeat ManagementPage.ClickProcess n)
            (ManagementPage.step ManagementPage.ClickProcess st)).
    rewrite (management_process_step st q a qn Hcur Ha Hlen Hqn).
    match goal with
    | |- context [ManagementPage.run _ ?s] =>
        destruct (IH s) as (Hs & Han & Hc); [exact Hcur | exact Ha |]
    end.
    rewrite Hs, Han, Hc. simpl. repeat split; lia.
Qed.

Lemma management_process_adds_every_time_witness :
  let st := ManagementPage.handleAnswerChange 1 (lit "fetch, decode, execute")
              ManagementPage.init in
  ManagementPage.totalScore
    (ManagementPage.run (repeat ManagementPage.ClickProcess 3) st) = 30.
Proof.
  intros st.
  destruct (management_process_adds_every_time 3 st 1 (lit "fetch, decode, execute"))
    as (pts & Hp & Hs & _); [reflexivity | reflexivity | vm_compute; lia |].
  vm_compute in Hp. injection Hp as <-. exact Hs.
Defined.

Lemma management_step_score (e : ManagementPage.event) (st : ManagementPage.state) :
  ManagementPage.totalScore (ManagementPage.step e st) = ManagementPage.totalScore st
  \/ exists q qn,
       e = ManagementPage.ClickProcess
       /\ ManagementPage.current_id st = Some q
       /\ ManagementPage.find_question q = Some qn
       /\ ManagementPage.totalScore (ManagementPage.step e st)
          = ManagementPage.totalScore st + ManagementPage.points qn.
Proof.
  destruct e as [v| | | |index]; simpl.
  - left. destruct (ManagementPage.current_id st); reflexivity.
  - destruct (ManagementPage.current_id st) as [q|] eqn:Hcur; [|left; reflexivity].
    destruct (ManagementPage.submit_disabled q st); [left; reflexivity|].
    unfold ManagementPage.submitAnswer.
    destruct (ManagementPage.answers st !! q); [|left; reflexivity].
    destruct (_ && _); [|left; reflexivity].
    destruct (ManagementPage.find_question q) as [qn|] eqn:Hqn; [|left; reflexivity].
    right. exists q, qn. auto.
  - left. destruct (_ =? _)%nat; [reflexivity|].
    unfold ManagementPage.nextQuestion. destruct (_ <? _)%nat; reflexivity.
  - left. destruct (_ =? _)%nat; [reflexivity|].
    unfold ManagementPage.prevQuestion. destruct (_ <? _)%nat; reflexivity.
  - left. destruct (_ <? _)%nat; reflexivity.
Qed.

Lemma management_points_shape (q : nat) (qn : ManagementPage.Question) :
  ManagementPage.find_question q = Some qn ->
  exists k, ManagementPage.points qn = 5 * k /\ 2 <= k <= 7.
Proof.
  destruct q as [|[|[|[|[|[|[|n]]]]]]]; cbn; intros [= <-]; cbn;
    [exists 2|exists 3|exists 4|exists 5|exists 6|exists 7]; lia.
Qed.

(** X2. On the management page only a click on PROCESS changes the
    score, no event lowers it, and after any sequence of events from the
    initial state the score is a non-negative multiple of 5. *)
Theorem management_score_only_grows :
  (forall e st,
      e <> ManagementPage.ClickProcess ->
      ManagementPage.totalScore (ManagementPage.step e st)
      = ManagementPage.totalScore st)
  /\ (forall evs st,
      ManagementPage.totalScore st
      <= ManagementPage.totalScore (ManagementPage.run evs st))
  /\ (forall evs,
      exists k, 0 <= k
        /\ ManagementPage.totalScore (ManagementPage.run evs ManagementPage.init)
           = 5 * k).
Proof.
  split; [|split].
  - intros e st Hne.
    destruct (management_step_score e st) as [H|(q & qn & He & _)];
      [exact H | contradiction].
  - intros evs. induction evs as [|e evs IH]; intros st; simpl; [lia|].
    etrans; [|apply IH].
    destruct (management_step_score e st) as [->|(q & qn & _ & _ & Hqn & ->)]; [lia|].
    destruct (management_points_shape q qn Hqn) as (k & -> & Hk). lia.
  - intros evs.
    assert (Hgen : forall st,
               (exists k, 0 <= k /\ ManagementPage.totalScore st = 5 * k) ->
               exists k, 0 <= k
                 /\ ManagementPage.totalScore (ManagementPage.run evs st) = 5 * k).
    { induction evs as [|e evs IH]; intros st Hst; simpl; [exact Hst|].
      apply IH. destruct Hst as (k & Hk & Hs).
      destruct (management_step_score e st) as [->|(q & qn & _ & _ & Hqn & ->)];
        [eauto|].
      destruct (management_points_shape q qn Hqn) as (j & -> & Hj).
      exists (k + j). lia. }
    apply Hgen. exists 0. split; [lia | reflexivity].
Qed.

Lemma management_score_only_grows_witness :
  let st := ManagementPage.handleAnswerChange 1 (lit "fetch, decode, execute")
              ManagementPage.init in
  ManagementPage.totalScore (ManagementPage.step ManagementPage.ClickNext st) = 0
  /\ 0 <= ManagementPage.totalScore
            (ManagementPage.run [ManagementPage.ClickProcess; ManagementPage.ClickPrev] st).
Proof.
  intros st. destruct management_score_only_grows as (Hother & Hmono & _).
  split.
  - rewrite (Hother ManagementPage.ClickNext st); [reflexivity | discriminate].
  - apply (Hmono [ManagementPage.ClickProcess; ManagementPage.ClickPrev] st).
Defined.

Lemma management_run_in_range (evs : list ManagementPage.event)
    (st : ManagementPage.state) :
  (ManagementPage.currentQuestion st < length ManagementPage.managementQuestions)%nat ->
  (ManagementPage.currentQuestion (ManagementPage.run evs st)
   < length ManagementPage.managementQuestions)%nat.
Proof.
  revert st. induction evs as [|e evs IH]; intros st Hlt; simpl; [exact Hlt|].
  apply IH, management_current_in_range, Hlt.
Qed.

(** X3. After any sequence of events from the initial state the
    management page has a current question: [currentQuestion] is an index
    of the question list, so the textarea and the PROCESS button are wired
    to the [id] of a question with a point value, never to [undefined]. *)
Theorem management_always_has_current_question (evs : list ManagementPage.event) :
  let st := ManagementPage.run evs ManagementPage.init in
  (ManagementPage.currentQuestion st < length ManagementPage.managementQuestions)%nat
  /\ exists q pts,
       ManagementPage.current_id st = Some q /\ points Management q = Some pts.
Proof.
  intros st.
  assert (Hlt : (ManagementPage.currentQuestion st
                 < length ManagementPage.managementQuestions)%nat)
    by (apply management_run_in_range; simpl; lia).
  split; [exact Hlt|].
  destruct (lookup_lt_is_Some_2 _ _ Hlt) as [qn Hqn].
  exists (ManagementPage.id qn).
  assert (Hcur : ManagementPage.current_id st = Some (ManagementPage.id qn))
    by (unfold ManagementPage.current_id; rewrite Hqn; reflexivity).
  destruct (management_current_has_points st _ Hcur) as [qn' Hqn'].
  exists (ManagementPage.points qn'). split; [exact Hcur|].
  simpl. rewrite Hqn'. reflexivity.
Qed.

(** X4. Next and Prev undo each other on the management page: from a
    question that is not the last, Next then Prev gives back the state,
    and from one that is not the first (and is in the list), Prev then
    Next does; Next on the last question and Prev on the first change
    nothing. *)
Theorem management_next_prev_inverse (st : ManagementPage.state) :
  ((ManagementPage.currentQuestion st < 5)%nat ->
   ManagementPage.step ManagementPage.ClickPrev
     (ManagementPage.step ManagementPage.ClickNext st) = st)
  /\ ((0 < ManagementPage.currentQuestion st < 6)%nat ->
      ManagementPage.step ManagementPage.ClickNext
        (ManagementPage.step ManagementPage.ClickPrev st) = st)
  /\ (ManagementPage.currentQuestion st = 5%nat ->
      ManagementPage.step ManagementPage.ClickNext st = st)
  /\ (ManagementPage.currentQuestion st = 0%nat ->
      ManagementPage.step ManagementPage.ClickPrev st = st).
Proof.
  destruct st as [a c t]. simpl.
  unfold ManagementPage.nextQuestion, ManagementPage.prevQuestion. simpl.
  repeat split.
  - intros Hc.
    destruct (Nat.eqb_spec c 5); [lia|].
    destruct (Nat.ltb_spec c 5); [|lia]. simpl.
    destruct (Nat.eqb_spec (c + 1) 0); [lia|].
    destruct (Nat.ltb_spec 0 (c + 1)); [|lia]. simpl.
    f_equal. lia.
  - intros Hc.
    destruct (Nat.eqb_spec c 0); [lia|].
    destruct (Nat.ltb_spec 0 c); [|lia]. simpl.
    destruct (Nat.eqb_spec (c - 1) 5); [lia|].
    destruct (Nat.ltb_spec (c - 1) 5); [|lia]. simpl.
    f_equal. lia.
  - intros ->. reflexivity.
  - intros ->. reflexivity.
Qed.

Lemma management_next_prev_inverse_witness :
  let st := ManagementPage.run
              [ManagementPage.ClickDot 2; ManagementPage.Type_ (lit "round robin")]
              ManagementPage.init in
  ManagementPage.step ManagementPage.ClickPrev
    (ManagementPage.step ManagementPage.ClickNext st) = st
  /\ ManagementPage.step ManagementPage.ClickNext
       (ManagementPage.step ManagementPage.ClickPrev st) = st.
Proof.
  intros st. destruct (management_next_prev_inverse st) as (Hnp & Hpn & _).
  split; [apply Hnp | apply Hpn]; vm_compute; lia.
Defined.

(** X5. On the management page the stored answers change only by typing,
    and typing replaces the answer of the current question alone: every
    other event leaves all answers as they are, so that a text is still
    there after moving to other questions and back. *)
Theorem management_answers_change_only_by_typing :
  (forall v st q,
      ManagementPage.current_id st = Some q ->
      let st' := ManagementPage.step (ManagementPage.Type_ v) st in
      ManagementPage.answers st' !! q = Some v
      /\ (forall q', q' <> q ->
            ManagementPage.answers st' !! q' = ManagementPage.answers st !! q')
      /\ ManagementPage.currentQuestion st' = ManagementPage.currentQuestion st
      /\ ManagementPage.totalScore st' = ManagementPage.totalScore st)
  /\ (forall evs st,
      Forall (fun e => forall v, e <> ManagementPage.Type_ v) evs ->
      ManagementPage.answers (ManagementPage.run evs st) = ManagementPage.answers st).
Proof.
  split.
  - intros v st q Hcur st'. subst st'. simpl. rewrite Hcur. simpl.
    rewrite lookup_insert_eq. repeat split.
    intros q' Hne. apply lookup_insert_ne. congruence.
  - intros evs. induction evs as [|e evs IH]; intros st Hall; simpl; [reflexivity|].
    apply Forall_cons in Hall as [He Hall]. rewrite IH by exact Hall.
    destruct e as [v| | | |index]; simpl.
    + destruct (He v eq_refl).
    + destruct (ManagementPage.current_id st) as [q|]; [|reflexivity].
      destruct (ManagementPage.submit_disabled q st); [reflexivity|].
      unfold ManagementPage.submitAnswer.
      destruct (ManagementPage.answers st !! q); [|reflexivity].
      destruct (_ && _); [|reflexivity].
      destruct (ManagementPage.find_question q); reflexivity.
    + destruct (_ =? _)%nat; [reflexivity|].
      unfold ManagementPage.nextQuestion. destruct (_ <? _)%nat; reflexivity.
    + destruct (_ =? _)%nat; [reflexivity|].
      unfold ManagementPage.prevQuestion. destruct (_ <? _)%nat; reflexivity.
    + destruct (_ <? _)%nat; reflexivity.
Qed.

Lemma management_answers_change_only_by_typing_witness :
  let st := ManagementPage.step (ManagementPage.Type_ (lit "quantum"))
              ManagementPage.init in
  ManagementPage.answers st !! 1%nat = Some (lit "quantum")
  /\ ManagementPage.answers
       (ManagementPage.run
          [ManagementPage.ClickNext; ManagementPage.ClickDot 4;
           ManagementPage.ClickProcess; ManagementPage.ClickDot 0] st)
     = ManagementPage.answers st.
Proof.
  intros st. destruct management_answers_change_only_by_typing as [Htype Hnav].
  split.
  - destruct (Htype (lit "quantum") ManagementPage.init 1%nat eq_refl) as [H _].
    exact H.
  - apply Hnav. repeat constructor; discriminate.
Defined.

(** ** Design, research and tech pages: what the submitted set says *)

Lemma five_questions_NoDup : NoDup [1; 2; 3; 4; 5]%nat.
Proof. apply (bool_decide_unpack _). vm_compute. exact I. Qed.

Lemma size_within_five (S : gset nat) :
  (forall q, q ∈ S -> q ∈ [1; 2; 3; 4; 5]%nat) -> (size S <= 5)%nat.
Proof.
  intros Hin.
  assert (Hsub : S ⊆ list_to_set [1; 2; 3; 4; 5]%nat).
  { intros q Hq. apply elem_of_list_to_set, Hin, Hq. }
  apply subseteq_size in Hsub.
  rewrite (size_list_to_set _ five_questions_NoDup) in Hsub. exact Hsub.
Qed.

Lemma size_add_fresh (S : gset nat) (q : nat) :
  q ∉ S -> size (S ∪ {[q]}) = Datatypes.S (size S).
Proof.
  intros Hq. rewrite size_union.
  - rewrite size_singleton. lia.
  - intros x Hx Hx'. apply elem_of_singleton in Hx'. subst x. exact (Hq Hx).
Qed.

Lemma design_step_inv (e : DesignPage.event) (st : DesignPage.state) :
  DesignPage.counts_submissions st -> DesignPage.counts_submissions (DesignPage.step e st).
Proof.
  intros [Hp Hs]. destruct e as [q v|q]; simpl.
  - destruct (DesignPage.rendered q && negb (DesignPage.textarea_disabled q st))
      eqn:Hg; [|split; assumption].
    apply andb_prop in Hg as [_ Hen]. apply negb_true_iff, bool_decide_eq_false in Hen.
    split; [exact Hp|]. simpl. intros q' Hq'.
    rewrite lookup_insert_ne by congruence. auto.
  - destruct (DesignPage.rendered q && negb (DesignPage.submit_disabled q st))
      eqn:Hg; [|split; assumption].
    apply andb_prop in Hg as [Hr Hen]. apply negb_true_iff in Hen.
    apply orb_false_elim in Hen as [Hb Hnew].
    apply negb_false_iff in Hb. apply bool_decide_eq_false in Hnew.
    apply bool_decide_eq_true in Hr.
    unfold DesignPage.handleSubmitAnswer. rewrite Hb. simpl.
    assert (Hs' : forall q', q' ∈ DesignPage.submittedQuestions st ∪ {[q]} ->
                q' ∈ DesignPage.designQuestions
                /\ opt_trim_truthy (DesignPage.answers st !! q') = true).
    { intros q' Hq'. apply elem_of_union in Hq' as [Hq'|Hq']; [auto|].
      apply elem_of_singleton in Hq'. subst q'. auto. }
    split; [|exact Hs'].
    assert (Hle := size_within_five _ (fun q' Hq' => proj1 (Hs' q' Hq'))).
    simpl. rewrite size_add_fresh in * by exact Hnew. rewrite Hp. lia.
Qed.

Lemma design_run_inv (evs : list DesignPage.event) (st : DesignPage.state) :
  DesignPage.counts_submissions st -> DesignPage.counts_submissions (DesignPage.run evs st).
Proof.
  revert st. induction evs as [|e evs IH]; intros st Hinv; simpl; [exact Hinv|].
  apply IH, design_step_inv, Hinv.
Qed.

Lemma design_init_inv : DesignPage.counts_submissions DesignPage.init.
Proof.
  split; [reflexivity|]. intros q Hq. simpl in Hq.
  by apply not_elem_of_empty in Hq.
Qed.

Lemma pin_threshold_range (i : nat) :
  (i < 12)%nat -> 0 <= DesignPage.pin_threshold i <= 4.
Proof.
  intros Hi.
  do 12 (destruct i as [|i]; [vm_compute; split; discriminate|]). lia.
Qed.

(** X6. On the design page, after any sequence of events from the initial
    state, the progress shown is 20 times the number of submitted
    questions, which are questions of the list, at most five: the cap at
    100 is reached exactly when all five are submitted.  Of the twelve
    connector pins the first is lit as soon as one question is submitted
    and the last only when all five are. *)
Theorem design_progress_counts_submissions (evs : list DesignPage.event) :
  let st := DesignPage.run evs DesignPage.init in
  let n := size (DesignPage.submittedQuestions st) in
  DesignPage.designProgress st = 20 * Z.of_nat n
  /\ (n <= 5)%nat
  /\ (forall q, q ∈ DesignPage.submittedQuestions st -> q ∈ DesignPage.designQuestions)
  /\ (DesignPage.designProgress st = 100 <-> n = 5%nat)
  /\ (DesignPage.connector_pin_active 0 st = true <-> (0 < n)%nat)
  /\ (DesignPage.connector_pin_active 11 st = true <-> n = 5%nat)
  /\ (forall i, (i < 12)%nat -> n = 5%nat -> DesignPage.connector_pin_active i st = true).
Proof.
  intros st n.
  destruct (design_run_inv evs _ design_init_inv) as [Hp Hs]. fold st in Hp, Hs.
  assert (Hle : (n <= 5)%nat)
    by (apply size_within_five; intros q Hq; apply (Hs q Hq)).
  fold n in Hp.
  refine (conj Hp (conj Hle (conj (fun q Hq => proj1 (Hs q Hq)) _))).
  unfold DesignPage.connector_pin_active. fold n.
  change (DesignPage.pin_threshold 0) with 0.
  change (DesignPage.pin_threshold 11) with 4.
  repeat split; try (rewrite ?Z.ltb_lt in *; lia).
  intros i Hi Hn. apply Z.ltb_lt. pose proof (pin_threshold_range i Hi). lia.
Qed.

Lemma tech_step_inv (e : TechPage.event) (st : TechPage.state) :
  TechPage.counts_submissions st -> TechPage.counts_submissions (TechPage.step e st).
Proof.
  intros [Hp Hs]. destruct e as [q v|q]; simpl.
  - destruct (TechPage.rendered q && negb (TechPage.textarea_disabled q st))
      eqn:Hg; [|split; assumption].
    apply andb_prop in Hg as [_ Hen]. apply negb_true_iff, bool_decide_eq_false in Hen.
    split; [exact Hp|]. simpl. intros q' Hq'.
    rewrite lookup_insert_ne by congruence. auto.
  - destruct (TechPage.rendered q && negb (TechPage.submit_disabled q st))
      eqn:Hg; [|split; assumption].
    apply andb_prop in Hg as [Hr Hen]. apply negb_true_iff in Hen.
    apply orb_false_elim in Hen as [Hb Hnew].
    apply negb_false_iff in Hb. apply bool_decide_eq_false in Hnew.
    apply bool_decide_eq_true in Hr.
    unfold TechPage.handleSubmitAnswer. rewrite Hb. simpl.
    assert (Hs' : forall q', q' ∈ TechPage.submittedQuestions st ∪ {[q]} ->
                q' ∈ TechPage.techQuestions
                /\ opt_trim_truthy (TechPage.answers st !! q') = true).
    { intros q' Hq'. apply elem_of_union in Hq' as [Hq'|Hq']; [auto|].
      apply elem_of_singleton in Hq'. subst q'. auto. }
    split; [|exact Hs'].
    assert (Hle := size_within_five _ (fun q' Hq' => proj1 (Hs' q' Hq'))).
    simpl. rewrite size_add_fresh in * by exact Hnew. rewrite Hp. lia.
Qed.

Lemma tech_run_inv (evs : list TechPage.event) (st : TechPage.state) :
  TechPage.counts_submissions st -> TechPage.counts_submissions (TechPage.run evs st).
Proof.
  revert st. induction evs as [|e evs IH]; intros st Hinv; simpl; [exact Hinv|].
  apply IH, tech_step_inv, Hinv.
Qed.

Lemma tech_init_inv : TechPage.counts_submissions TechPage.init.
Proof.
  split; [reflexivity|]. intros q Hq. simpl in Hq.
  by apply not_elem_of_empty in Hq.
Qed.

(** X7. On the tech page, after any sequence of events from the initial
    state, the fan speed is 60 plus 8 per submitted question and the
    temperature shown is 85 minus 8 per submitted question: with at most
    five questions neither the cap at 100 nor the floor at 45 cuts
    anything off, and fan speed and temperature always add up to 145. *)
Theorem tech_fan_and_temperature (evs : list TechPage.event) :
  let st := TechPage.run evs TechPage.init in
  let n := Z.of_nat (size (TechPage.submittedQuestions st)) in
  0 <= n <= 5
  /\ TechPage.fanSpeed st = 60 + 8 * n
  /\ TechPage.temperature st = 85 - 8 * n
  /\ TechPage.fanSpeed st + TechPage.temperature st = 145
  /\ (TechPage.fanSpeed st = 100 <-> n = 5)
  /\ (TechPage.temperature st = 45 <-> n = 5).
Proof.
  intros st n.
  destruct (tech_run_inv evs _ tech_init_inv) as [Hp Hs]. fold st in Hp, Hs.
  assert (Hle : (size (TechPage.submittedQuestions st) <= 5)%nat)
    by (apply size_within_five; intros q Hq; apply (Hs q Hq)).
  unfold TechPage.temperature. fold n in Hp |- *. subst n. lia.
Qed.

Lemma research_step_inv (e : ResearchPage.event) (st : ResearchPage.state) :
  ResearchPage.submitted_answered st ->
  ResearchPage.submitted_answered (ResearchPage.step e st).
Proof.
  intros Hs. destruct e as [q v|q]; simpl.
  - destruct (ResearchPage.rendered q && negb (ResearchPage.textarea_disabled q st))
      eqn:Hg; [|assumption].
    apply andb_prop in Hg as [_ Hen]. apply negb_true_iff, bool_decide_eq_false in Hen.
    intros q' Hq'. simpl in *.
    rewrite lookup_insert_ne by congruence. auto.
  - destruct (ResearchPage.rendered q && negb (ResearchPage.submit_disabled q st))
      eqn:Hg; [|assumption].
    apply andb_prop in Hg as [Hr Hen]. apply negb_true_iff in Hen.
    apply orb_false_elim in Hen as [Hb Hnew].
    apply negb_false_iff in Hb. apply bool_decide_eq_true in Hr.
    unfold ResearchPage.handleSubmitAnswer. rewrite Hb.
    intros q' Hq'. simpl in *. apply elem_of_union in Hq' as [Hq'|Hq']; [auto|].
    apply elem_of_singleton in Hq'. subst q'. auto.
Qed.

Lemma research_run_inv (evs : list ResearchPage.event) (st : ResearchPage.state) :
  ResearchPage.submitted_answered st ->
  ResearchPage.submitted_answered (ResearchPage.run evs st).
Proof.
  revert st. induction evs as [|e evs IH]; intros st Hinv; simpl; [exact Hinv|].
  apply IH, research_step_inv, Hinv.
Qed.

(** X8. On the design, research and tech pages, after any sequence of
    events from the initial state, every submitted question is a question
    of the page, the answer stored for it has a character that is not
    white space, and at most five questions are submitted. *)
Theorem submitted_questions_are_answered :
  (forall evs q,
      let st := DesignPage.run evs DesignPage.init in
      q ∈ DesignPage.submittedQuestions st ->
      q ∈ DesignPage.designQuestions
      /\ (exists a, DesignPage.answers st !! q = Some a /\ blank a = false)
      /\ (size (DesignPage.submittedQuestions st) <= 5)%nat)
  /\ (forall evs q,
      let st := ResearchPage.run evs ResearchPage.init in
      q ∈ ResearchPage.submittedQuestions st ->
      q ∈ ResearchPage.researchQuestions
      /\ (exists a, ResearchPage.answers st !! q = Some a /\ blank a = false)
      /\ (size (ResearchPage.submittedQuestions st) <= 5)%nat)
  /\ (forall evs q,
      let st := TechPage.run evs TechPage.init in
      q ∈ TechPage.submittedQuestions st ->
      q ∈ TechPage.techQuestions
      /\ (exists a, TechPage.answers st !! q = Some a /\ blank a = false)
      /\ (size (TechPage.submittedQuestions st) <= 5)%nat).
Proof.
  assert (Hnb : forall o : option jsstring,
             opt_trim_truthy o = true -> exists a, o = Some a /\ blank a = false).
  { intros [a|]; simpl; [|discriminate]. rewrite truthy_trim.
    intros H. exists a. split; [reflexivity|]. by apply negb_true_iff. }
  split; [|split]; intros evs q st Hq.
  - destruct (design_run_inv evs _ design_init_inv) as [_ Hs]. fold st in Hs.
    destruct (Hs q Hq) as [Hin Ha].
    refine (conj Hin (conj (Hnb _ Ha) _)).
    apply size_within_five. intros q' Hq'. apply (Hs q' Hq').
  - assert (Hs : ResearchPage.submitted_answered st).
    { apply research_run_inv. intros q' Hq'. simpl in Hq'.
      by apply not_elem_of_empty in Hq'. }
    destruct (Hs q Hq) as [Hin Ha].
    refine (conj Hin (conj (Hnb _ Ha) _)).
    apply size_within_five. intros q' Hq'. apply (Hs q' Hq').
  - destruct (tech_run_inv evs _ tech_init_inv) as [_ Hs]. fold st in Hs.
    destruct (Hs q Hq) as [Hin Ha].
    refine (conj Hin (conj (Hnb _ Ha) _)).
    apply size_within_five. intros q' Hq'. apply (Hs q' Hq').
Qed.

Lemma submitted_questions_are_answered_witness :
  let st := ResearchPage.run
              [ResearchPage.Type_ 4 (lit "fewer lanes"); ResearchPage.ClickSubmit 4;
               ResearchPage.ClickSubmit 5]
              ResearchPage.init in
  exists a, ResearchPage.answers st !! 4%nat = Some a /\ blank a = false.
Proof.
  intros st.
  destruct (proj1 (proj2 submitted_questions_are_answered)
              [ResearchPage.Type_ 4 (lit "fewer lanes"); ResearchPage.ClickSubmit 4;
               ResearchPage.ClickSubmit 5] 4%nat) as (_ & Ha & _).
  - apply (bool_decide_unpack _). vm_compute. exact I.
  - exact Ha.
Defined.

(** ** RAM competitive-coding page: answers, record and score *)

Lemma or_empty_idem (o : option jsstring) : or_empty (Some (or_empty o)) = or_empty o.
Proof.
  destruct o as [s|]; [|reflexivity]. simpl.
  destruct s; reflexivity.
Qed.

(** X9. On the RAM competitive-coding page, typing into one of the two
    fields of a question sets what that field shows and leaves what the
    other field shows, the fields of every other question, the score, the
    submissions and the active question as they were; the first keystroke
    creates the answer with the other field empty. *)
Theorem ram_update_keeps_other_field
    (q : nat) (v : jsstring) (st : CompetitiveCodingPage.state) :
  let shown_code s := or_empty (CompetitiveCodingPage.code
                                  <$> CompetitiveCodingPage.answers s !! q) in
  let shown_expl s := or_empty (CompetitiveCodingPage.explanation
                                  <$> CompetitiveCodingPage.answers s !! q) in
  let c := CompetitiveCodingPage.updateAnswer q CompetitiveCodingPage.Code v st in
  let e := CompetitiveCodingPage.updateAnswer q CompetitiveCodingPage.Explanation v st in
  (shown_code c = or_empty (Some v) /\ shown_expl c = shown_expl st)
  /\ (shown_expl e = or_empty (Some v) /\ shown_code e = shown_code st)
  /\ (CompetitiveCodingPage.answers st !! q = None ->
      CompetitiveCodingPage.answers c !! q
      = Some {| CompetitiveCodingPage.questionId := q;
                CompetitiveCodingPage.code := v;
                CompetitiveCodingPage.explanation := [] |})
  /\ (forall f q', q' <> q ->
        answer_fields RamCoding q' (CompetitiveCodingPage.updateAnswer q f v st)
        = answer_fields RamCoding q' st)
  /\ (forall f,
        let u := CompetitiveCodingPage.updateAnswer q f v st in
        CompetitiveCodingPage.totalScore u = CompetitiveCodingPage.totalScore st
        /\ CompetitiveCodingPage.submissions u = CompetitiveCodingPage.submissions st
        /\ CompetitiveCodingPage.activeQuestion u
           = CompetitiveCodingPage.activeQuestion st).
Proof.
  intros shown_code shown_expl c e. subst shown_code shown_expl c e.
  unfold CompetitiveCodingPage.updateAnswer. simpl.
  rewrite !lookup_insert_eq. simpl.
  refine (conj (conj eq_refl (or_empty_idem _))
            (conj (conj eq_refl (or_empty_idem _)) (conj _ (conj _ _)))).
  - intros ->. reflexivity.
  - intros f q' Hne. rewrite lookup_insert_ne by congruence. reflexivity.
  - intros f. repeat split.
Qed.

Lemma ram_step_submissions_ok (e : CompetitiveCodingPage.event)
    (st : CompetitiveCodingPage.state) :
  CompetitiveCodingPage.submissions_ok st ->
  CompetitiveCodingPage.submissions_ok (CompetitiveCodingPage.step e st).
Proof.
  intros Hok. destruct e as [q f v|q|q]; simpl.
  - destruct (CompetitiveCodingPage.rendered q); exact Hok.
  - destruct (CompetitiveCodingPage.rendered q) eqn:Hr; simpl; [|exact Hok].
    destruct (CompetitiveCodingPage.submit_disabled q st); simpl; [exact Hok|].
    unfold CompetitiveCodingPage.submitAnswer.
    destruct (CompetitiveCodingPage.answers st !! q); [|exact Hok].
    destruct (_ && _); [|exact Hok].
    intros q' b. simpl. destruct (decide (q = q')) as [<-|Hne].
    + rewrite lookup_insert_eq. intros [= <-]. auto.
    + rewrite lookup_insert_ne by exact Hne. apply Hok.
  - destruct (CompetitiveCodingPage.rendered q); exact Hok.
Qed.

Lemma ram_run_submissions_ok (evs : list CompetitiveCodingPage.event)
    (st : CompetitiveCodingPage.state) :
  CompetitiveCodingPage.submissions_ok st ->
  CompetitiveCodingPage.submissions_ok (CompetitiveCodingPage.run evs st).
Proof.
  revert st. induction evs as [|e evs IH]; intros st Hok; simpl; [exact Hok|].
  apply IH, ram_step_submissions_ok, Hok.
Qed.

Lemma ram_init_submissions_ok :
  CompetitiveCodingPage.submissions_ok CompetitiveCodingPage.init.
Proof. intros q b. simpl. rewrite lookup_empty. discriminate. Qed.

Lemma ram_all_submitted_size (subs : gmap nat bool) :
  (forall q b, subs !! q = Some b -> CompetitiveCodingPage.rendered q = true) ->
  (size subs <= 5)%nat
  /\ (size subs = 5%nat <->
      forall q, (1 <= q <= 5)%nat -> is_Some (subs !! q)).
Proof.
  intros Hkeys.
  assert (Hsub : dom subs ⊆ list_to_set [1; 2; 3; 4; 5]%nat).
  { intros q Hq. apply elem_of_dom in Hq as [b Hb].
    apply Hkeys, ram_rendered_cases in Hb. apply elem_of_list_to_set.
    repeat (rewrite elem_of_cons). tauto. }
  assert (Hsz : size (list_to_set [1; 2; 3; 4; 5]%nat : gset nat) = 5%nat)
    by (rewrite (size_list_to_set _ five_questions_NoDup); reflexivity).
  rewrite <- size_dom.
  split; [apply subseteq_size in Hsub; lia|].
  split.
  - intros Hfull q Hq.
    assert (Heq : dom subs ≡ list_to_set [1; 2; 3; 4; 5]%nat)
      by (apply set_subseteq_size_equiv; [exact Hsub | lia]).
    apply elem_of_dom, Heq, elem_of_list_to_set.
    repeat (rewrite elem_of_cons). lia.
  - intros Hall.
    assert (Hsup : list_to_set [1; 2; 3; 4; 5]%nat ⊆ dom subs).
    { intros q Hq. apply elem_of_list_to_set in Hq. apply elem_of_dom, Hall.
      repeat (apply elem_of_cons in Hq as [->|Hq]; [lia|]).
      by apply elem_of_nil in Hq. }
    apply subseteq_size in Hsup. apply subseteq_size in Hsub. lia.
Qed.

Lemma ram_points_by_question (st : CompetitiveCodingPage.state) :
  CompetitiveCodingPage.submitted_points (CompetitiveCodingPage.submissions st)
  = (if CompetitiveCodingPage.submitted 1 st then 100 else 0)
    + (if CompetitiveCodingPage.submitted 2 st then 200 else 0)
    + (if CompetitiveCodingPage.submitted 3 st then 300 else 0)
    + (if CompetitiveCodingPage.submitted 4 st then 250 else 0)
    + (if CompetitiveCodingPage.submitted 5 st then 350 else 0).
Proof.
  unfold CompetitiveCodingPage.submitted_points, CompetitiveCodingPage.submitted. cbn.
  repeat match goal with
         | |- context [CompetitiveCodingPage.submissions st !! ?k] =>
             destruct (CompetitiveCodingPage.submissions st !! k) as [[|]|]
         end; lia.
Qed.

(** X10. On the RAM competitive-coding page, after any sequence of events
    from the initial state, the submissions record holds [true] under
    question ids only, the count of the progress bar is at most 5, the
    score lies between 0 and 1200 and is 1200 exactly when the count is
    5; the sixteenth memory block stands for a sixth question and never
    shows allocated. *)
Theorem ram_progress_and_score_bounds (evs : list CompetitiveCodingPage.event) :
  let st := CompetitiveCodingPage.run evs CompetitiveCodingPage.init in
  CompetitiveCodingPage.submissions_ok st
  /\ (CompetitiveCodingPage.progress_count st <= 5)%nat
  /\ 0 <= CompetitiveCodingPage.totalScore st <= 1200
  /\ (CompetitiveCodingPage.totalScore st = 1200
      <-> CompetitiveCodingPage.progress_count st = 5%nat)
  /\ CompetitiveCodingPage.memory_block 15 st = false.
Proof.
  intros st.
  assert (Hok : CompetitiveCodingPage.submissions_ok st)
    by (apply ram_run_submissions_ok, ram_init_submissions_ok).
  assert (Hinv : CompetitiveCodingPage.score_invariant st)
    by (apply ram_run_invariant; reflexivity).
  destruct (ram_all_submitted_size (CompetitiveCodingPage.submissions st)
              (fun q b Hb => proj2 (Hok q b Hb))) as [Hle Hfull].
  unfold CompetitiveCodingPage.progress_count.
  refine (conj Hok (conj Hle _)).
  assert (Hsome : forall q,
             is_Some (CompetitiveCodingPage.submissions st !! q)
             <-> CompetitiveCodingPage.submitted q st = true).
  { intros q. unfold CompetitiveCodingPage.submitted. split.
    - intros [b Hb]. destruct (Hok q b Hb) as [-> _]. rewrite Hb. reflexivity.
    - destruct (CompetitiveCodingPage.submissions st !! q); [eauto | discriminate]. }
  assert (Hscore :
            0 <= CompetitiveCodingPage.totalScore st <= 1200
            /\ (CompetitiveCodingPage.totalScore st = 1200 <->
                forall q, (1 <= q <= 5)%nat ->
                          is_Some (CompetitiveCodingPage.submissions st !! q))).
  { rewrite Hinv, (ram_points_by_question st).
    split; [repeat destruct (CompetitiveCodingPage.submitted _ st); lia|].
    split.
    - intros Hs q Hq. apply Hsome.
      assert (Hq' : (q = 1 \/ q = 2 \/ q = 3 \/ q = 4 \/ q = 5)%nat) by lia.
      revert Hs.
      destruct Hq' as [Hq'|[Hq'|[Hq'|[Hq'|Hq']]]]; subst q;
        repeat destruct (CompetitiveCodingPage.submitted _ st); intros; try lia;
        reflexivity.
    - intros Hall.
      rewrite (proj1 (Hsome 1%nat) (Hall 1%nat ltac:(lia))).
      rewrite (proj1 (Hsome 2%nat) (Hall 2%nat ltac:(lia))).
      rewrite (proj1 (Hsome 3%nat) (Hall 3%nat ltac:(lia))).
      rewrite (proj1 (Hsome 4%nat) (Hall 4%nat ltac:(lia))).
      rewrite (proj1 (Hsome 5%nat) (Hall 5%nat ltac:(lia))).
      reflexivity. }
  destruct Hscore as [Hb Hiff].
  refine (conj Hb (conj _ _)).
  - rewrite Hiff, Hfull. reflexivity.
  - unfold CompetitiveCodingPage.memory_block, CompetitiveCodingPage.submitted.
    change (15 / 3 + 1)%nat with 6%nat.
    destruct (CompetitiveCodingPage.submissions st !! 6%nat) as [b|] eqn:E6;
      [|reflexivity].
    destruct (Hok _ _ E6) as [_ Hr]. vm_compute in Hr. discriminate.
Qed.

Lemma blank_or_empty_some (s : jsstring) : blank (or_empty (Some s)) = blank s.
Proof. destruct s; reflexivity. Qed.

Lemma ram_find_question_rendered (q : nat) :
  CompetitiveCodingPage.find_question q = None
  <-> CompetitiveCodingPage.rendered q = false.
Proof.
  split.
  - intros Hnone. destruct (CompetitiveCodingPage.rendered q) eqn:Hr; [|reflexivity].
    destruct (ram_rendered_has_points q Hr) as [qn Hqn]. congruence.
  - intros Hr.
    destruct (CompetitiveCodingPage.find_question q) as [qn|] eqn:Hf; [|reflexivity].
    apply find_some in Hf as [Hin Hid]. apply Nat.eqb_eq in Hid.
    assert (Hq : CompetitiveCodingPage.rendered q = true).
    { apply bool_decide_eq_true. rewrite <- Hid.
      apply list_elem_of_In, in_map, Hin. }
    congruence.
Qed.

Lemma ram_answer_blank (q : nat) (st : CompetitiveCodingPage.state) :
  answer_blank RamCoding q st
  = match CompetitiveCodingPage.answers st !! q with
    | Some a => blank (CompetitiveCodingPage.code a)
                || blank (CompetitiveCodingPage.explanation a)
    | None => true
    end.
Proof.
  unfold answer_blank. cbn [answer_fields].
  destruct (CompetitiveCodingPage.answers st !! q) as [a|]; [|reflexivity].
  cbn [fmap option_fmap option_map existsb].
  rewrite !blank_or_empty_some, orb_false_r. reflexivity.
Qed.

(** X11. The submit handler of the RAM competitive-coding page shows the
    failure alert exactly when a field of the answer is blank, and then
    returns the state it was given; otherwise it shows the success alert
    with the points of the question, marks the question and adds these
    points.  For an [id] that is not a question ([find] gives
    [undefined]) it still marks the submission, announces no points and
    leaves the score as it is. *)
Theorem ram_submit_alert (q : nat) (st : CompetitiveCodingPage.state) :
  let st' := fst (CompetitiveCodingPage.submitAnswer q st) in
  match snd (CompetitiveCodingPage.submitAnswer q st) with
  | CompetitiveCodingPage.Incomplete =>
      answer_blank RamCoding q st = true /\ st' = st
  | CompetitiveCodingPage.SubmittedOk pts =>
      answer_blank RamCoding q st = false
      /\ pts = points RamCoding q
      /\ (pts = None <-> CompetitiveCodingPage.rendered q = false)
      /\ CompetitiveCodingPage.submitted q st' = true
      /\ CompetitiveCodingPage.totalScore st'
         = CompetitiveCodingPage.totalScore st + default 0 pts
      /\ CompetitiveCodingPage.answers st' = CompetitiveCodingPage.answers st
  end.
Proof.
  intros st'. subst st'.
  rewrite ram_answer_blank. unfold CompetitiveCodingPage.submitAnswer.
  destruct (CompetitiveCodingPage.answers st !! q) as [a|] eqn:Ha; simpl;
    [|split; reflexivity].
  rewrite !truthy_trim.
  destruct (blank (CompetitiveCodingPage.code a)); simpl; [split; reflexivity|].
  destruct (blank (CompetitiveCodingPage.explanation a)); simpl; [split; reflexivity|].
  refine (conj eq_refl (conj eq_refl (conj _ (conj _ (conj _ eq_refl))))).
  - rewrite <- ram_find_question_rendered.
    destruct (CompetitiveCodingPage.find_question q); simpl; split; congruence.
  - unfold CompetitiveCodingPage.submitted. simpl. by rewrite lookup_insert_eq.
  - destruct (CompetitiveCodingPage.find_question q); simpl; lia.
Qed.

Lemma ram_points_positive (q : nat) (qn : CompetitiveCodingPage.Question) :
  CompetitiveCodingPage.find_question q = Some qn ->
  0 < CompetitiveCodingPage.points qn.
Proof.
  destruct q as [|[|[|[|[|[|n]]]]]]; cbn; intros [= <-]; reflexivity.
Qed.

Lemma ram_step_permanent (e : CompetitiveCodingPage.event)
    (st : CompetitiveCodingPage.state) (q : nat) :
  (CompetitiveCodingPage.submitted q st = true ->
   CompetitiveCodingPage.submitted q (CompetitiveCodingPage.step e st) = true)
  /\ CompetitiveCodingPage.totalScore st
     <= CompetitiveCodingPage.totalScore (CompetitiveCodingPage.step e st).
Proof.
  destruct e as [q0 f v|q0|q0]; simpl.
  - destruct (CompetitiveCodingPage.rendered q0); split; auto; reflexivity.
  - destruct (CompetitiveCodingPage.rendered q0 && _); [|split; auto; reflexivity].
    unfold CompetitiveCodingPage.submitAnswer.
    destruct (CompetitiveCodingPage.answers st !! q0); [|split; auto; reflexivity].
    destruct (_ && _); [|split; auto; reflexivity].
    simpl. split.
    + unfold CompetitiveCodingPage.submitted. simpl. intros Hq.
      destruct (decide (q0 = q)) as [->|Hne].
      * by rewrite lookup_insert_eq.
      * by rewrite lookup_insert_ne.
    + destruct (CompetitiveCodingPage.find_question q0) as [qn|] eqn:Hqn; [|reflexivity].
      pose proof (ram_points_positive q0 qn Hqn). lia.
  - destruct (CompetitiveCodingPage.rendered q0); split; auto; reflexivity.
Qed.

(** X12. On the RAM competitive-coding page a submission is never taken
    back and the score never goes down: a question once marked stays
    marked through every later sequence of events, and the score after
    the sequence is at least the score before. *)
Theorem ram_submission_is_permanent
    (evs : list CompetitiveCodingPage.event) (st : CompetitiveCodingPage.state)
    (q : nat) :
  (CompetitiveCodingPage.submitted q st = true ->
   CompetitiveCodingPage.submitted q (CompetitiveCodingPage.run evs st) = true)
  /\ CompetitiveCodingPage.totalScore st
     <= CompetitiveCodingPage.totalScore (CompetitiveCodingPage.run evs st).
Proof.
  revert st. induction evs as [|e evs IH]; intros st; simpl; [split; [auto | lia]|].
  destruct (ram_step_permanent e st q) as [Hs Hle].
  destruct (IH (CompetitiveCodingPage.step e st)) as [Hs' Hle'].
  split; [auto | lia].
Qed.

Lemma ram_submission_is_permanent_witness :
  let st := CompetitiveCodingPage.run
      [CompetitiveCodingPage.Type_ 2 CompetitiveCodingPage.Code (lit "lru.get(k)");
       CompetitiveCodingPage.Type_ 2 CompetitiveCodingPage.Explanation (lit "O(1)");
       CompetitiveCodingPage.ClickSubmit 2]
      CompetitiveCodingPage.init in
  let evs := [CompetitiveCodingPage.Type_ 2 CompetitiveCodingPage.Code [];
              CompetitiveCodingPage.ClickSubmit 2;
              CompetitiveCodingPage.ClickNav 5] in
  CompetitiveCodingPage.submitted 2 (CompetitiveCodingPage.run evs st) = true
  /\ 200 <= CompetitiveCodingPage.totalScore (CompetitiveCodingPage.run evs st).
Proof.
  intros st evs.
  destruct (ram_submission_is_permanent evs st 2) as [Hs Hle].
  split; [apply Hs; reflexivity|]. exact Hle.
Defined.

(** ** Second competitive-coding page *)

Lemma coding_run_defined (evs : list CompetitiveCoding.event)
    (st : CompetitiveCoding.state) :
  CompetitiveCoding.well_formed st ->
  exists st', CompetitiveCoding.run evs st = Some st'
              /\ CompetitiveCoding.well_formed st'.
Proof.
  revert st. induction evs as [|e evs IH]; intros st Hwf; simpl; [eauto|].
  destruct (coding_step_defined e st Hwf) as (st1 & -> & Hwf1). apply IH, Hwf1.
Qed.

(** X13. The second competitive-coding page never throws: after any
    sequence of events from the initial state the current problem is one
    of the five and both arrays still have their five slots filled, so
    that [solutions[currentProblem].trim()] always has a string to work
    on. *)
Theorem coding_never_throws (evs : list CompetitiveCoding.event) :
  exists st,
    CompetitiveCoding.run evs CompetitiveCoding.init = Some st
    /\ CompetitiveCoding.well_formed st
    /\ is_Some (array_get (CompetitiveCoding.currentProblem st)
                  (CompetitiveCoding.solutions st)).
Proof.
  destruct (coding_run_defined evs _ coding_init_well_formed) as (st & Hrun & Hwf).
  exists st. refine (conj Hrun (conj Hwf _)).
  destruct Hwf as (Hc & Hl & Hs & _).
  apply array_get_filled; [rewrite Hl; exact Hc | exact Hs].
Qed.

Lemma array_count_le_length {A} (f : A -> bool) (a : list (option A)) :
  (array_count f a <= length a)%nat.
Proof. unfold array_count. apply List.filter_length_le. Qed.

Lemma coding_step_memory (e : CompetitiveCoding.event)
    (st st' : CompetitiveCoding.state) :
  CompetitiveCoding.memoryUsage st
  = CompetitiveCoding.memory_effect (CompetitiveCoding.solutions st) ->
  CompetitiveCoding.step e st = Some st' ->
  CompetitiveCoding.memoryUsage st'
  = CompetitiveCoding.memory_effect (CompetitiveCoding.solutions st').
Proof.
  intros Hm. unfold CompetitiveCoding.step.
  destruct (array_get _ _) as [sol|] eqn:Hsol; [|discriminate].
  destruct e as [v| |index].
  - destruct (CompetitiveCoding.submitted _ st); intros [= <-]; [exact Hm | reflexivity].
  - destruct (_ || _); [intros [= <-]; exact Hm|].
    unfold CompetitiveCoding.handleSubmit. rewrite Hsol.
    destruct (truthy (trim sol)); intros [= <-]; exact Hm.
  - destruct (_ <? _)%nat; intros [= <-]; exact Hm.
Qed.

Lemma coding_run_memory (evs : list CompetitiveCoding.event)
    (st st' : CompetitiveCoding.state) :
  CompetitiveCoding.memoryUsage st
  = CompetitiveCoding.memory_effect (CompetitiveCoding.solutions st) ->
  CompetitiveCoding.run evs st = Some st' ->
  CompetitiveCoding.memoryUsage st'
  = CompetitiveCoding.memory_effect (CompetitiveCoding.solutions st').
Proof.
  revert st. induction evs as [|e evs IH]; intros st Hm; simpl.
  - intros [= <-]. exact Hm.
  - destruct (CompetitiveCoding.step e st) as [st1|] eqn:Hstep; [|discriminate].
    apply IH. exact (coding_step_memory e st st1 Hm Hstep).
Qed.

(** X14. On the second competitive-coding page, in every state reached
    from the initial one, the memory usage is 20 times the number of
    solutions that are not the empty string (white space counts), between
    0 and 100, and the status shown is Low up to one such solution,
    Medium for two or three and High from four on. *)
Theorem coding_memory_usage
    (evs : list CompetitiveCoding.event) (st : CompetitiveCoding.state) :
  CompetitiveCoding.run evs CompetitiveCoding.init = Some st ->
  let n := CompetitiveCoding.nonempty_solutions st in
  (n <= 5)%nat
  /\ (CompetitiveCoding.memoryUsage st == 20 * inject_Z (Z.of_nat n))%Q
  /\ (0 <= CompetitiveCoding.memoryUsage st <= 100)%Q
  /\ CompetitiveCoding.getMemoryStatus st
     = (if (n <=? 1)%nat then CompetitiveCoding.Low
        else if (n <=? 3)%nat then CompetitiveCoding.Medium
        else CompetitiveCoding.High).
Proof.
  intros Hrun n.
  destruct (coding_run_defined evs _ coding_init_well_formed) as (st0 & Hrun0 & Hwf).
  rewrite Hrun in Hrun0. injection Hrun0 as <-.
  assert (Hm := coding_run_memory evs CompetitiveCoding.init st eq_refl Hrun).
  assert (Hn : (n <= 5)%nat).
  { destruct Hwf as (_ & Hl & _). subst n. unfold CompetitiveCoding.nonempty_solutions.
    etrans; [apply array_count_le_length|]. rewrite Hl. reflexivity. }
  assert (Hmn : CompetitiveCoding.memoryUsage st
                = (inject_Z (Z.of_nat n) / 5 * 100)%Q) by exact Hm.
  clearbody n. unfold CompetitiveCoding.getMemoryStatus. rewrite Hmn.
  split; [exact Hn|].
  do 6 (destruct n as [|n]; [vm_compute; repeat split; congruence|]). lia.
Qed.

Lemma coding_memory_usage_witness :
  let evs := [CompetitiveCoding.Type_ (lit "  "); CompetitiveCoding.ClickSubmit;
              CompetitiveCoding.ClickChip 3; CompetitiveCoding.Type_ (lit "free(p)")] in
  exists st,
    CompetitiveCoding.run evs CompetitiveCoding.init = Some st
    /\ (CompetitiveCoding.memoryUsage st == 40)%Q
    /\ CompetitiveCoding.getMemoryStatus st = CompetitiveCoding.Medium.
Proof.
  intros evs.
  destruct (CompetitiveCoding.run evs CompetitiveCoding.init) as [st|] eqn:Hrun;
    [|vm_compute in Hrun; discriminate].
  exists st. split; [reflexivity|].
  destruct (coding_memory_usage evs st Hrun) as (_ & Hm & _ & Hs).
  assert (Hn : CompetitiveCoding.nonempty_solutions st = 2%nat).
  { vm_compute in Hrun. injection Hrun as <-. reflexivity. }
  rewrite Hn in Hm, Hs. split; [rewrite Hm; reflexivity | exact Hs].
Defined.

Lemma coding_step_frozen (e : CompetitiveCoding.event)
    (st st' : CompetitiveCoding.state) (i : nat) :
  CompetitiveCoding.step e st = Some st' ->
  CompetitiveCoding.submitted i st = true ->
  CompetitiveCoding.submitted i st' = true
  /\ array_get i (CompetitiveCoding.solutions st')
     = array_get i (CompetitiveCoding.solutions st).
Proof.
  unfold CompetitiveCoding.step.
  destruct (array_get _ _) as [sol|] eqn:Hsol; [|discriminate].
  destruct e as [v| |index].
  - destruct (CompetitiveCoding.submitted (CompetitiveCoding.currentProblem st) st)
      eqn:Hcur; intros [= <-] Hi; [auto|].
    split; [exact Hi|]. simpl. apply array_get_set_ne. congruence.
  - destruct (_ || _); [intros [= <-]; auto|].
    unfold CompetitiveCoding.handleSubmit. rewrite Hsol.
    destruct (truthy (trim sol)); intros [= <-] Hi; [|auto].
    split; [|reflexivity]. unfold CompetitiveCoding.submitted in *. simpl.
    destruct (decide (CompetitiveCoding.currentProblem st = i)) as [->|Hne].
    + by rewrite array_get_set_eq.
    + by rewrite array_get_set_ne.
  - destruct (_ <? _)%nat; intros [= <-]; auto.
Qed.

Lemma coding_step_answered (e : CompetitiveCoding.event)
    (st st' : CompetitiveCoding.state) :
  (forall i, CompetitiveCoding.submitted i st = true ->
     exists sol, array_get i (CompetitiveCoding.solutions st) = Some sol
                 /\ blank sol = false) ->
  CompetitiveCoding.step e st = Some st' ->
  forall i, CompetitiveCoding.submitted i st' = true ->
    exists sol, array_get i (CompetitiveCoding.solutions st') = Some sol
                /\ blank sol = false.
Proof.
  intros Hinv Hstep i Hi.
  destruct (CompetitiveCoding.submitted i st) eqn:Hbefore.
  - destruct (coding_step_frozen e st st' i Hstep Hbefore) as [_ ->]. auto.
  - revert Hstep. unfold CompetitiveCoding.step.
    destruct (array_get _ _) as [sol|] eqn:Hsol; [|discriminate].
    destruct e as [v| |index].
    + destruct (CompetitiveCoding.submitted (CompetitiveCoding.currentProblem st) st);
        intros [= <-]; unfold CompetitiveCoding.submitted in *; simpl in Hi; congruence.
    + destruct (negb (truthy (trim sol)) || _) eqn:Hg;
        [intros [= <-]; congruence|].
      unfold CompetitiveCoding.handleSubmit. rewrite Hsol.
      apply orb_false_elim in Hg as [Ht _]. apply negb_false_iff in Ht. rewrite Ht.
      intros [= <-]. unfold CompetitiveCoding.submitted in *. simpl in *.
      destruct (decide (CompetitiveCoding.currentProblem st = i)) as [<-|Hne].
      * exists sol. split; [exact Hsol|].
        rewrite truthy_trim in Ht. by apply negb_true_iff.
      * rewrite array_get_set_ne in Hi by exact Hne. congruence.
    + destruct (_ <? _)%nat; intros [= <-];
        unfold CompetitiveCoding.submitted in *; simpl in Hi; congruence.
Qed.

Lemma coding_run_answered (evs : list CompetitiveCoding.event)
    (s0 st : CompetitiveCoding.state) :
  (forall i, CompetitiveCoding.submitted i s0 = true ->
     exists sol, array_get i (CompetitiveCoding.solutions s0) = Some sol
                 /\ blank sol = false) ->
  CompetitiveCoding.run evs s0 = Some st ->
  forall i, CompetitiveCoding.submitted i st = true ->
    exists sol, array_get i (CompetitiveCoding.solutions st) = Some sol
                /\ blank sol = false.
Proof.
  revert s0. induction evs as [|e evs IH]; intros s0 Hinv; simpl.
  - intros [= <-]. exact Hinv.
  - destruct (CompetitiveCoding.step e s0) as [s1|] eqn:Hstep; [|discriminate].
    apply IH. exact (coding_step_answered e s0 s1 Hinv Hstep).
Qed.

(** X15. On the second competitive-coding page a problem is marked
    submitted only with a solution that has a character that is not white
    space, and from then on it stays marked and its solution text stays
    what it was, whatever the user does next. *)
Theorem coding_submission_is_final
    (before after : list CompetitiveCoding.event)
    (st st' : CompetitiveCoding.state) (i : nat) :
  CompetitiveCoding.run before CompetitiveCoding.init = Some st ->
  CompetitiveCoding.run after st = Some st' ->
  CompetitiveCoding.submitted i st = true ->
  CompetitiveCoding.submitted i st' = true
  /\ exists sol,
       array_get i (CompetitiveCoding.solutions st) = Some sol
       /\ blank sol = false
       /\ array_get i (CompetitiveCoding.solutions st') = Some sol.
Proof.
  intros Hbefore Hafter Hi.
  assert (Hans : exists sol, array_get i (CompetitiveCoding.solutions st) = Some sol
                             /\ blank sol = false).
  { apply (coding_run_answered before CompetitiveCoding.init st); [|exact Hbefore|exact Hi].
    intros j Hj. exfalso. revert Hj. unfold CompetitiveCoding.submitted, array_get.
    simpl. do 5 (destruct j as [|j]; [discriminate|]). discriminate. }
  destruct Hans as (sol & Hsol & Hb).
  assert (Hfin : CompetitiveCoding.submitted i st' = true
                 /\ array_get i (CompetitiveCoding.solutions st')
                    = array_get i (CompetitiveCoding.solutions st)).
  { clear Hbefore Hsol. revert st Hafter Hi.
    induction after as [|e evs IH]; intros st; simpl.
    - intros [= <-] Hi. auto.
    - destruct (CompetitiveCoding.step e st) as [s1|] eqn:Hstep; [|discriminate].
      intros Hrun Hi.
      destruct (coding_step_frozen e st s1 i Hstep Hi) as [Hi1 Hsame].
      destruct (IH s1 Hrun Hi1) as [Hi' Hsame']. split; [exact Hi' | congruence]. }
  destruct Hfin as [Hi' Hsame]. split; [exact Hi'|].
  exists sol. rewrite Hsame. auto.
Qed.

Lemma coding_submission_is_final_witness :
  let before := [CompetitiveCoding.ClickChip 2; CompetitiveCoding.Type_ (lit "fifo");
                 CompetitiveCoding.ClickSubmit] in
  let after := [CompetitiveCoding.Type_ (lit "lru"); CompetitiveCoding.ClickChip 0;
                CompetitiveCoding.Type_ (lit "x"); CompetitiveCoding.ClickChip 2;
                CompetitiveCoding.ClickSubmit] in
  exists st st',
    CompetitiveCoding.run before CompetitiveCoding.init = Some st
    /\ CompetitiveCoding.run after st = Some st'
    /\ CompetitiveCoding.submitted 2 st' = true
    /\ array_get 2 (CompetitiveCoding.solutions st') = Some (lit "fifo").
Proof.
  intros before after.
  destruct (CompetitiveCoding.run before CompetitiveCoding.init) as [st|] eqn:Hb;
    [|vm_compute in Hb; discriminate].
  destruct (CompetitiveCoding.run after st) as [st'|] eqn:Ha;
    [|vm_compute in Hb; injection Hb as <-; vm_compute in Ha; discriminate].
  exists st, st'. split; [reflexivity|]. split; [exact Ha|].
  assert (Hi : CompetitiveCoding.submitted 2 st = true)
    by (vm_compute in Hb; injection Hb as <-; reflexivity).
  destruct (coding_submission_is_final before after st st' 2 Hb Ha Hi)
    as (Hs & sol & Hsol & _ & Hsol').
  split; [exact Hs|]. rewrite Hsol'. rewrite <- Hsol.
  vm_compute in Hb. injection Hb as <-. reflexivity.
Defined.

(** ** The board: zoom, drag and clicks together *)

Lemma contraction_converges (d : nat -> Q) :
  (forall n, 0 <= d n)%Q ->
  (forall n, d (S n) <= (19#20) * d n)%Q ->
  forall eps : Q, (0 < eps)%Q ->
  exists N : nat, forall n, (N <= n)%nat -> (d n < eps)%Q.
Proof.
  intros Hpos Hstep eps Heps.
  assert (Hbound : forall n, ((19 + inject_Z (Z.of_nat n)) * d n <= 19 * d 0%nat)%Q).
  { induction n as [|n IH].
    - change (inject_Z (Z.of_nat 0)) with 0%Q. lra.
    - assert (Hk : (0 <= inject_Z (Z.of_nat n))%Q).
      { change 0%Q with (inject_Z 0). rewrite <- Zle_Qle. lia. }
      assert (HS : (inject_Z (Z.of_nat (S n)) == inject_Z (Z.of_nat n) + 1)%Q).
      { rewrite Nat2Z.inj_succ. unfold Z.succ. rewrite inject_Z_plus. reflexivity. }
      rewrite HS. pose proof (Hstep n) as Hc. pose proof (Hpos n) as H0.
      set (k := inject_Z (Z.of_nat n)) in *.
      assert (Hkt : (0 <= k * d n)%Q) by (apply Qmult_le_0_compat; assumption).
      assert (Hm : ((19 + (k + 1)) * d (S n) <= (19 + (k + 1)) * ((19#20) * d n))%Q).
      { apply Qmult_le_l; [lra | exact Hc]. }
      lra. }
  destruct (Qarchimedean (19 * d 0%nat / eps)) as [p Hp].
  exists (Pos.to_nat p). intros n Hn.
  pose proof (Hbound n) as Hb. pose proof (Hpos n) as H0.
  assert (Hk : (inject_Z (Z.pos p) <= inject_Z (Z.of_nat n))%Q).
  { rewrite <- Zle_Qle. lia. }
  assert (Hc : (19 * d 0%nat < inject_Z (Z.pos p) * eps)%Q).
  { apply (Qmult_lt_r _ _ eps Heps) in Hp.
    assert (He : (19 * d 0%nat / eps * eps == 19 * d 0%nat)%Q) by (field; lra).
    rewrite He in Hp. exact Hp. }
  set (k := inject_Z (Z.of_nat n)) in *.
  assert (Hke : (inject_Z (Z.pos p) * eps <= k * eps)%Q).
  { apply Qmult_le_compat_r; lra. }
  assert (Hp0 : (0 <= inject_Z (Z.pos p))%Q).
  { change 0%Q with (inject_Z 0). rewrite <- Zle_Qle. lia. }
  apply (Qmult_lt_l _ _ (19 + k)%Q); lra.
Qed.

Lemma frame_zoom (PI : Q) (st : Board.state) (sc : Board.scene) (z : Board.vec3) :
  Board.isZooming st = true ->
  Board.zoomTarget st = Some z ->
  let w' := Board.frame PI (st, sc) in
  Board.camera_position (snd w')
  = Board.lerp3 (Board.camera_position sc)
      (Board.zoom_position (Board.isMobile st) z) (6#100)
  /\ Board.camera_lookAt (snd w') = Some z
  /\ Board.isZooming (fst w') = true
  /\ Board.zoomTarget (fst w') = Some z
  /\ Board.isMobile (fst w') = Board.isMobile st.
Proof.
  intros Hz Ht. unfold Board.frame, Board.zoom_position.
  rewrite Hz, Ht. destruct z as [[zx zy] zz].
  destruct (Board.isDragging st); destruct (Board.group_rotation sc);
    simpl; rewrite ?Hz, ?Ht; repeat split.
Qed.

Lemma lerp3_distance (p t : Board.vec3) :
  (Board.camera_distance (Board.lerp3 p t (6#100)) t
   == (94#100) * Board.camera_distance p t)%Q.
Proof.
  destruct p as [[px py] pz], t as [[tx ty] tz].
  unfold Board.camera_distance, Board.lerp3.
  assert (H : forall a b : Q,
             (Qabs (a + (b - a) * (6#100) - b) == (94#100) * Qabs (a - b))%Q).
  { intros a b.
    assert (He : (a + (b - a) * (6#100) - b == (94#100) * (a - b))%Q) by ring.
    rewrite He, Qabs_Qmult. reflexivity. }
  rewrite !H. ring.
Qed.

Lemma camera_distance_nonneg (p t : Board.vec3) : (0 <= Board.camera_distance p t)%Q.
Proof.
  destruct p as [[px py] pz], t as [[tx ty] tz]. unfold Board.camera_distance.
  pose proof (Qabs_nonneg (px - tx)). pose proof (Qabs_nonneg (py - ty)).
  pose proof (Qabs_nonneg (pz - tz)). lra.
Qed.

Lemma frames_zoom (PI : Q) (n : nat) (st : Board.state) (sc : Board.scene)
    (z : Board.vec3) :
  Board.isZooming st = true ->
  Board.zoomTarget st = Some z ->
  let wn := Board.frames PI n (st, sc) in
  Board.isZooming (fst wn) = true
  /\ Board.zoomTarget (fst wn) = Some z
  /\ Board.isMobile (fst wn) = Board.isMobile st.
Proof.
  intros Hz Ht. induction n as [|n IH]; [simpl; auto|].
  rewrite frames_S. destruct IH as (Hzn & Htn & Hmn).
  destruct (Board.frames PI n (st, sc)) as [stn scn]. simpl in Hzn, Htn, Hmn.
  destruct (frame_zoom PI stn scn z Hzn Htn) as (_ & _ & H1 & H2 & H3).
  cbv zeta. rewrite H1, H2, H3. auto.
Qed.

(** X16. Once a click has set the zoom, every frame moves the camera 6
    hundredths of the way to the viewing position of the anchor (3 above
    and 2 behind it, one more of each on a narrow viewport) and aims it at
    the anchor: the distance to the viewing position shrinks by the factor
    94/100 per frame, and over frames the camera comes and stays as close
    to the viewing position as one asks. *)
Theorem zoom_camera_approaches_anchor
    (PI : Q) (st : Board.state) (sc : Board.scene) (z : Board.vec3) :
  Board.isZooming st = true ->
  Board.zoomTarget st = Some z ->
  let view := Board.zoom_position (Board.isMobile st) z in
  let sc' := snd (Board.frame PI (st, sc)) in
  Board.camera_lookAt sc' = Some z
  /\ Board.camera_position sc' = Board.lerp3 (Board.camera_position sc) view (6#100)
  /\ (Board.camera_distance (Board.camera_position sc') view
      == (94#100) * Board.camera_distance (Board.camera_position sc) view)%Q
  /\ (forall eps : Q, (0 < eps)%Q ->
      exists N : nat, forall n, (N <= n)%nat ->
        (Board.camera_distance
           (Board.camera_position (snd (Board.frames PI n (st, sc)))) view < eps)%Q).
Proof.
  intros Hz Ht view sc'.
  destruct (frame_zoom PI st sc z Hz Ht) as (Hcam & Hlook & _).
  subst sc'. split; [exact Hlook|]. split; [exact Hcam|]. split.
  - rewrite Hcam. apply lerp3_distance.
  - apply (contraction_converges
             (fun n => Board.camera_distance
                         (Board.camera_position (snd (Board.frames PI n (st, sc))))
                         view)).
    + intros n. apply camera_distance_nonneg.
    + intros n. rewrite frames_S.
      destruct (frames_zoom PI n st sc z Hz Ht) as (Hzn & Htn & Hmn).
      destruct (Board.frames PI n (st, sc)) as [stn scn]. simpl in Hzn, Htn, Hmn.
      destruct (frame_zoom PI stn scn z Hzn Htn) as (Hc & _).
      cbn [snd]. rewrite Hc, Hmn. fold view. rewrite lerp3_distance.
      pose proof (camera_distance_nonneg (Board.camera_position scn) view). lra.
Qed.

Lemma zoom_camera_approaches_anchor_witness :
  let st := fst (Board.click (355#113) Board.CPUChip false
                   (Board.init,
                    {| Board.now := 0; Board.timers := [];
                       Board.location := lit "/"; Board.console := [] |})) in
  let sc := {| Board.group_rotation := Some (355#226, 0, 0)%Q;
               Board.camera_position := (0, 0, 20)%Q;
               Board.camera_lookAt := None |} in
  Board.camera_position (snd (Board.frame (355#113) (st, sc)))
  = Board.lerp3 (0, 0, 20)%Q (36#10, (35#100) + 3 + 0, 1 + 2 + 0)%Q (6#100)
  /\ Board.camera_lookAt (snd (Board.frame (355#113) (st, sc)))
     = Some (36#10, 35#100, 1)%Q.
Proof.
  intros st sc.
  destruct (zoom_camera_approaches_anchor (355#113) st sc (36#10, 35#100, 1)%Q
              eq_refl eq_refl) as (Hlook & _).
  split; [reflexivity | exact Hlook].
Defined.

Lemma apply_keeps_zoom (PI : Q) (o : Board.op) (w : Board.world) :
  (Board.isZooming (Board.w_state w) = true ->
   Board.isZooming (Board.w_state (Board.apply PI o w)) = true)
  /\ ((forall r h, o <> Board.OpClick r h) ->
      Board.isZooming (Board.w_state (Board.apply PI o w))
      = Board.isZooming (Board.w_state w)
      /\ Board.zoomTarget (Board.w_state (Board.apply PI o w))
         = Board.zoomTarget (Board.w_state w))
  /\ (forall r h, o = Board.OpClick r h ->
      Board.isZooming (Board.w_state (Board.apply PI o w)) = true
      /\ Board.zoomTarget (Board.w_state (Board.apply PI o w))
         = Some (Board.position (Board.wiring r))).
Proof.
  destruct w as [st sc br sz].
  destruct o as [r h| |e|cX cY| |iw sz'|dt]; simpl.
  - repeat split; intros; try congruence;
      exfalso; eapply H; reflexivity.
  - unfold Board.frame. cbn [Board.w_state Board.w_scene].
    destruct (Board.isDragging st); destruct (Board.group_rotation sc);
      destruct (Board.isZooming st) eqn:Hz;
      destruct (Board.zoomTarget st) as [[[zx zy] zz]|] eqn:Ht;
      simpl; rewrite ?Hz, ?Ht; repeat split; intros; congruence.
  - repeat split; intros; congruence.
  - unfold Board.handleMouseMove.
    destruct (Board.isDragging st); simpl; repeat split; intros; congruence.
  - destruct (Board.isDragging st); simpl; repeat split; intros; congruence.
  - repeat split; intros; congruence.
  - repeat split; intros; congruence.
Qed.

(** X17. Nothing ends a zoom on the board: no frame, drag, release, resize
    or pause resets [isZooming] or the zoom target, so that after a click
    the zoom is on through every later sequence of actions, aimed at the
    anchor of the last click. *)
Theorem zoom_is_never_cancelled (PI : Q) (ops : list Board.op) (w : Board.world) :
  Board.isZooming (Board.w_state w) = true ->
  Board.isZooming (Board.w_state (Board.apply_all PI ops w)) = true
  /\ (Forall (fun o => forall r h, o <> Board.OpClick r h) ops ->
      Board.zoomTarget (Board.w_state (Board.apply_all PI ops w))
      = Board.zoomTarget (Board.w_state w))
  /\ (forall r h ops',
      ops = ops' ++ [Board.OpClick r h] ->
      Board.zoomTarget (Board.w_state (Board.apply_all PI ops w))
      = Some (Board.position (Board.wiring r))).
Proof.
  intros Hz. split; [|split].
  - revert w Hz. induction ops as [|o ops IH]; intros w Hz; simpl; [exact Hz|].
    apply IH, (apply_keeps_zoom PI o w), Hz.
  - revert w Hz. induction ops as [|o ops IH]; intros w Hz Hall; simpl; [reflexivity|].
    apply Forall_cons in Hall as [Ho Hall].
    rewrite IH; [|apply (apply_keeps_zoom PI o w), Hz|exact Hall].
    apply (apply_keeps_zoom PI o w), Ho.
  - intros r h ops' ->. unfold Board.apply_all. rewrite fold_left_app.
    cbn [fold_left].
    match goal with
    | |- context [Board.apply PI _ ?W] =>
        destruct (apply_keeps_zoom PI (Board.OpClick r h) W) as (_ & _ & H3)
    end.
    exact (proj2 (H3 r h eq_refl)).
Qed.

Lemma zoom_is_never_cancelled_witness :
  let w := {| Board.w_state := Board.init;
              Board.w_scene := {| Board.group_rotation := Some (355#226, 0, 0)%Q;
                                  Board.camera_position := (0, 0, 20)%Q;
                                  Board.camera_lookAt := None |};
              Board.w_browser := {| Board.now := 0; Board.timers := [];
                                    Board.location := lit "/"; Board.console := [] |};
              Board.w_size := (800, 600)%Q |} in
  let w1 := Board.apply (355#113) (Board.OpClick Board.RAMSlots false) w in
  let ops := [Board.OpFrame;
              Board.OpPointerDown {| Board.clientX := Some 10%Q;
                                     Board.clientY := Some 10%Q;
                                     Board.touches := None |};
              Board.OpMouseMove 50 10; Board.OpMouseUp; Board.OpResize 400 (400, 600)%Q;
              Board.OpFrame; Board.OpWait 5000] in
  Board.isZooming (Board.w_state (Board.apply_all (355#113) ops w1)) = true
  /\ Board.zoomTarget (Board.w_state (Board.apply_all (355#113) ops w1))
     = Some (-(15#10), 6#100, 5#10)%Q.
Proof.
  intros w w1 ops.
  destruct (zoom_is_never_cancelled (355#113) ops w1 eq_refl) as (Hz & Ht & _).
  split; [exact Hz|]. rewrite Ht; [reflexivity|].
  repeat constructor; discriminate.
Defined.

Lemma clamp_eq (v v' lo hi : Q) :
  (v == v' -> Board.clamp v lo hi == Board.clamp v' lo hi)%Q.
Proof.
  intros Hv. unfold Board.clamp.
  destruct (Q.min_spec hi v) as [[H1 E1]|[H1 E1]];
    destruct (Q.min_spec hi v') as [[H2 E2]|[H2 E2]];
    destruct (Q.max_spec lo (Qmin hi v)) as [[H3 E3]|[H3 E3]];
    destruct (Q.max_spec lo (Qmin hi v')) as [[H4 E4]|[H4 E4]];
    rewrite E3, E4; rewrite ?E1, ?E2 in *; lra.
Qed.

Lemma first_truthy_mouse (a : Q) : (Board.first_truthy (Some a) None == a)%Q.
Proof.
  unfold Board.first_truthy. destruct (Qeq_bool a 0) eqn:Ha; [|reflexivity].
  apply Qeq_bool_iff in Ha. rewrite Ha. reflexivity.
Qed.

(** X18. A drag turns the board by the displacement of the pointer since
    the press, wherever the press was: with a mouse press at [(a, b)] and
    a move to [(a + dx, b + dy)] on a canvas of positive size, the
    rotation about Y is [4 dx / width] and the rotation about X is
    [- 4 dy / height], each clamped to plus or minus 20 degrees; a move
    back to the point of the press gives rotation zero. *)
Theorem drag_depends_on_displacement
    (PI : Q) (size : Q * Q) (a b dx dy : Q) (st : Board.state) (sc : Board.scene) :
  (0 < PI)%Q -> (0 < fst size)%Q -> (0 < snd size)%Q ->
  let down := {| Board.clientX := Some a; Board.clientY := Some b;
                 Board.touches := None |} in
  let st1 := Board.handlePointerDown size down st in
  let st2 := fst (Board.handleMouseMove PI size (a + dx) (b + dy) (st1, sc)) in
  let m := Board.maxRotation PI in
  Board.isDragging st1 = true
  /\ (Board.y (Board.rotation st2) == Board.clamp (4 * dx / fst size) (- m) m)%Q
  /\ (Board.x (Board.rotation st2) == Board.clamp (- (4 * dy / snd size)) (- m) m)%Q
  /\ ((dx == 0)%Q -> (dy == 0)%Q ->
      (Board.x (Board.rotation st2) == 0 /\ Board.y (Board.rotation st2) == 0)%Q).
Proof.
  intros Hpi Hw Hh down st1 st2 m.
  pose proof (maxRotation_pos PI Hpi) as Hm. fold m in Hm.
  assert (Hy : (Board.y (Board.rotation st2)
                == Board.clamp (4 * dx / fst size) (- m) m)%Q).
  { subst st2 st1 down. unfold Board.handleMouseMove, Board.handlePointerDown.
    cbn [Board.isDragging negb fst snd Board.rotation Board.y Board.x Board.dragStart
         Board.clientX Board.clientY Board.touches mbind option_bind fmap option_fmap
         option_map].
    fold m. apply clamp_eq. rewrite first_truthy_mouse. field. lra. }
  assert (Hx : (Board.x (Board.rotation st2)
                == Board.clamp (- (4 * dy / snd size)) (- m) m)%Q).
  { subst st2 st1 down. unfold Board.handleMouseMove, Board.handlePointerDown.
    cbn [Board.isDragging negb fst snd Board.rotation Board.y Board.x Board.dragStart
         Board.clientX Board.clientY Board.touches mbind option_bind fmap option_fmap
         option_map].
    fold m. apply clamp_eq. rewrite first_truthy_mouse. field. lra. }
  refine (conj eq_refl (conj Hy (conj Hx _))).
  intros Hdx Hdy. rewrite Hx, Hy. split.
  - rewrite clamp_inside; [rewrite Hdy; field; lra|].
    assert (He : (- (4 * dy / snd size) == 0)%Q) by (rewrite Hdy; field; lra).
    rewrite He. lra.
  - rewrite clamp_inside; [rewrite Hdx; field; lra|].
    assert (He : (4 * dx / fst size == 0)%Q) by (rewrite Hdx; field; lra).
    rewrite He. lra.
Qed.

Lemma drag_depends_on_displacement_witness :
  let down := {| Board.clientX := Some 120%Q; Board.clientY := Some 80%Q;
                 Board.touches := None |} in
  let st1 := Board.handlePointerDown (800, 600)%Q down Board.init in
  let sc := {| Board.group_rotation := Some (355#226, 0, 0)%Q;
               Board.camera_position := (0, 0, 20)%Q;
               Board.camera_lookAt := None |} in
  let st2 := fst (Board.handleMouseMove (355#113) (800, 600)%Q (120 + 40) (80 + 0)
                    (st1, sc)) in
  (Board.y (Board.rotation st2) == 1#5)%Q.
Proof.
  intros down st1 sc st2.
  destruct (drag_depends_on_displacement (355#113) (800, 600)%Q 120 80 40 0
              Board.init sc) as (_ & Hy & _);
    [reflexivity | reflexivity | reflexivity |].
  fold down st1 st2 in Hy. rewrite Hy.
  rewrite clamp_inside; [reflexivity|]. vm_compute. split; discriminate.
Defined.

Lemma click_state (PI : Q) (r : Board.region) (h : bool)
    (st : Board.state) (br : Board.browser) :
  let st' := fst (Board.click PI r h (st, br)) in
  let k : Q := (if Board.isMobile st then 6#10 else 1)%Q in
  Board.x (Board.targetRotation st')
  = (Board.x (Board.targetRotation st) + Board.degToRad PI (8 * k))%Q
  /\ Board.y (Board.targetRotation st')
     = (Board.y (Board.targetRotation st) + Board.degToRad PI (3 * k))%Q
  /\ Board.rotation st' = Board.rotation st
  /\ Board.isMobile st' = Board.isMobile st.
Proof. repeat split. Qed.

Lemma moves_keep_dragging (PI : Q) (moves : list (Q * Q)) :
  forall w : Board.world,
    Board.isDragging (Board.w_state w) = true ->
    let w' := Board.apply_all PI
                (map (fun m => Board.OpMouseMove (fst m) (snd m)) moves) w in
    Board.isDragging (Board.w_state w') = true
    /\ Board.isMobile (Board.w_state w') = Board.isMobile (Board.w_state w).
Proof.
  induction moves as [|m moves IH]; intros w Hd; [split; [exact Hd | reflexivity]|].
  cbn [map]. rewrite apply_all_cons.
  assert (Hstep : Board.isDragging
                    (Board.w_state (Board.apply PI (Board.OpMouseMove (fst m) (snd m)) w))
                  = true).
  { destruct w as [st sc br sz]. cbn [Board.w_state] in Hd.
    cbn [Board.apply Board.w_state Board.w_scene Board.w_size].
    unfold Board.handleMouseMove. rewrite Hd. reflexivity. }
  destruct (IH _ Hstep) as [Hd' Hm']. split; [exact Hd'|].
  rewrite Hm'. apply (apply_isMobile PI (Board.OpMouseMove (fst m) (snd m)) w).
Qed.

Lemma frames_keep_rest (PI : Q) (n : nat) :
  forall w : Board.world,
    Board.isDragging (Board.w_state w) = false ->
    (Board.x (Board.targetRotation (Board.w_state w)) == 0)%Q ->
    (Board.y (Board.targetRotation (Board.w_state w)) == 0)%Q ->
    let w' := Board.apply_all PI (replicate n Board.OpFrame) w in
    Board.isDragging (Board.w_state w') = false
    /\ (Board.x (Board.targetRotation (Board.w_state w')) == 0)%Q
    /\ (Board.y (Board.targetRotation (Board.w_state w')) == 0)%Q
    /\ Board.isMobile (Board.w_state w') = Board.isMobile (Board.w_state w).
Proof.
  induction n as [|n IH]; intros w Hd Hx Hy; [repeat split; assumption|].
  cbn [replicate]. rewrite apply_all_cons.
  assert (Hstep : Board.isDragging (Board.w_state (Board.apply PI Board.OpFrame w)) = false
                  /\ (Board.x (Board.targetRotation
                                 (Board.w_state (Board.apply PI Board.OpFrame w))) == 0)%Q
                  /\ (Board.y (Board.targetRotation
                                 (Board.w_state (Board.apply PI Board.OpFrame w))) == 0)%Q).
  { destruct w as [st sc br sz]. cbn [Board.w_state] in Hd, Hx, Hy.
    cbn [Board.apply Board.w_state Board.w_scene Board.w_size].
    unfold Board.frame. rewrite Hd.
    destruct (Board.group_rotation sc);
      destruct (Board.isZooming st);
      destruct (Board.zoomTarget st) as [[[zx zy] zz]|];
      cbn [Board.w_state Board.isDragging Board.targetRotation Board.x Board.y];
      rewrite ?Hx, ?Hy; repeat split; try assumption; reflexivity. }
  destruct Hstep as (Hd1 & Hx1 & Hy1).
  destruct (IH _ Hd1 Hx1 Hy1) as (Hd' & Hx' & Hy' & Hm').
  refine (conj Hd' (conj Hx' (conj Hy' _))).
  rewrite Hm'. apply (apply_isMobile PI Board.OpFrame w).
Qed.

(** X19. The tilt of a click does not build up from click to click.  A
    click reaches its handler at the end of a press and a release on the
    board, and the release zeroes the target rotation: after the press,
    any mouse moves, the release, any number of frames and the click
    itself, the target rotation is the tilt of one click, 8 degrees about
    X and 3 degrees about Y (6 tenths of that on a narrow viewport),
    whatever the board state was before and however far the pointer was
    dragged; this is within the 20 degrees that bound a drag, and the
    drag is over. *)
Theorem click_gesture_sets_tilt
    (PI : Q) (w : Board.world) (e : Board.pointer_event) (moves : list (Q * Q))
    (n : nat) (r : Board.region) (h : bool) :
  (0 <= PI)%Q ->
  let st' := Board.w_state
               (Board.apply_all PI (Board.click_gesture e moves n r h) w) in
  let k : Q := (if Board.isMobile (Board.w_state w) then 6#10 else 1)%Q in
  (Board.x (Board.targetRotation st') == Board.degToRad PI (8 * k))%Q
  /\ (Board.y (Board.targetRotation st') == Board.degToRad PI (3 * k))%Q
  /\ (0 <= Board.x (Board.targetRotation st') <= Board.maxRotation PI)%Q
  /\ (0 <= Board.y (Board.targetRotation st') <= Board.maxRotation PI)%Q
  /\ Board.isDragging st' = false.
Proof.
  intros Hpi st' k. subst st'. unfold Board.click_gesture.
  rewrite apply_all_cons, apply_all_app, apply_all_cons, apply_all_app.
  set (w1 := Board.apply PI (Board.OpPointerDown e) w).
  assert (Hd1 : Board.isDragging (Board.w_state w1) = true) by reflexivity.
  assert (Hm1 : Board.isMobile (Board.w_state w1) = Board.isMobile (Board.w_state w))
    by reflexivity.
  destruct (moves_keep_dragging PI moves w1 Hd1) as [Hd2 Hm2].
  set (w2 := Board.apply_all PI _ w1) in *.
  set (w3 := Board.apply PI Board.OpMouseUp w2).
  assert (H3 : Board.isDragging (Board.w_state w3) = false
               /\ Board.targetRotation (Board.w_state w3)
                  = {| Board.x := 0; Board.y := 0 |}
               /\ Board.isMobile (Board.w_state w3) = Board.isMobile (Board.w_state w2)).
  { subst w3. cbn [Board.apply Board.w_state]. rewrite Hd2. repeat split. }
  destruct H3 as (Hd3 & Ht3 & Hm3).
  destruct (frames_keep_rest PI n w3 Hd3) as (Hd4 & Hx4 & Hy4 & Hm4);
    [rewrite Ht3; reflexivity | rewrite Ht3; reflexivity |].
  set (w4 := Board.apply_all PI _ w3) in *.
  assert (Hmob : Board.isMobile (Board.w_state w4) = Board.isMobile (Board.w_state w))
    by congruence.
  destruct w4 as [st4 sc4 br4 sz4]. cbn [Board.w_state] in Hd4, Hx4, Hy4, Hmob.
  cbn [Board.apply_all fold_left Board.apply Board.w_state Board.w_browser].
  destruct (click_state PI r h st4 br4) as (Hx & Hy & _ & _).
  destruct (Board.click PI r h (st4, br4)) as [st5 br5] eqn:Hc.
  cbn [fst Board.w_state] in *.
  assert (Hd5 : Board.isDragging st5 = Board.isDragging st4).
  { change st5 with (fst (st5, br5)). rewrite <- Hc. reflexivity. }
  rewrite Hmob in Hx, Hy. fold k in Hx, Hy.
  assert (Hxe : (Board.x (Board.targetRotation st5) == Board.degToRad PI (8 * k))%Q)
    by (rewrite Hx, Hx4; ring).
  assert (Hye : (Board.y (Board.targetRotation st5) == Board.degToRad PI (3 * k))%Q)
    by (rewrite Hy, Hy4; ring).
  refine (conj Hxe (conj Hye _)). rewrite Hxe, Hye, Hd5, Hd4.
  unfold Board.maxRotation, Board.degToRad, Board.DEG2RAD.
  change (PI / 180)%Q with (PI * (1#180))%Q.
  subst k. destruct (Board.isMobile (Board.w_state w)); repeat split; try nra.
Qed.

Lemma click_gesture_sets_tilt_witness :
  let w := {| Board.w_state := Board.init;
              Board.w_scene := {| Board.group_rotation := Some (355#226, 0, 0)%Q;
                                  Board.camera_position := (0, 0, 20)%Q;
                                  Board.camera_lookAt := None |};
              Board.w_browser := {| Board.now := 0; Board.timers := [];
                                    Board.location := lit "/"; Board.console := [] |};
              Board.w_size := (1024, 700)%Q |} in
  let press := {| Board.clientX := Some 400%Q; Board.clientY := Some 300%Q;
                  Board.touches := None |} in
  let ops := Board.click_gesture press [(700, 100)%Q] 2 Board.CPUChip false
             ++ Board.click_gesture press [] 0 Board.CPUChip true
             ++ Board.click_gesture press [] 1 Board.PCISlots false in
  let st' := Board.w_state (Board.apply_all (355#113) ops w) in
  (Board.x (Board.targetRotation st') == Board.degToRad (355#113) 8)%Q
  /\ (Board.x (Board.targetRotation st') <= Board.maxRotation (355#113))%Q.
Proof.
  intros w press ops st'. subst st' ops.
  rewrite !apply_all_app.
  set (w2 := Board.apply_all (355#113) (Board.click_gesture press [] 0 Board.CPUChip true) _).
  destruct (click_gesture_sets_tilt (355#113) w2 press [] 1 Board.PCISlots false)
    as (Hx & _ & [_ Hle] & _); [discriminate|].
  split; [|exact Hle].
  rewrite Hx. reflexivity.
Defined.

(** X20. The delay of a click is read from the viewport width at the time
    of the click: when a click on a wide viewport is followed, after a
    resize below 768 pixels and less than 500 ms, by a second click, the
    timer of the second click is due first, and once both have fired the
    location is the route of the first click. *)
Theorem narrowing_between_clicks_first_click_wins
    (PI : Q) (st : Board.state) (br : Board.browser)
    (r1 r2 : Board.region) (innerWidth : Z) (dt settle : N) :
  Board.timers br = [] ->
  Board.isMobile st = false ->
  (innerWidth < 768)%Z ->
  (dt < 500)%N ->
  (2500 <= settle)%N ->
  let w1 := Board.click PI r1 false (st, br) in
  let w2 := (Board.checkMobile innerWidth (fst w1), Board.elapse dt (snd w1)) in
  let w3 := Board.click PI r2 false w2 in
  Board.timers (snd w3)
  = [ {| Board.due := Board.now br + dt + 2000;
         Board.timer_domain := Board.domain (Board.wiring r2) |};
      {| Board.due := Board.now br + 2500;
         Board.timer_domain := Board.domain (Board.wiring r1) |} ]%N
  /\ Board.timers (Board.elapse settle (snd w3)) = []
  /\ Board.location (Board.elapse settle (snd w3))
     = Board.route (Board.domain (Board.wiring r1)).
Proof.
  intros Hnil Hwide Hw Hdt Hsettle w1 w2 w3.
  destruct br as [t0 tms loc con]. simpl in Hnil. subst tms.
  assert (Ht3 : Board.timers (snd w3)
    = [ {| Board.due := t0 + dt + 2000;
           Board.timer_domain := Board.domain (Board.wiring r2) |};
        {| Board.due := t0 + 2500;
           Board.timer_domain := Board.domain (Board.wiring r1) |} ]%N).
  { subst w3 w2 w1. rewrite click_timers.
    rewrite elapse_timers, elapse_now. cbn [fst snd].
    rewrite click_timers, click_now. cbn [fst Board.isMobile
      Board.checkMobile Board.timers Board.now Board.location].
    rewrite Hwide. apply Z.ltb_lt in Hw. rewrite Hw.
    cbn [Board.duration Board.insert_timer Board.run_due Board.due].
    destruct (N.leb_spec (t0 + 2500) (t0 + dt)); [lia|]. cbn [fst Board.insert_timer Board.due].
    destruct (N.ltb_spec (t0 + dt + 2000) (t0 + 2500)); [reflexivity | lia]. }
  assert (Hnow : Board.now (snd w3) = (t0 + dt)%N).
  { subst w3 w2 w1. rewrite click_now, elapse_now. reflexivity. }
  split; [exact Ht3|].
  rewrite elapse_timers, elapse_location, Ht3, Hnow.
  cbn [Board.run_due Board.due Board.timer_domain].
  destruct (N.leb_spec (t0 + dt + 2000) (t0 + dt + settle)); [|lia].
  destruct (N.leb_spec (t0 + 2500) (t0 + dt + settle)); [|lia].
  split; reflexivity.
Qed.

Lemma narrowing_between_clicks_first_click_wins_witness :
  let br := {| Board.now := 0; Board.timers := [];
               Board.location := lit "/"; Board.console := [] |} in
  let w1 := Board.click (355#113) Board.PCIESlots false (Board.init, br) in
  let w2 := (Board.checkMobile 600 (fst w1), Board.elapse 300 (snd w1)) in
  let w3 := Board.click (355#113) Board.HeatsinkBlock false w2 in
  Board.location (Board.elapse 2500 (snd w3)) = lit "/research".
Proof.
  intros br w1 w2 w3.
  destruct (narrowing_between_clicks_first_click_wins (355#113) Board.init br
              Board.PCIESlots Board.HeatsinkBlock 600 300 2500)
    as (_ & _ & Hloc); [reflexivity | reflexivity | lia | lia | lia |].
  exact Hloc.
Defined.

Lemma replace_first_split (pre post : jsstring) :
  ~ In 32%N pre ->
  replace_first 32 45 (pre ++ 32%N :: post) = pre ++ 45%N :: post.
Proof.
  induction pre as [|c pre IH]; simpl; intros Hpre; [reflexivity|].
  destruct (N.eqb_spec c 32) as [->|Hc]; [tauto|].
  rewrite IH; [reflexivity | tauto].
Qed.

Lemma replace_first_none (s : jsstring) :
  ~ In 32%N s -> replace_first 32 45 s = s.
Proof.
  induction s as [|c s IH]; simpl; intros Hs; [reflexivity|].
  destruct (N.eqb_spec c 32) as [->|Hc]; [tauto|].
  rewrite IH; [reflexivity | tauto].
Qed.

(** X21. The route of a domain is a slash followed by the domain in which
    the first space, and only the first, is replaced by a hyphen: a
    domain with no space is kept as it is, whatever follows the first
    space is kept space by space, and the route is one character longer
    than the domain. *)
Theorem route_hyphenates_first_space_only (dom : jsstring) :
  length (Board.route dom) = S (length dom)
  /\ (~ In 32%N dom -> Board.route dom = lit "/" ++ dom)
  /\ (forall pre post,
      ~ In 32%N pre -> dom = pre ++ 32%N :: post ->
      Board.route dom = lit "/" ++ pre ++ 45%N :: post).
Proof.
  unfold Board.route. split; [|split].
  - simpl. f_equal. induction dom as [|c dom IH]; simpl; [reflexivity|].
    destruct (c =? 32)%N; simpl; congruence.
  - intros Hno. rewrite replace_first_none by exact Hno. reflexivity.
  - intros pre post Hpre ->. rewrite replace_first_split by exact Hpre. reflexivity.
Qed.

Lemma route_hyphenates_first_space_only_witness :
  Board.route (lit "open source lab") = lit "/open-source lab".
Proof.
  destruct (route_hyphenates_first_space_only (lit "open source lab")) as (_ & _ & H).
  apply (H (lit "open") (lit "source lab")); [|reflexivity].
  vm_compute. intuition discriminate.
Defined.

(** ** Parts laid out by a loop *)

Lemma lookup_map_seq {A} (f : nat -> A) (s n i : nat) :
  map f (seq s n) !! i = if (i <? n)%nat then Some (f (s + i)%nat) else None.
Proof.
  revert s i. induction n as [|n IH]; intros s i; simpl.
  - destruct i; reflexivity.
  - destruct i as [|i]; simpl.
    + rewrite Nat.add_0_r. reflexivity.
    + rewrite IH. replace (S s + i)%nat with (s + S i)%nat by lia.
      destruct (Nat.ltb_spec i n); destruct (Nat.ltb_spec (S i) (S n));
        try reflexivity; lia.
Qed.

Lemma of_nat_nonneg (i : nat) : (0 <= Parts.of_nat i)%Q.
Proof. unfold Parts.of_nat. change 0%Q with (inject_Z 0). rewrite <- Zle_Qle. lia. Qed.

Lemma of_nat_le (i j : nat) : (i <= j)%nat -> (Parts.of_nat i <= Parts.of_nat j)%Q.
Proof. intros H. unfold Parts.of_nat. rewrite <- Zle_Qle. lia. Qed.

Lemma of_nat_S (i : nat) : (Parts.of_nat (S i) == Parts.of_nat i + 1)%Q.
Proof.
  unfold Parts.of_nat. rewrite Nat2Z.inj_succ. unfold Z.succ.
  rewrite inject_Z_plus. reflexivity.
Qed.

Lemma of_nat_lt_S (i j : nat) : (i < j)%nat -> (Parts.of_nat i + 1 <= Parts.of_nat j)%Q.
Proof. intros H. rewrite <- of_nat_S. apply of_nat_le. lia. Qed.

Lemma of_nat_sub (i j : nat) :
  (i <= j)%nat -> (Parts.of_nat (j - i) == Parts.of_nat j - Parts.of_nat i)%Q.
Proof.
  intros H. unfold Parts.of_nat. rewrite Nat2Z.inj_sub by exact H.
  unfold Z.sub. rewrite inject_Z_plus, inject_Z_opp. reflexivity.
Qed.

(** X22. The fins of a heatsink of positive width, at least one of them,
    stand one in each of [fins] equal cells of the base: there are [fins]
    of them, the box of each lies within the base, the boxes of two
    different fins are apart, and the row is symmetric about the middle
    of the base. *)
Theorem heatsink_fins_fill_the_base (w : Q) (fins : nat) :
  (0 < w)%Q -> (0 < fins)%nat ->
  let xs := Parts.Heatsink_xs w fins in
  let half := (Parts.Heatsink_fin_width w fins / 2)%Q in
  length xs = fins
  /\ (forall i x, xs !! i = Some x ->
        (- (w / 2) <= x - half /\ x + half <= w / 2)%Q)
  /\ (forall i j xi xj, (i < j)%nat -> xs !! i = Some xi -> xs !! j = Some xj ->
        (xi + half < xj - half)%Q)
  /\ (forall i x, xs !! i = Some x ->
        exists x', xs !! (fins - 1 - i)%nat = Some x' /\ (x + x' == 0)%Q).
Proof.
  intros Hw Hf xs half.
  set (F := Parts.of_nat fins).
  set (c := (w / F)%Q).
  assert (HF : (1 <= F)%Q).
  { subst F. change 1%Q with (Parts.of_nat 1). apply of_nat_le. lia. }
  assert (Hc : (0 < c)%Q).
  { subst c. unfold Qdiv. apply Qmult_lt_0_compat; [exact Hw|].
    apply Qinv_lt_0_compat. lra. }
  assert (HFc : (F * c == w)%Q) by (subst c; field; lra).
  assert (Hhalf : (half == c * (85#200))%Q).
  { subst half. unfold Parts.Heatsink_fin_width. fold F. fold c. field. }
  assert (HFeq : Parts.of_nat fins = F) by reflexivity.
  assert (Hlook : forall i x, xs !! i = Some x ->
             (i < fins)%nat /\ x = (- w / 2 + (Parts.of_nat i + (1#2)) * c)%Q).
  { intros i x. subst xs. unfold Parts.Heatsink_xs. rewrite lookup_map_seq.
    destruct (Nat.ltb_spec i fins); [|discriminate].
    intros [= <-]. split; [assumption | reflexivity]. }
  assert (Hback : forall i, (i < fins)%nat ->
             xs !! i = Some (- w / 2 + (Parts.of_nat i + (1#2)) * c)%Q).
  { intros i Hi. subst xs. unfold Parts.Heatsink_xs. rewrite lookup_map_seq.
    destruct (Nat.ltb_spec i fins); [reflexivity | lia]. }
  assert (Hlen : length xs = fins).
  { subst xs. unfold Parts.Heatsink_xs. rewrite length_map, length_seq. reflexivity. }
  clearbody c F xs half.
  split; [exact Hlen|]. split; [|split].
  - intros i x Hx. destruct (Hlook i x Hx) as [Hi ->].
    pose proof (of_nat_nonneg i) as H0. pose proof (of_nat_lt_S i fins Hi) as H1.
    rewrite HFeq in H1. generalize dependent (Parts.of_nat i). intros I _ H0 H1.
    assert (Hic : (0 <= I * c)%Q) by (apply Qmult_le_0_compat; lra).
    assert (Hrc : (0 <= (F - I - 1) * c)%Q) by (apply Qmult_le_0_compat; lra).
    rewrite Hhalf. unfold Qdiv; change (/ 2)%Q with (1#2)%Q; split; nra.
  - intros i j xi xj Hij Hxi Hxj.
    destruct (Hlook i xi Hxi) as [_ ->]. destruct (Hlook j xj Hxj) as [_ ->].
    pose proof (of_nat_lt_S i j Hij) as H1.
    clear Hxi Hxj.
    generalize dependent (Parts.of_nat i). generalize dependent (Parts.of_nat j).
    intros J I H1.
    assert (Hd : (0 <= (J - I - 1) * c)%Q) by (apply Qmult_le_0_compat; lra).
    rewrite Hhalf. unfold Qdiv; change (/ 2)%Q with (1#2)%Q; nra.
  - intros i x Hx. destruct (Hlook i x Hx) as [Hi ->].
    eexists. split; [apply Hback; lia|].
    assert (Hs : (Parts.of_nat (fins - 1 - i) == F - 1 - Parts.of_nat i)%Q).
    { replace (fins - 1 - i)%nat with (fins - (1 + i))%nat by lia.
      rewrite of_nat_sub by lia. rewrite <- HFeq.
      assert (H1 : (Parts.of_nat (1 + i) == Parts.of_nat i + 1)%Q)
        by apply (of_nat_S i).
      rewrite H1. ring. }
    rewrite Hs. clear Hs Hx.
    generalize dependent (Parts.of_nat i). intros I.
    unfold Qdiv; change (/ 2)%Q with (1#2)%Q; nra.
Qed.

Lemma heatsink_fins_fill_the_base_witness :
  length (Parts.Heatsink_xs (22#10) 9) = 9%nat
  /\ (forall xi xj,
        Parts.Heatsink_xs (22#10) 9 !! 3%nat = Some xi ->
        Parts.Heatsink_xs (22#10) 9 !! 4%nat = Some xj ->
        (xi + Parts.Heatsink_fin_width (22#10) 9 / 2
         < xj - Parts.Heatsink_fin_width (22#10) 9 / 2)%Q).
Proof.
  destruct (heatsink_fins_fill_the_base (22#10) 9) as (Hlen & _ & Hgap & _);
    [reflexivity | lia |].
  split; [exact Hlen|]. intros xi xj. apply Hgap. lia.
Defined.

(** ** Second competitive-coding page: accuracy *)

Lemma array_count_pointwise {A B} (f : A -> bool) (g : B -> bool)
    (a : list (option A)) (b : list (option B)) :
  (forall i v, array_get i a = Some v -> f v = true ->
     exists u, array_get i b = Some u /\ g u = true) ->
  (array_count f a <= array_count g b)%nat.
Proof.
  revert b. induction a as [|x a IH]; intros b H; [unfold array_count; simpl; lia|].
  destruct b as [|y b].
  - assert (Hx : match x with Some v => f v | None => false end = false).
    { destruct x as [v|]; [|reflexivity]. destruct (f v) eqn:Hf; [|reflexivity].
      destruct (H 0%nat v eq_refl Hf) as (u & Hu & _). discriminate. }
    assert (Ha : array_count f a = 0%nat).
    { specialize (IH [] (fun i v Hv Hf => H (S i) v Hv Hf)).
      unfold array_count in IH at 2. simpl in IH. lia. }
    unfold array_count in *. simpl. rewrite Hx. simpl. lia.
  - specialize (IH b (fun i v Hv Hf => H (S i) v Hv Hf)).
    unfold array_count in *. simpl.
    destruct x as [v|]; [destruct (f v) eqn:Hf|].
    + destruct (H 0%nat v eq_refl Hf) as (u & Hu & Hg).
      unfold array_get in Hu. simpl in Hu. destruct y as [u'|]; [|discriminate].
      injection Hu as ->. rewrite Hg. simpl. lia.
    + destruct (match y with Some v0 => g v0 | None => false end); simpl; lia.
    + destruct (match y with Some v0 => g v0 | None => false end); simpl; lia.
Qed.

(** X23. On the second competitive-coding page, in every state reached
    from the initial one, the accuracy shown is 20 times the number of
    submitted problems, and it never exceeds the memory usage: every
    submitted problem holds a solution, and a solution is counted in the
    memory usage whether it was submitted or not. *)
Theorem coding_accuracy_at_most_memory
    (evs : list CompetitiveCoding.event) (st : CompetitiveCoding.state) :
  CompetitiveCoding.run evs CompetitiveCoding.init = Some st ->
  (CompetitiveCoding.solvedProblems st <= CompetitiveCoding.nonempty_solutions st)%nat
  /\ (CompetitiveCoding.accuracy st
      == 20 * inject_Z (Z.of_nat (CompetitiveCoding.solvedProblems st)))%Q
  /\ (CompetitiveCoding.accuracy st <= CompetitiveCoding.memoryUsage st)%Q.
Proof.
  intros Hrun.
  destruct (coding_run_defined evs _ coding_init_well_formed) as (st0 & Hrun0 & Hwf).
  rewrite Hrun in Hrun0. injection Hrun0 as <-.
  assert (Hm := coding_run_memory evs CompetitiveCoding.init st eq_refl Hrun).
  assert (Hans := coding_run_answered evs CompetitiveCoding.init st).
  assert (Hle : (CompetitiveCoding.solvedProblems st
                 <= CompetitiveCoding.nonempty_solutions st)%nat).
  { unfold CompetitiveCoding.solvedProblems, CompetitiveCoding.nonempty_solutions.
    apply array_count_pointwise. intros i v Hv Hf. subst v.
    destruct (Hans) with (i := i) as (sol & Hsol & Hb).
    - intros j Hj. exfalso. revert Hj. unfold CompetitiveCoding.submitted, array_get.
      simpl. do 5 (destruct j as [|j]; [discriminate|]). discriminate.
    - exact Hrun.
    - unfold CompetitiveCoding.submitted. rewrite Hv. reflexivity.
    - exists sol. split; [exact Hsol|].
      destruct sol; [discriminate | reflexivity]. }
  assert (Hacc : (CompetitiveCoding.accuracy st
      == 20 * inject_Z (Z.of_nat (CompetitiveCoding.solvedProblems st)))%Q).
  { unfold CompetitiveCoding.accuracy. destruct Hwf as (_ & Hl & _).
    rewrite Hl. change (0 <? length CompetitiveCoding.problems)%nat with true.
    cbv iota. field. }
  split; [exact Hle|]. split; [exact Hacc|].
  set (n := CompetitiveCoding.nonempty_solutions st) in *.
  set (m := CompetitiveCoding.solvedProblems st) in *.
  assert (Hmn : CompetitiveCoding.memoryUsage st
                = (inject_Z (Z.of_nat n) / 5 * 100)%Q) by exact Hm.
  rewrite Hacc, Hmn.
  assert (Hq : (inject_Z (Z.of_nat m) <= inject_Z (Z.of_nat n))%Q)
    by (rewrite <- Zle_Qle; lia).
  revert Hq. generalize (inject_Z (Z.of_nat m)). generalize (inject_Z (Z.of_nat n)).
  intros a b Hq. unfold Qdiv. change (/ 5)%Q with (1#5)%Q. lra.
Qed.

Lemma coding_accuracy_at_most_memory_witness :
  let evs := [CompetitiveCoding.Type_ (lit "x"); CompetitiveCoding.ClickSubmit;
              CompetitiveCoding.ClickChip 2; CompetitiveCoding.Type_ (lit " ")] in
  exists st,
    CompetitiveCoding.run evs CompetitiveCoding.init = Some st
    /\ (CompetitiveCoding.accuracy st == 20)%Q
    /\ (CompetitiveCoding.memoryUsage st == 40)%Q
    /\ (CompetitiveCoding.accuracy st <= CompetitiveCoding.memoryUsage st)%Q.
Proof.
  intros evs.
  destruct (CompetitiveCoding.run evs CompetitiveCoding.init) as [st|] eqn:Hrun;
    [|vm_compute in Hrun; discriminate].
  exists st. split; [reflexivity|].
  destruct (coding_accuracy_at_most_memory evs st Hrun) as (_ & _ & Hle).
  vm_compute in Hrun. injection Hrun as <-.
  split; [reflexivity|]. split; [reflexivity|]. exact Hle.
Defined.

(** ** Small parts on the board *)

Lemma of_nat_lt_const (i n : nat) :
  (i < n)%nat -> (0 <= Parts.of_nat i <= Parts.of_nat n - 1)%Q.
Proof.
  intros H. split; [apply of_nat_nonneg|].
  pose proof (of_nat_lt_S i n H) as H1. revert H1.
  generalize (Parts.of_nat i), (Parts.of_nat n). intros a b H1. lra.
Qed.

Lemma of_nat_inj (i j : nat) : (Parts.of_nat i == Parts.of_nat j)%Q -> i = j.
Proof.
  unfold Parts.of_nat. intros H. apply Nat2Z.inj. apply inject_Z_injective. exact H.
Qed.

(** X24. The 24 small resistors and the 50 SMD components of the layout
    are placed on a grid that stays on the 14 by 12 board, inside the
    bounds the comments of the code name (x within 6.5 and z within 5.5 of
    the centre), and no two items of a grid share a position. *)
Theorem resistor_and_smd_grids_stay_on_board :
  (forall i, (i < 24)%nat ->
     let '(x, z) := Parts.SmallRes_position i in
     (- (45#10) <= x <= 3 /\ - (35#10) <= z <= (19#10))%Q)
  /\ (forall i, (i < 50)%nat ->
     let '(x, z) := Parts.SMD_position i in
     (- (35#10) <= x <= - (8#10) /\ - (25#10) <= z <= - (13#10))%Q)
  /\ (forall i j, i <> j ->
     let '(x, z) := Parts.SmallRes_position i in
     let '(x', z') := Parts.SmallRes_position j in
     ~ (x == x' /\ z == z')%Q)
  /\ (forall i j, i <> j ->
     let '(x, z) := Parts.SMD_position i in
     let '(x', z') := Parts.SMD_position j in
     ~ (x == x' /\ z == z')%Q).
Proof.
  split; [|split; [|split]].
  - intros i Hi. unfold Parts.SmallRes_position.
    assert (Hm : (i mod 6 < 6)%nat) by (apply Nat.mod_upper_bound; lia).
    assert (Hd : (i / 6 < 4)%nat) by (apply Nat.Div0.div_lt_upper_bound; lia).
    apply of_nat_lt_const in Hm, Hd.
    change (Parts.of_nat 6) with 6%Q in Hm. change (Parts.of_nat 4) with 4%Q in Hd.
    split; lra.
  - intros i Hi. unfold Parts.SMD_position.
    assert (Hm : (i mod 10 < 10)%nat) by (apply Nat.mod_upper_bound; lia).
    assert (Hd : (i / 10 < 5)%nat) by (apply Nat.Div0.div_lt_upper_bound; lia).
    apply of_nat_lt_const in Hm, Hd.
    change (Parts.of_nat 10) with 10%Q in Hm. change (Parts.of_nat 5) with 5%Q in Hd.
    split; lra.
  - intros i j Hij. unfold Parts.SmallRes_position. intros [Hx Hz].
    assert (Hm : (i mod 6 = j mod 6)%nat) by (apply of_nat_inj; lra).
    assert (Hd : (i / 6 = j / 6)%nat) by (apply of_nat_inj; lra).
    apply Hij. rewrite (Nat.div_mod_eq i 6%nat), (Nat.div_mod_eq j 6%nat). congruence.
  - intros i j Hij. unfold Parts.SMD_position. intros [Hx Hz].
    assert (Hm : (i mod 10 = j mod 10)%nat) by (apply of_nat_inj; lra).
    assert (Hd : (i / 10 = j / 10)%nat) by (apply of_nat_inj; lra).
    apply Hij. rewrite (Nat.div_mod_eq i 10%nat), (Nat.div_mod_eq j 10%nat). congruence.
Qed.

(** X25. A part placed on a ring around the CPU ends up inside the bounds
    of the board (x within 6.5 and z within 5.5 of the centre) whatever
    the cosine, the sine and the radius are; and for a cosine and a sine
    between -1 and 1 and a radius up to 2.9, as the rings of the layout
    have (1.5, and 1.8 to 2.2), the clamp changes nothing: the part sits on the circle
    around (3.6, 1). *)
Theorem ring_parts_stay_on_board (c s radius : Q) :
  (let '(x, z) := Parts.ring_position c s radius in
   (- (65#10) <= x <= (65#10) /\ - (55#10) <= z <= (55#10))%Q)
  /\ ((-1 <= c <= 1)%Q -> (-1 <= s <= 1)%Q -> (0 <= radius <= (29#10))%Q ->
      let '(x, z) := Parts.ring_position c s radius in
      (x == (36#10) + c * radius /\ z == 1 + s * radius)%Q).
Proof.
  unfold Parts.ring_position. split.
  - split.
    + destruct (Q.max_spec (- (65#10)) (Qmin (65#10) ((36#10) + c * radius)))
        as [[H1 H2]|[H1 H2]];
      destruct (Q.min_spec (65#10) ((36#10) + c * radius)) as [[H3 H4]|[H3 H4]];
      rewrite H2; rewrite ?H4 in *; split; lra.
    + destruct (Q.max_spec (- (55#10)) (Qmin (55#10) (1 + s * radius)))
        as [[H1 H2]|[H1 H2]];
      destruct (Q.min_spec (55#10) (1 + s * radius)) as [[H3 H4]|[H3 H4]];
      rewrite H2; rewrite ?H4 in *; split; lra.
  - intros Hc Hs Hr.
    assert (Hcr : (- (29#10) <= c * radius <= (29#10))%Q) by (split; nra).
    assert (Hsr : (- (29#10) <= s * radius <= (29#10))%Q) by (split; nra).
    split.
    + rewrite Q.max_r; [rewrite Q.min_r; [reflexivity | lra]|].
      rewrite Q.min_r; lra.
    + rewrite Q.max_r; [rewrite Q.min_r; [reflexivity | lra]|].
      rewrite Q.min_r; lra.
Qed.

Lemma ring_parts_stay_on_board_witness :
  let '(x, z) := Parts.ring_position (1#2) (-(1#2)) (15#10) in
  (x == (36#10) + (1#2) * (15#10) /\ z == 1 + (-(1#2)) * (15#10))%Q.
Proof.
  apply (ring_parts_stay_on_board (1#2) (-(1#2)) (15#10));
    split; discriminate.
Defined.

(** X26. The grid drawn on a board of positive width and depth spans it
    from edge to edge: the twenty lines across the width start on the left
    edge, end on the right edge and are all on the board, one nineteenth
    of the width apart; likewise the sixteen lines across the depth. *)
Theorem pcb_grid_spans_the_board (width depth : Q) :
  (0 < width)%Q -> (0 < depth)%Q ->
  (forall i x, Parts.PCB_grid_x width !! i = Some x ->
     (- (width / 2) <= x <= width / 2)%Q)
  /\ (forall i z, Parts.PCB_grid_z depth !! i = Some z ->
     (- (depth / 2) <= z <= depth / 2)%Q)
  /\ (exists x0 x19, Parts.PCB_grid_x width !! 0%nat = Some x0
        /\ last (Parts.PCB_grid_x width) = Some x19
        /\ x0 == - (width / 2) /\ x19 == width / 2)%Q
  /\ (exists z0 z15, Parts.PCB_grid_z depth !! 0%nat = Some z0
        /\ last (Parts.PCB_grid_z depth) = Some z15
        /\ z0 == - (depth / 2) /\ z15 == depth / 2)%Q
  /\ (forall i x x', Parts.PCB_grid_x width !! i = Some x ->
        Parts.PCB_grid_x width !! S i = Some x' -> (x' - x == width / 19)%Q)
  /\ (forall i z z', Parts.PCB_grid_z depth !! i = Some z ->
        Parts.PCB_grid_z depth !! S i = Some z' -> (z' - z == depth / 15)%Q).
Proof.
  intros Hw Hd.
  split; [|split; [|split; [|split; [|split]]]].
  - intros i x. unfold Parts.PCB_grid_x. rewrite lookup_map_seq.
    destruct (Nat.ltb_spec i 20) as [Hi|]; [|discriminate]. intros [= <-].
    cbn [Nat.add]. apply of_nat_lt_const in Hi.
    change (Parts.of_nat 20) with 20%Q in Hi.
    generalize dependent (Parts.of_nat i). intros I HI.
    unfold Qdiv. change (/ 2)%Q with (1#2)%Q. change (/ 19)%Q with (1#19)%Q.
    split; nra.
  - intros i z. unfold Parts.PCB_grid_z. rewrite lookup_map_seq.
    destruct (Nat.ltb_spec i 16) as [Hi|]; [|discriminate]. intros [= <-].
    cbn [Nat.add]. apply of_nat_lt_const in Hi.
    change (Parts.of_nat 16) with 16%Q in Hi.
    generalize dependent (Parts.of_nat i). intros I HI.
    unfold Qdiv. change (/ 2)%Q with (1#2)%Q. change (/ 15)%Q with (1#15)%Q.
    split; nra.
  - eexists _, _. split; [reflexivity|]. split; [reflexivity|].
    unfold Parts.of_nat. simpl inject_Z. split; field.
  - eexists _, _. split; [reflexivity|]. split; [reflexivity|].
    unfold Parts.of_nat. simpl inject_Z. split; field.
  - intros i x x'. unfold Parts.PCB_grid_x. rewrite !lookup_map_seq.
    destruct (Nat.ltb_spec i 20); [|discriminate].
    destruct (Nat.ltb_spec (S i) 20); [|discriminate].
    intros [= <-] [= <-]. cbn [Nat.add]. rewrite of_nat_S. field.
  - intros i z z'. unfold Parts.PCB_grid_z. rewrite !lookup_map_seq.
    destruct (Nat.ltb_spec i 16); [|discriminate].
    destruct (Nat.ltb_spec (S i) 16); [|discriminate].
    intros [= <-] [= <-]. cbn [Nat.add]. rewrite of_nat_S. field.
Qed.

Lemma pcb_grid_spans_the_board_witness :
  exists x0 x19, Parts.PCB_grid_x 14 !! 0%nat = Some x0
    /\ last (Parts.PCB_grid_x 14) = Some x19
    /\ (x0 == - (14 / 2))%Q /\ (x19 == 14 / 2)%Q.
Proof.
  destruct (pcb_grid_spans_the_board 14 12) as (_ & _ & H & _);
    [reflexivity | reflexivity |].
  exact H.
Defined.

Lemma of_nat_add (i j : nat) :
  (Parts.of_nat (i + j) == Parts.of_nat i + Parts.of_nat j)%Q.
Proof. unfold Parts.of_nat. rewrite Nat2Z.inj_add, inject_Z_plus. reflexivity. Qed.

Lemma of_nat_mul (i j : nat) :
  (Parts.of_nat (i * j) == Parts.of_nat i * Parts.of_nat j)%Q.
Proof. unfold Parts.of_nat. rewrite Nat2Z.inj_mul, inject_Z_mult. reflexivity. Qed.

Lemma ic_per_side (k : nat) : (Parts.of_nat (4 * k) / 4 == Parts.of_nat k)%Q.
Proof.
  rewrite of_nat_mul. change (Parts.of_nat 4) with 4%Q. field.
Qed.

Lemma ic_side (k i : nat) :
  Z.to_nat (Qfloor (Parts.of_nat i / (Parts.of_nat (4 * k) / 4))) = (i / k)%nat.
Proof.
  rewrite (Qfloor_comp _ (Parts.of_nat i / Parts.of_nat k))
    by (rewrite ic_per_side; reflexivity).
  unfold Parts.of_nat. rewrite <- Zdiv_Qdiv, <- Nat2Z.inj_div. apply Nat2Z.id.
Qed.

(** X27. The pins of a chip go round its body.  With [4 * k] pins, [k] at
    least 2, on a body of positive width and depth, the pin [i] sits on
    the side [i / k], 0.05 outside the body, and at the fraction
    [(i mod k) / (k - 1)] of the way along that side, from one corner to
    the next, the four sides taken in turn round the chip.  With 4 pins the
    coordinate along the side is not a number for any pin: the code
    divides zero by zero. *)
Theorem ic_pins_go_round_the_body (sx sz : Q) (k i : nat) :
  Parts.ICChip_pin sx sz 4 i = None
  /\ ((0 < sx)%Q -> (0 < sz)%Q -> (2 <= k)%nat -> (i < 4 * k)%nat ->
      exists x z t,
        Parts.ICChip_pin sx sz (4 * k) i = Some (x, z)
        /\ (t == Parts.of_nat (i mod k) / (Parts.of_nat k - 1))%Q
        /\ (0 <= t <= 1)%Q
        /\ match (i / k)%nat with
           | 0%nat => (x == - (sx / 2) - (5#100) /\ z == - (sz / 2) + t * sz)%Q
           | 1%nat => (x == - (sx / 2) + t * sx /\ z == sz / 2 + (5#100))%Q
           | 2%nat => (x == sx / 2 + (5#100) /\ z == sz / 2 - t * sz)%Q
           | _ => (x == sx / 2 - t * sx /\ z == - (sz / 2) - (5#100))%Q
           end).
Proof.
  split; [reflexivity|].
  intros Hsx Hsz Hk Hi.
  assert (HK : (2 <= Parts.of_nat k)%Q).
  { change 2%Q with (Parts.of_nat 2). apply of_nat_le. exact Hk. }
  assert (Hmod : (i mod k < k)%nat) by (apply Nat.mod_upper_bound; lia).
  assert (HR : (0 <= Parts.of_nat (i mod k) <= Parts.of_nat k - 1)%Q)
    by (apply of_nat_lt_const; exact Hmod).
  assert (Hside : (i / k < 4)%nat) by (apply Nat.Div0.div_lt_upper_bound; lia).
  assert (Hpin : (Parts.of_nat i
                  - Parts.of_nat (4 * k) / 4 * Parts.of_nat (i / k)
                  == Parts.of_nat (i mod k))%Q).
  { rewrite ic_per_side. rewrite (Nat.div_mod_eq i k) at 1.
    rewrite of_nat_add, of_nat_mul. ring. }
  unfold Parts.ICChip_pin. cbv zeta. rewrite ic_side.
  destruct (Qeq_bool (Parts.of_nat (4 * k) / 4 - 1) 0) eqn:Hz.
  { apply Qeq_bool_eq in Hz. rewrite ic_per_side in Hz. exfalso.
    revert Hz HK. generalize (Parts.of_nat k). intros K Hz HK. lra. }
  clear Hz.
  set (t := (Parts.of_nat (i mod k) / (Parts.of_nat k - 1))%Q).
  assert (Ht : (0 <= t <= 1)%Q).
  { subst t. revert HR HK.
    generalize (Parts.of_nat (i mod k)), (Parts.of_nat k). intros R K HR HK.
    split.
    - apply Qle_shift_div_l; lra.
    - apply Qle_shift_div_r; lra. }
  assert (Hal : forall len : Q,
            ((Parts.of_nat i - Parts.of_nat (4 * k) / 4 * Parts.of_nat (i / k)) * len
             / (Parts.of_nat (4 * k) / 4 - 1) == t * len)%Q).
  { intros len. rewrite Hpin, ic_per_side. subst t.
    revert HK. generalize (Parts.of_nat (i mod k)), (Parts.of_nat k).
    intros R K HK. field. lra. }
  destruct (i / k)%nat as [|[|[|[|s]]]] eqn:Hs; [| | | |lia];
    eexists _, _, t; (split; [reflexivity|]);
    (split; [reflexivity|]); (split; [exact Ht|]);
    rewrite Hal; split; field.
Qed.

Lemma ic_pins_go_round_the_body_witness :
  exists x z,
    Parts.ICChip_pin (4#10) (4#10) 16 5 = Some (x, z)
    /\ (x == - ((4#10) / 2) + (1#3) * (4#10) /\ z == (4#10) / 2 + (5#100))%Q.
Proof.
  destruct (ic_pins_go_round_the_body (4#10) (4#10) 4 5) as [_ H].
  destruct H as (x & z & t & Hpin & Ht & _ & Hxz);
    [reflexivity | reflexivity | lia | lia |].
  exists x, z. split; [exact Hpin|].
  change ((5 / 4)%nat) with 1%nat in Hxz. destruct Hxz as [Hx Hz].
  split; [|exact Hz]. rewrite Hx, Ht. reflexivity.
Defined.
